(** * N-puzzle A* solver: a shallow embedding of [N_puzzle_A_star.py]

    The Python program keeps a board as a 2D list of integers, links every
    generated board to its parent, orders the frontier with
    [queue.PriorityQueue] (a binary heap over [Board.__lt__]) and remembers
    the [__repr__] strings of the boards it has pushed in a [set].

    Python integers are modelled by [Z], [len]/[range] indices by [nat],
    lists by [list], strings by [string], the [seen] set by [gset string],
    and exceptions by an explicit result type. The heap operations follow
    the definitions of [heapq.py], which [queue.PriorityQueue] calls.
    [Board.shuffle] takes the numbers that [random.choice] draws as an
    argument, [print_tiles] gives the lines it prints, and of the script
    under [__main__] the construction of the puzzle is modelled; its clock
    readings and its output are not. *)

From stdpp Require Import list list_numbers strings pretty gmap relations.
From Stdlib Require Import ZArith Lia Ascii.

Local Open Scope Z_scope.

#[local] Set Warnings "-clear-no-such-hyp".

(** ** Results of running Python code *)

Inductive exn : Type :=
  | IndexError
  | ZeroDivisionError.

(** [Ret v]: the code ran to its end and produced [v]; [Raise e]: it raised
    [e]; [OutOfFuel]: the model's step bound of a [while] loop was used up. *)
Inductive res (A : Type) : Type :=
  | Ret (a : A)
  | Raise (e : exn)
  | OutOfFuel.
Arguments Ret {A} a.
Arguments Raise {A} e.
Arguments OutOfFuel {A}.

Global Instance res_ret : MRet res := @Ret.
Global Instance res_bind : MBind res := λ A B k m,
  match m with
  | Ret a => k a
  | Raise e => Raise e
  | OutOfFuel => OutOfFuel
  end.

(** A Python [for x in xs:] loop whose body updates an accumulator. *)
Fixpoint for_each {A S : Type} (xs : list A) (body : S → A → res S) (s : S)
  : res S :=
  match xs with
  | [] => Ret s
  | x :: xs' => s' ← body s x; for_each xs' body s'
  end.

(** [range(n)] for a length [n]. *)
Definition range (n : nat) : list nat := seq 0 n.

(** [l[i]] and [l[i] = x] for a non-negative index. *)
Definition getitem {A : Type} (l : list A) (i : nat) : res A :=
  match l !! i with
  | Some x => Ret x
  | None => Raise IndexError
  end.

Definition setitem {A : Type} (l : list A) (i : nat) (x : A) : res (list A) :=
  if decide (i < length l)%nat then Ret (<[i:=x]> l) else Raise IndexError.

(** [divmod(a, b)]: floor division, the remainder has the sign of [b]. *)
Definition divmod (a b : Z) : res (Z * Z) :=
  if decide (b = 0) then Raise ZeroDivisionError else Ret (a `div` b, a `mod` b).

(** [' '.join(map(str, xs))] *)
Definition join_str (xs : list Z) : string :=
  String.concat " " (pretty <$> xs).

(** ** The Board class *)

(** A 2D list of tiles, e.g. [[1,2,3],[4,5,6],[7,8,0]]. *)
Abbreviation grid := (list (list Z)).

(** The attributes that [__init__] sets. *)
#[warnings="-register-all"]
Inductive Board : Type := mkBoard {
  tiles : grid;
  width : nat;
  parent : option Board;
  action : option string;
  g : Z
}.

(** [Board.__init__(tiles, parent=None, action=None)] *)
Definition Board_init (tiles : grid) (parent : option Board)
    (action : option string) : Board :=
  mkBoard tiles (length tiles) parent action
    (match parent with
     | Some p => g p + 1
     | None => 0
     end).

(** [tmp[i][j]] *)
Definition getitem2 (t : grid) (i j : nat) : res Z :=
  row ← getitem t i; getitem row j.

(** [tmp[i][j] = v]: the row object is updated in place. *)
Definition setitem2 (t : grid) (i j : nat) (v : Z) : res grid :=
  row ← getitem t i; row' ← setitem row j v; Ret (<[i:=row']> t).

(** [tmp[i1][j1], tmp[i2][j2] = tmp[i2][j2], tmp[i1][j1]]: the right-hand
    side is read first, then the two targets are written left to right. *)
Definition swap_assign (tmp : grid) (i1 j1 i2 j2 : nat) : res grid :=
  a ← getitem2 tmp i2 j2;
  b ← getitem2 tmp i1 j1;
  tmp1 ← setitem2 tmp i1 j1 a;
  setitem2 tmp1 i2 j2 b.

(** [Board(tmp, self, act)] if [record_parent] else [Board(tmp)]. *)
Definition new_neighbor (self : Board) (record_parent : bool) (tmp : grid)
    (act : string) : Board :=
  if record_parent then Board_init tmp (Some self) (Some act)
  else Board_init tmp None None.

(** One of the four blocks of [Board.neighbors]:
    [tmp = copy.deepcopy(self.tiles)], the swap assignment on [tmp], and
    [nbs.append(Board(tmp, self, act))] or [nbs.append(Board(tmp))].
    [copy.deepcopy] gives a fresh grid with the same contents, so each block
    starts again from [tiles self]. *)
Definition append_swapped (self : Board) (record_parent : bool)
    (i1 j1 i2 j2 : nat) (act : string) (nbs : list Board) : res (list Board) :=
  tmp ← swap_assign (tiles self) i1 j1 i2 j2;
  Ret (nbs ++ [new_neighbor self record_parent tmp act]).

(** The body of the two nested loops of [Board.neighbors] at cell [(i, j)]. *)
Definition neighbors_cell (self : Board) (record_parent : bool)
    (i : nat) (nbs : list Board) (j : nat) : res (list Board) :=
  v ← getitem2 (tiles self) i j;
  if decide (v = 0) then
    nbs ← (if decide (Z.of_nat i - 1 >= 0)
           then append_swapped self record_parent (i - 1) j i j "Down" nbs
           else Ret nbs);
    nbs ← (if decide (i + 1 < width self)%nat
           then append_swapped self record_parent (i + 1) j i j "Up" nbs
           else Ret nbs);
    nbs ← (if decide (Z.of_nat j - 1 >= 0)
           then append_swapped self record_parent i (j - 1) i j "Right" nbs
           else Ret nbs);
    (if decide (j + 1 < width self)%nat
     then append_swapped self record_parent i (j + 1) i j "Left" nbs
     else Ret nbs)
  else Ret nbs.

(** [Board.neighbors(record_parent=False)] *)
Definition neighbors (self : Board) (record_parent : bool) : res (list Board) :=
  for_each (range (width self))
    (λ nbs i, for_each (range (width self))
                (neighbors_cell self record_parent i) nbs)
    [].

(** The loop body of [Board.manhattan] at cell [(i, j)]. *)
Definition manhattan_cell (self : Board) (i : nat) (distance : Z) (j : nat)
  : res Z :=
  v ← getitem2 (tiles self) i j;
  if decide (v ≠ 0) then
    '(x, y) ← divmod (v - 1) (Z.of_nat (width self));
    Ret (distance + (Z.abs (x - Z.of_nat i) + Z.abs (y - Z.of_nat j)))
  else Ret distance.

(** [Board.manhattan()] *)
Definition manhattan (self : Board) : res Z :=
  for_each (range (width self))
    (λ distance i, for_each (range (width self))
                     (manhattan_cell self i) distance)
    0.

(** The property [Board.f]. It also stores [h] on the object; that attribute
    is never read back, so it is left out of the record. *)
Definition f (self : Board) : res Z :=
  h ← manhattan self; Ret (g self + h).

(** [Board.path()]: [while cur:] runs as long as [cur] is not [None] (a
    [Board] has neither [__bool__] nor [__len__], so it is always true). *)
Fixpoint path_collect (cur : Board) : list Board :=
  cur :: match parent cur with
         | Some p => path_collect p
         | None => []
         end.

(** [list(reversed(path))] *)
Definition path (self : Board) : list Board := rev (path_collect self).

(** [Board.__iter__]: every element of every row, row by row. *)
Definition iter (self : Board) : list Z := concat (tiles self).

(** [Board.__repr__] *)
Definition repr (self : Board) : string := join_str (iter self).

(** [range(1, N)] for an integer [N]. *)
Definition range_1 (N : Z) : list Z := seqZ 1 (N - 1).

(** [Board.is_solved()] *)
Definition is_solved (self : Board) : bool :=
  let N := Z.of_nat (width self) ^ 2 in
  bool_decide (repr self = join_str (range_1 N) +:+ " 0").

(** [Board.__lt__]; [other] is a [Board], so [getattr(other, 'f', other)]
    is [other.f]. *)
Definition Board_lt (self other : Board) : res bool :=
  a ← f self; b ← f other; Ret (bool_decide (a < b)).

(** [Board.__eq__] *)
Definition Board_eq (self other : Board) : res bool :=
  a ← f self; b ← f other; Ret (bool_decide (a = b)).

(** ** [make_goal] *)

(** [range(n)] for an integer [n]. *)
Definition rangeZ (n : Z) : list Z := seqZ 0 n.

(** [make_goal(s)]: [arr] is [1, ..., s*s-1, 0], cut into [s] rows. *)
Definition make_goal (s : Z) : res grid :=
  let arr := range_1 (s * s) ++ [0] in
  for_each (rangeZ s)
    (λ goal i,
       tmp ← for_each (rangeZ s)
               (λ tmp j, x ← getitem arr (Z.to_nat (i * s + j));
                         Ret (tmp ++ [x]))
               [];
       Ret (goal ++ [tmp]))
    [].

(** ** [heapq], as used by [queue.PriorityQueue] *)

Section heapq.
Context {A : Type} (less : A → A → res bool).

(** The [while pos > startpos] loop of [_siftdown]; [n] bounds its steps. *)
Fixpoint siftdown_loop (n : nat) (heap : list A) (startpos pos : nat)
    (newitem : A) : res (list A) :=
  if decide (startpos < pos)%nat then
    match n with
    | O => OutOfFuel
    | S n' =>
        let parentpos := ((pos - 1) `div` 2)%nat in
        parent ← getitem heap parentpos;
        c ← less newitem parent;
        if c : bool then
          heap ← setitem heap pos parent;
          siftdown_loop n' heap startpos parentpos newitem
        else setitem heap pos newitem
    end
  else setitem heap pos newitem.

(** [_siftdown(heap, startpos, pos)]; the loop runs at most [pos] times. *)
Definition siftdown (heap : list A) (startpos pos : nat) : res (list A) :=
  newitem ← getitem heap pos;
  siftdown_loop pos heap startpos pos newitem.

(** The [while childpos < endpos] loop of [_siftup]; it returns the heap
    and the final [pos]. *)
Fixpoint siftup_loop (n : nat) (heap : list A) (endpos pos : nat)
    : res (list A * nat) :=
  let childpos := (2 * pos + 1)%nat in
  if decide (childpos < endpos)%nat then
    match n with
    | O => OutOfFuel
    | S n' =>
        let rightpos := (childpos + 1)%nat in
        right_wins ←
          (if decide (rightpos < endpos)%nat then
             a ← getitem heap childpos;
             b ← getitem heap rightpos;
             c ← less a b;
             Ret (negb c)
           else Ret false);
        let childpos := if right_wins : bool then rightpos else childpos in
        x ← getitem heap childpos;
        heap ← setitem heap pos x;
        siftup_loop n' heap endpos childpos
    end
  else Ret (heap, pos).

(** [_siftup(heap, pos)]; the loop runs at most [len(heap)] times. *)
Definition siftup (heap : list A) (pos : nat) : res (list A) :=
  let endpos := length heap in
  let startpos := pos in
  newitem ← getitem heap pos;
  '(heap, pos) ← siftup_loop endpos heap endpos pos;
  heap ← setitem heap pos newitem;
  siftdown heap startpos pos.

(** [heappush(heap, item)]: [heap.append(item)], then [_siftdown]. *)
Definition heappush (heap : list A) (item : A) : res (list A) :=
  let heap := heap ++ [item] in
  siftdown heap 0 (length heap - 1).

(** [heappop(heap)]: [lastelt = heap.pop()] takes the last element (an
    [IndexError] on an empty list); if elements remain, the first one is
    returned and [lastelt] is sifted up from its place. *)
Definition heappop (heap : list A) : res (A * list A) :=
  match reverse heap with
  | [] => Raise IndexError
  | lastelt :: rest =>
      let heap := reverse rest in
      match heap with
      | [] => Ret (lastelt, heap)
      | returnitem :: _ =>
          heap ← setitem heap 0 lastelt;
          heap ← siftup heap 0;
          Ret (returnitem, heap)
      end
  end.
End heapq.

(** ** The Solver class *)

(** [PriorityQueue.put] and [PriorityQueue.get] on the queue's heap list. *)
Definition q_put (q : list Board) (item : Board) : res (list Board) :=
  heappush Board_lt q item.

Definition q_get (q : list Board) : res (Board * list Board) :=
  heappop Board_lt q.

(** [PriorityQueue.empty] *)
Definition q_empty (q : list Board) : bool := bool_decide (length q = 0%nat).

(** The body of [for nb in node.neighbors(record_parent=True)]. *)
Definition visit (st : list Board * gset string) (nb : Board)
  : res (list Board * gset string) :=
  let '(q, seen) := st in
  if decide (repr nb ∉ seen) then
    q ← q_put q nb;
    Ret (q, seen ∪ {[repr nb]})
  else Ret (q, seen).

(** What one pass through the body of [while not q.empty()] does. *)
Inductive step_result : Type :=
  | Return (p : list Board)
  | Continue (q : list Board) (seen : gset string).

Definition loop_body (q : list Board) (seen : gset string) : res step_result :=
  '(node, q) ← q_get q;
  if is_solved node then Ret (Return (path node))
  else
    nbs ← neighbors node true;
    '(q, seen) ← for_each nbs visit (q, seen);
    Ret (Continue q seen).

(** The [while] loop. Leaving it because the queue is empty ends [solve]
    without a [return] statement: the call evaluates to Python's [None],
    modelled as [Ret None]. *)
Fixpoint solve_loop (n : nat) (q : list Board) (seen : gset string)
  : res (option (list Board)) :=
  if q_empty q then Ret None
  else
    match n with
    | O => OutOfFuel
    | S n' =>
        r ← loop_body q seen;
        match r with
        | Return p => Ret (Some p)
        | Continue q seen => solve_loop n' q seen
        end
    end.

(** [Solver(puzzle).solve()] *)
Definition solve (n : nat) (puzzle : Board) : res (option (list Board)) :=
  q ← q_put [] puzzle;
  let seen : gset string := ∅ ∪ {[repr puzzle]} in
  solve_loop n q seen.

(** ** Auxiliary notions used in the statements *)

(** A string without a blank character, as [str] of an integer is. *)
Fixpoint no_space (s : string) : Prop :=
  match s with
  | EmptyString => True
  | String a s' => a ≠ " "%char ∧ no_space s'
  end.

Definition word (s : string) : Prop := s ≠ EmptyString ∧ no_space s.

(** What may follow a word inside a joined string: nothing, or a blank and
    the remaining words. *)
Definition tail_like (r : string) : Prop :=
  r = EmptyString ∨ ∃ r0, r = String " " r0.

(** The value [make_goal] stores at index [k] of [arr], for a size [s]. *)
Definition goal_value (s k : Z) : Z :=
  if decide (k < s * s - 1) then k + 1 else 0.

(** Goal detection at width [s]: [make_goal s] returns a grid of [s] rows
    whose key is the rendering of [1, ..., s²-1, 0], and [is_solved] holds
    of a board of that width exactly when its key is that key. *)
Definition goal_detection (s : Z) : Prop :=
  ∃ goal,
    make_goal s = Ret goal ∧
    Z.of_nat (width (Board_init goal None None)) = s ∧
    repr (Board_init goal None None) = join_str (range_1 (s * s) ++ [0]) ∧
    ∀ b, Z.of_nat (width b) = s →
         (is_solved b = true ↔ repr b = repr (Board_init goal None None)).

(** The row lengths of a grid. *)
Definition shape (t : grid) : list nat := length <$> t.

(** The cell at row [i], column [j], when there is one. *)
Definition cell (t : grid) (i j : nat) : option Z :=
  row ← t !! i; row !! j.

(** The cells that the double loop [for i in range(w): for j in range(w)]
    visits, in the order it visits them. *)
Definition cells (w : nat) : list (nat * nat) :=
  i ← range w; j ← range w; [(i, j)].

(** Every row that the double loop of [neighbors] and [manhattan] reads has
    at least [width] tiles, so that no read is out of range. *)
Definition rows_ok (b : Board) : Prop :=
  ∀ i, (i < width b)%nat →
       ∃ row, tiles b !! i = Some row ∧ (width b ≤ length row)%nat.

(** [nb] was built by [neighbors] from [b]: its tiles are [b]'s tiles after
    one swap assignment. *)
Definition is_child (b : Board) (record_parent : bool) (nb : Board) : Prop :=
  ∃ i1 j1 i2 j2 tmp act,
    swap_assign (tiles b) i1 j1 i2 j2 = Ret tmp ∧
    nb = new_neighbor b record_parent tmp act.

(** One move of the search: [b'] is one of the boards that
    [b.neighbors(record_parent=True)] returns. *)
Definition step (b b' : Board) : Prop :=
  ∃ nbs, neighbors b true = Ret nbs ∧ b' ∈ nbs.

Definition reachable (root b : Board) : Prop := rtc step root b.

(** A board is solvable when some sequence of moves leads from it to a board
    that [is_solved] accepts. *)
Definition solvable (root : Board) : Prop :=
  ∃ goal, reachable root goal ∧ is_solved goal = true.

(** The cells that the blank at [(i, j)] is swapped with, in the order of
    the four blocks of [neighbors], each with the label of its block. *)
Definition moves_at (w i j : nat) : list (nat * nat * string) :=
  (if decide (1 ≤ i)%nat then [((i - 1)%nat, j, "Down")] else []) ++
  (if decide (i + 1 < w)%nat then [((i + 1)%nat, j, "Up")] else []) ++
  (if decide (1 ≤ j)%nat then [(i, (j - 1)%nat, "Right")] else []) ++
  (if decide (j + 1 < w)%nat then [(i, (j + 1)%nat, "Left")] else []).

(** Along a path every element is the parent of the next one, one level
    deeper. *)
Definition depth_chain (p : list Board) : Prop :=
  ∀ i x y, p !! i = Some x → p !! S i = Some y →
           parent y = Some x ∧ g y = g x + 1.

(** [b'] is one of the boards that [b.neighbors(record_parent)] returns, for
    either value of the flag. *)
Definition successor (b b' : Board) : Prop :=
  ∃ record_parent nbs, neighbors b record_parent = Ret nbs ∧ b' ∈ nbs.

(** The flattened tiles are a permutation of [0 .. width²-1]. *)
Definition permutation_tiles (b : Board) : Prop :=
  concat (tiles b) ≡ₚ seqZ 0 (Z.of_nat (width b) ^ 2).

(** The number of blanks on a board. *)
Definition blank_count (b : Board) : nat :=
  length (filter (λ v, v = 0) (concat (tiles b))).

(** Every board reached from [root] through successor generation has
    permutation tiles and exactly one blank. *)
Definition tiles_invariant (root : Board) : Prop :=
  ∀ b, rtc successor root b → permutation_tiles b ∧ blank_count b = 1%nat.

(** Two runs end the same way, with results related by [R]. *)
Definition rel_res {A B : Type} (R : A → B → Prop) (r1 : res A) (r2 : res B)
  : Prop :=
  match r1, r2 with
  | Ret a, Ret b => R a b
  | Raise e1, Raise e2 => e1 = e2
  | OutOfFuel, OutOfFuel => True
  | _, _ => False
  end.

(** The keys of all rearrangements of the tiles of a grid: a finite set that
    holds every key the search can ever see. *)
Definition key_universe (t : grid) : gset string :=
  list_to_set (join_str <$> permutations (concat t)).

(** A bound on the number of iterations the [while] loop still has to run. *)
Definition search_measure (t : grid) (q : list Board) (seen : gset string)
  : nat :=
  (2 * size (key_universe t ∖ seen) + length q)%nat.

(** The invariant of the [while] loop of [solve], at the start of each
    iteration: the frontier holds boards reached from the root, their keys
    are in [seen], and a reached board whose key is in [seen] is either
    represented in the frontier or has been expanded (it was not solved, and
    the keys of its children are in [seen]). *)
Record search_inv (root : Board) (q : list Board) (seen : gset string)
  : Prop := {
  inv_reach : Forall (reachable root) q;
  inv_keys : ∀ b, b ∈ q → repr b ∈ seen;
  inv_root : repr root ∈ seen;
  inv_universe : seen ⊆ key_universe (tiles root);
  inv_closed : ∀ b, reachable root b → repr b ∈ seen →
    (∃ b', b' ∈ q ∧ repr b' = repr b) ∨
    (is_solved b = false ∧ ∀ b'', step b b'' → repr b'' ∈ seen)
}.

(** The state of [solve] when it enters the [while] loop: the queue after
    [q.put(self.puzzle)] and the set after [seen.add(...)]. *)
Definition loop_init (root : Board) (st : list Board * gset string) : Prop :=
  ∃ q, q_put [] root = Ret q ∧ st = (q, ∅ ∪ {[repr root]}).

(** One full iteration of the [while] loop that does not return. *)
Definition loop_step (st st' : list Board * gset string) : Prop :=
  q_empty st.1 = false ∧ loop_body st.1 st.2 = Ret (Continue st'.1 st'.2).

(** The cells of the scanned window that hold the blank, in scan order. *)
Definition blanks (t : grid) : list (nat * nat) :=
  filter (λ c, cell t c.1 c.2 = Some 0) (cells (length t)).

(** Exchanging two cells of a grid, cell by cell: the new grid has at [c1]
    what the old one had at [c2], at [c2] what it had at [c1], and is
    unchanged elsewhere. *)
Definition exchanged_cell (c1 c2 c : nat * nat) : nat * nat :=
  if decide (c = c1) then c2 else if decide (c = c2) then c1 else c.

Definition exchange (t : grid) (c1 c2 : nat * nat) : grid :=
  imap (λ i row,
          imap (λ j v,
                  let c := exchanged_cell c1 c2 (i, j) in
                  default v (cell t c.1 c.2))
               row)
       t.

(** The child that [neighbors(record_parent=True)] builds for the move [m]
    of the blank at [c]. *)
Definition child_of (self : Board) (c : nat * nat) (m : nat * nat * string)
  : Board :=
  mkBoard (exchange (tiles self) (m.1.1, m.1.2) c) (length (tiles self))
          (Some self) (Some m.2) (g self + 1).

Definition sumZ (l : list Z) : Z := foldr Z.add 0 l.

(** The Manhattan distance from the cell [c] to the goal position
    [((v-1) div w, (v-1) mod w)] of the tile [v]. *)
Definition tile_distance (w : nat) (c : nat * nat) (v : Z) : Z :=
  Z.abs ((v - 1) `div` Z.of_nat w - Z.of_nat c.1) +
  Z.abs ((v - 1) `mod` Z.of_nat w - Z.of_nat c.2).

(** What the cell [c] of a board adds to the heuristic: the distance of its
    tile, nothing for the blank. *)
Definition cell_distance (b : Board) (c : nat * nat) : Z :=
  match cell (tiles b) c.1 c.2 with
  | Some v => if decide (v ≠ 0) then tile_distance (width b) c v else 0
  | None => 0
  end.

(** The heuristic as the specification words it: the sum, over all non-blank
    tiles, of the Manhattan distance between the tile's cell and its goal
    position. *)
Definition manhattan_sum (b : Board) : Z :=
  sumZ (cell_distance b <$> cells (width b)).

(** The heuristic of [b] is right: [manhattan] returns that sum, the sum is
    not negative, and it is 0 exactly on a solved board. *)
Definition heuristic_correct (b : Board) : Prop :=
  manhattan b = Ret (manhattan_sum b) ∧
  0 ≤ manhattan_sum b ∧
  (manhattan_sum b = 0 ↔ is_solved b = true).

(** ** [Board.neighbors] on a store of row objects

    A Python grid is a list object whose elements are references to row
    objects, and [tmp[i][j] = v] writes into a row object in place. The
    definitions above treat grids as values, which is right as long as no
    row that the board can reach is ever written to. The store model below
    keeps the row objects in a store, so that this can be stated and proved:
    [neighbors] writes only into the rows that [copy.deepcopy] has just
    made. *)

(** The row objects, by identity. A reference that the program holds always
    points to a row of the store; [deref] is total for convenience. *)
Abbreviation store := (gmap nat (list Z)).

Definition deref (σ : store) (l : nat) : list Z := default [] (σ !! l).

(** The grid object with the rows [r] has the contents [t]. *)
Definition holds (σ : store) (r : list nat) (t : grid) : Prop :=
  Forall2 (λ l row, σ !! l = Some row) r t.

(** [copy.deepcopy] of the rows of a grid: every row object is copied once
    into a new object (the memo of [deepcopy] maps a row that was already
    copied to its copy), and the copies are put into a new list. *)
Fixpoint deepcopy_rows (σ : store) (memo : gmap nat nat) (r : list nat)
  : store * list nat :=
  match r with
  | [] => (σ, [])
  | l :: r' =>
      match memo !! l with
      | Some l' =>
          let '(σ', tmp) := deepcopy_rows σ memo r' in (σ', l' :: tmp)
      | None =>
          let l' := fresh (dom σ) in
          let '(σ', tmp) :=
            deepcopy_rows (<[l':=deref σ l]> σ) (<[l:=l']> memo) r' in
          (σ', l' :: tmp)
      end
  end.

Definition deepcopy (σ : store) (r : list nat) : store * list nat :=
  deepcopy_rows σ ∅ r.

(** [tmp[i][j]] and [tmp[i][j] = v] on a grid object. *)
Definition ref_getitem2 (σ : store) (tmp : list nat) (i j : nat) : res Z :=
  l ← getitem tmp i; getitem (deref σ l) j.

Definition ref_setitem2 (σ : store) (tmp : list nat) (i j : nat) (v : Z)
  : res store :=
  l ← getitem tmp i; row' ← setitem (deref σ l) j v; Ret (<[l:=row']> σ).

Definition ref_swap_assign (σ : store) (tmp : list nat) (i1 j1 i2 j2 : nat)
  : res store :=
  a ← ref_getitem2 σ tmp i2 j2;
  b ← ref_getitem2 σ tmp i1 j1;
  σ1 ← ref_setitem2 σ tmp i1 j1 a;
  ref_setitem2 σ1 tmp i2 j2 b.

(** One block of [neighbors]; a child is kept as the reference to its tiles
    and its label. *)
Definition ref_append_swapped (self_tiles : list nat) (i1 j1 i2 j2 : nat)
    (act : string) (st : store * list (list nat * string))
  : res (store * list (list nat * string)) :=
  let '(σ1, tmp) := deepcopy st.1 self_tiles in
  σ2 ← ref_swap_assign σ1 tmp i1 j1 i2 j2;
  Ret (σ2, st.2 ++ [(tmp, act)]).

Definition ref_neighbors_cell (self_tiles : list nat) (w i : nat)
    (st : store * list (list nat * string)) (j : nat)
  : res (store * list (list nat * string)) :=
  v ← ref_getitem2 st.1 self_tiles i j;
  if decide (v = 0) then
    st ← (if decide (Z.of_nat i - 1 >= 0)
          then ref_append_swapped self_tiles (i - 1) j i j "Down" st
          else Ret st);
    st ← (if decide (i + 1 < w)%nat
          then ref_append_swapped self_tiles (i + 1) j i j "Up" st
          else Ret st);
    st ← (if decide (Z.of_nat j - 1 >= 0)
          then ref_append_swapped self_tiles i (j - 1) i j "Right" st
          else Ret st);
    (if decide (j + 1 < w)%nat
     then ref_append_swapped self_tiles i (j + 1) i j "Left" st
     else Ret st)
  else Ret st.

(** [Board.neighbors(record_parent=True)] for a board whose [tiles] is the
    grid object [self_tiles] and whose [width] is [w], run in the store [σ]:
    the final store and the children. *)
Definition ref_neighbors (σ : store) (self_tiles : list nat) (w : nat)
  : res (store * list (list nat * string)) :=
  for_each (range w)
    (λ st i, for_each (range w) (ref_neighbors_cell self_tiles w i) st)
    (σ, []).

(** The store-level run agrees with the value-level children [nbs], and no
    row object of the store [σ] it started from has changed. *)
Definition children_in_store (σ : store) (nbs : list Board)
    (st : store * list (list nat * string)) : Prop :=
  σ ⊆ st.1 ∧
  Forall2 (λ nb ref, holds st.1 ref.1 (tiles nb) ∧ action nb = Some ref.2)
          nbs st.2.

(** ** [Board.shuffle] and [Board.print_tiles] *)

(** [random.choice(seq)]: an [IndexError] on an empty sequence, otherwise
    the element at a drawn index below [len(seq)]. The drawn index is given
    by an arbitrary number [r] reduced modulo the length, so that every
    index can be drawn. *)
Definition choice {A : Type} (r : nat) (seq : list A) : res A :=
  if decide (length seq = 0%nat) then Raise IndexError
  else getitem seq (r `mod` length seq).

(** [Board.shuffle(num)]: [num] times, one of [puzzle.neighbors()] is
    chosen; [rand k] is the number drawn in the iteration [k] of the loop
    over [range(num)]. *)
Definition shuffle (rand : nat → nat) (self : Board) (num : Z) : res Board :=
  for_each (rangeZ num)
    (λ puzzle k,
       nbs ← neighbors puzzle false; choice (rand (Z.to_nat k)) nbs)
    self.

(** [str(row)] for a list of integers:
    ['[' + ', '.join(map(repr, row)) + ']']. *)
Definition str_list (row : list Z) : string :=
  "[" +:+ String.concat ", " (pretty <$> row) +:+ "]".

(** [Board.print_tiles()]: the lines that [print(row)] writes, one for each
    row. *)
Definition print_tiles (self : Board) : list string :=
  str_list <$> tiles self.

(** The puzzle that the script under [__main__] builds:
    [Board(make_goal(3)).shuffle(100)]. *)
Definition main_puzzle (rand : nat → nat) : res Board :=
  goal ← make_goal 3; shuffle rand (Board_init goal None None) 100.

(** ** Notions used in the further properties *)

(** Every row of the grid has at least as many tiles as the grid has rows. *)
Definition rows_long (t : grid) : Prop :=
  Forall (λ row, (length t ≤ length row)%nat) t.

(** The run raises nothing but an [IndexError]. *)
Definition raises_only_IndexError {A : Type} (m : res A) : Prop :=
  ∀ e, m = Raise e → e = IndexError.

(** The value of [f] on a board whose rows are long enough. *)
Definition cost (b : Board) : Z := g b + manhattan_sum b.

(** The heap invariant of [heapq]: no element has a smaller key than its
    parent, the element at [(k - 1) // 2]. *)
Definition heap_ordered {A : Type} (key : A → Z) (heap : list A) : Prop :=
  ∀ k x y, (0 < k)%nat → heap !! k = Some x →
           heap !! ((k - 1) `div` 2)%nat = Some y → key y ≤ key x.

(** A heap with a hole at [pos] that [newitem] is going to fill, on its way
    to the root in [_siftdown]: the elements away from the hole are in heap
    order, the children of the hole are not smaller than its parent, and
    they are not smaller than [newitem]. *)
Definition hole_up {A : Type} (key : A → Z) (heap : list A) (pos : nat)
    (newitem : A) : Prop :=
  (∀ k x y, (0 < k)%nat → k ≠ pos → ((k - 1) `div` 2)%nat ≠ pos →
            heap !! k = Some x → heap !! ((k - 1) `div` 2)%nat = Some y →
            key y ≤ key x) ∧
  (∀ c x y, (0 < pos)%nat → ((c - 1) `div` 2)%nat = pos → (0 < c)%nat →
            heap !! c = Some x →
            heap !! ((pos - 1) `div` 2)%nat = Some y → key y ≤ key x) ∧
  (∀ c x, ((c - 1) `div` 2)%nat = pos → (0 < c)%nat →
          heap !! c = Some x → key newitem ≤ key x).

(** A heap with a hole at [pos] on its way to a leaf in [_siftup]. *)
Definition hole_down {A : Type} (key : A → Z) (heap : list A) (pos : nat)
  : Prop :=
  (∀ k x y, (0 < k)%nat → k ≠ pos → ((k - 1) `div` 2)%nat ≠ pos →
            heap !! k = Some x → heap !! ((k - 1) `div` 2)%nat = Some y →
            key y ≤ key x) ∧
  (∀ c x y, (0 < pos)%nat → ((c - 1) `div` 2)%nat = pos → (0 < c)%nat →
            heap !! c = Some x →
            heap !! ((pos - 1) `div` 2)%nat = Some y → key y ≤ key x).

(** A board as [__init__] builds it, with ancestors built in the same way:
    the width is the number of rows, and the depth is one more than the
    parent's, or 0 without a parent. *)
Fixpoint init_built (b : Board) : Prop :=
  width b = length (tiles b) ∧
  match parent b with
  | Some p => g b = g p + 1 ∧ init_built p
  | None => g b = 0
  end.

(** The blank of the board is swapped with a tile next to it. *)
Definition adjacent (c1 c2 : nat * nat) : Prop :=
  (c1.2 = c2.2 ∧ (c1.1 = S c2.1 ∨ c2.1 = S c1.1)) ∨
  (c1.1 = c2.1 ∧ (c1.2 = S c2.2 ∨ c2.2 = S c1.2)).

(** A grid on which the random walk of [shuffle] can take a step: the board
    is at least 2 wide, its rows are long enough, and it has a blank inside
    the scanned window. *)
Definition walkable (t : grid) : Prop :=
  (2 ≤ length t)%nat ∧ rows_long t ∧ blanks t ≠ [].

(** The characters of a string other than brackets and commas: what is
    left of a printed row when its punctuation is taken away. *)
Fixpoint unbracket (s : string) : string :=
  match s with
  | EmptyString => EmptyString
  | String c s' =>
      if decide (c = "["%char ∨ c = "]"%char ∨ c = ","%char)
      then unbracket s' else String c (unbracket s')
  end.
(** * Properties *)

(** ** The result monad and the loops *)

Lemma bind_Ret {A B : Type} (m : res A) (k : A → res B) (b : B) :
  m ≫= k = Ret b ↔ ∃ a, m = Ret a ∧ k a = Ret b.
Proof.
  destruct m as [a| |]; simpl; split; try discriminate.
  - eauto.
  - by intros (a' & [= ->] & ?).
  - by intros (? & ? & ?).
  - by intros (? & ? & ?).
Qed.

Lemma ret_bind {A B : Type} (a : A) (k : A → res B) : Ret a ≫= k = k a.
Proof. reflexivity. Qed.

Ltac inv_bind H :=
  repeat match type of H with
  | _ ≫= _ = Ret _ =>
      let a := fresh "a" in
      let Ha := fresh "Ha" in
      apply bind_Ret in H as (a & Ha & H)
  end.

Lemma for_each_app {A S : Type} (xs ys : list A) (body : S → A → res S) s :
  for_each (xs ++ ys) body s = for_each xs body s ≫= for_each ys body.
Proof.
  revert s; induction xs as [|x xs IH]; intros s; simpl; [done|].
  destruct (body s x); simpl; auto.
Qed.

(** An invariant carried through a [for] loop that runs to its end. *)
Lemma for_each_inv {A S : Type} (P : S → Prop) (xs : list A)
    (body : S → A → res S) s s' :
  (∀ s x s', x ∈ xs → P s → body s x = Ret s' → P s') →
  P s → for_each xs body s = Ret s' → P s'.
Proof.
  revert s; induction xs as [|x xs IH]; intros s Hbody HP Hrun; simpl in *.
  - by simplify_eq.
  - inv_bind Hrun. eapply (IH a); eauto.
    + intros ??? Hin. apply Hbody. by right.
    + eapply Hbody; eauto. by left.
Qed.

(** A loop whose body cannot fail under the invariant runs to its end. *)
Lemma for_each_total {A S : Type} (P : S → Prop) (xs : list A)
    (body : S → A → res S) s :
  (∀ s x, x ∈ xs → P s → ∃ s', body s x = Ret s' ∧ P s') →
  P s → ∃ s', for_each xs body s = Ret s' ∧ P s'.
Proof.
  revert s; induction xs as [|x xs IH]; intros s Hbody HP; simpl.
  - eauto.
  - destruct (Hbody s x) as (s1 & -> & HP1); [by left|done|]. simpl.
    apply IH; [|done]. intros ?? Hin. apply Hbody. by right.
Qed.

Lemma getitem_Ret {A : Type} (l : list A) i x :
  getitem l i = Ret x ↔ l !! i = Some x.
Proof. unfold getitem. destruct (l !! i); naive_solver. Qed.

Lemma getitem_Some {A : Type} (l : list A) i x :
  l !! i = Some x → getitem l i = Ret x.
Proof. apply getitem_Ret. Qed.

Lemma getitem_None {A : Type} (l : list A) i :
  l !! i = None → getitem l i = Raise IndexError.
Proof. unfold getitem. by intros ->. Qed.

Lemma setitem_Ret {A : Type} (l : list A) i x l' :
  setitem l i x = Ret l' ↔ (i < length l)%nat ∧ l' = <[i:=x]> l.
Proof.
  unfold setitem. case_decide; split.
  - by intros [= <-].
  - by intros [_ ->].
  - done.
  - intros []; lia.
Qed.

Lemma getitem2_Ret (t : grid) i j v :
  getitem2 t i j = Ret v ↔ ∃ row, t !! i = Some row ∧ row !! j = Some v.
Proof.
  unfold getitem2. rewrite bind_Ret. setoid_rewrite getitem_Ret. done.
Qed.

Lemma elem_of_range n i : i ∈ range n ↔ (i < n)%nat.
Proof. unfold range. rewrite elem_of_seq. lia. Qed.

(** ** The canonical key: [' '.join(map(str, ...))] is injective *)

Lemma string_app_nil_l (s : string) : EmptyString +:+ s = s.
Proof. reflexivity. Qed.

Lemma string_app_cons a (u s : string) : String a u +:+ s = String a (u +:+ s).
Proof. reflexivity. Qed.

Lemma string_app_assoc (a b c : string) : (a +:+ b) +:+ c = a +:+ b +:+ c.
Proof.
  induction a as [|x a IH]; [done|]. by rewrite !string_app_cons, IH.
Qed.

Lemma string_app_nil_r (a : string) : a +:+ EmptyString = a.
Proof.
  induction a as [|x a IH]; [done|]. by rewrite string_app_cons, IH.
Qed.

Lemma pretty_N_char_no_space x : pretty_N_char x ≠ " "%char.
Proof. unfold pretty_N_char. by repeat case_match. Qed.

Lemma pretty_N_go_no_space x s : no_space s → no_space (pretty_N_go x s).
Proof.
  revert s. induction (N.lt_wf_0 x) as [x _ IH]; intros s Hs.
  destruct (decide (x = 0)%N) as [->|Hx].
  - by rewrite pretty_N_go_0.
  - rewrite pretty_N_go_step by lia. apply IH.
    + apply N.div_lt; lia.
    + split; [apply pretty_N_char_no_space|done].
Qed.

Lemma pretty_N_go_nonempty x s : s ≠ EmptyString → pretty_N_go x s ≠ EmptyString.
Proof.
  revert s. induction (N.lt_wf_0 x) as [x _ IH]; intros s Hs.
  destruct (decide (x = 0)%N) as [->|Hx].
  - by rewrite pretty_N_go_0.
  - rewrite pretty_N_go_step by lia. apply IH; [apply N.div_lt; lia|done].
Qed.

Lemma pretty_positive_word (p : positive) : word (pretty p).
Proof.
  unfold pretty, pretty_positive, pretty, pretty_N.
  case_decide; [done|]. split.
  - rewrite pretty_N_go_step by lia. by apply pretty_N_go_nonempty.
  - by apply pretty_N_go_no_space.
Qed.

Lemma pretty_Z_word (z : Z) : word (pretty z).
Proof.
  destruct z as [|p|p]; unfold pretty, pretty_Z.
  - by split; [|split].
  - apply pretty_positive_word.
  - destruct (pretty_positive_word p) as [_ ?]. by split; [|split].
Qed.

Lemma word_split u v r r' :
  no_space u → no_space v → tail_like r → tail_like r' →
  u +:+ r = v +:+ r' → u = v ∧ r = r'.
Proof.
  revert v. induction u as [|a u IH]; intros [|b v] Hu Hv Hr Hr';
    rewrite ?string_app_nil_l, ?string_app_cons.
  - done.
  - destruct Hv as [Hb _]. destruct Hr as [->|[r0 ->]]; [done|].
    intros [= <- _]. done.
  - destruct Hu as [Ha _]. destruct Hr' as [->|[r0 ->]]; [done|].
    intros [= -> _]. done.
  - destruct Hu as [_ Hu], Hv as [_ Hv]. intros [= -> Heq].
    destruct (IH v Hu Hv Hr Hr' Heq) as [-> ->]. done.
Qed.

Lemma concat_cons_tail sep (u : string) us :
  String.concat sep (u :: us) =
  u +:+ match us with [] => EmptyString | _ => sep +:+ String.concat sep us end.
Proof.
  destruct us; simpl; [|done]. by rewrite string_app_nil_r.
Qed.

Lemma concat_words_inj us vs :
  Forall word us → Forall word vs →
  String.concat " " us = String.concat " " vs → us = vs.
Proof.
  intros Hus. revert vs.
  induction Hus as [|u us [Hne Hu] Hus IH]; intros vs Hvs.
  - destruct Hvs as [|v vs [Hv _] _]; [done|].
    rewrite concat_cons_tail. simpl. intros Heq. destruct v; simplify_eq/=.
  - destruct Hvs as [|v vs [Hvne Hv] Hvs].
    { rewrite concat_cons_tail. simpl. intros Heq. destruct u; simplify_eq/=. }
    rewrite !concat_cons_tail. intros Heq.
    apply word_split in Heq as [-> Htl]; [|done|done|..].
    + f_equal. apply IH; [done|].
      destruct us as [|u' us], vs as [|v' vs]; try done.
      rewrite !string_app_cons, !string_app_nil_l in Htl. by injection Htl.
    + destruct us; [by left|right; eauto].
    + destruct vs; [by left|right; eauto].
Qed.

Lemma join_str_inj xs ys : join_str xs = join_str ys → xs = ys.
Proof.
  unfold join_str. intros Heq.
  apply concat_words_inj in Heq.
  - revert Heq. apply (inj (fmap pretty)).
  - apply Forall_fmap, Forall_forall. intros ??. apply pretty_Z_word.
  - apply Forall_fmap, Forall_forall. intros ??. apply pretty_Z_word.
Qed.

(** Joining a non-empty list and one more element. *)
Lemma join_str_snoc xs z :
  xs ≠ [] → join_str (xs ++ [z]) = join_str xs +:+ " " +:+ pretty z.
Proof.
  unfold join_str. induction xs as [|x xs IH]; [done|]. intros _.
  destruct xs as [|x' xs].
  - simpl. done.
  - change ((x :: x' :: xs) ++ [z]) with (x :: ((x' :: xs) ++ [z])).
    rewrite fmap_cons, concat_cons_tail.
    rewrite IH by done. simpl. by rewrite !string_app_assoc.
Qed.

(** ** [make_goal] and [is_solved] *)

Lemma for_each_collect {A B : Type} (xs : list A) (fn : A → res B)
    (h : A → B) (acc : list B) :
  (∀ x, x ∈ xs → fn x = Ret (h x)) →
  for_each xs (λ acc x, y ← fn x; Ret (acc ++ [y])) acc = Ret (acc ++ (h <$> xs)).
Proof.
  revert acc. induction xs as [|x xs IH]; intros acc Hfn; simpl.
  - by rewrite app_nil_r.
  - rewrite (Hfn x) by left. simpl. rewrite IH.
    + by rewrite <-app_assoc.
    + intros ? Hin. apply Hfn. by right.
Qed.

Lemma goal_arr_lookup (s k : Z) :
  0 ≤ k < s * s →
  getitem (range_1 (s * s) ++ [0]) (Z.to_nat k) = Ret (goal_value s k).
Proof.
  intros Hk. apply getitem_Ret. unfold goal_value, range_1. case_decide.
  - rewrite lookup_app_l by (rewrite length_seqZ; lia).
    rewrite lookup_seqZ. lia.
  - rewrite lookup_app_r by (rewrite length_seqZ; lia).
    rewrite length_seqZ. replace (Z.to_nat k - Z.to_nat (s * s - 1))%nat with 0%nat by lia.
    done.
Qed.

Lemma make_goal_Ret (s : Z) :
  make_goal s =
  Ret ((λ i, (λ j, goal_value s (i * s + j)) <$> rangeZ s) <$> rangeZ s).
Proof.
  unfold make_goal.
  rewrite (for_each_collect _ _ (λ i, (λ j, goal_value s (i * s + j)) <$> rangeZ s)).
  { done. }
  intros i [Hi0 Hi]%elem_of_seqZ.
  rewrite (for_each_collect _ _ (λ j, goal_value s (i * s + j))); [done|].
  intros j [Hj0 Hj]%elem_of_seqZ. apply goal_arr_lookup. nia.
Qed.

(** Rows of length [s] laid one after another enumerate [0 .. n*s). *)
Lemma concat_rows {B : Type} (h : Z → B) (s : Z) (n : nat) :
  0 ≤ s →
  concat ((λ i, (λ j, h (i * s + j)) <$> seqZ 0 s) <$> seqZ 0 (Z.of_nat n))
  = h <$> seqZ 0 (Z.of_nat n * s).
Proof.
  intros Hs. induction n as [|n IH].
  - done.
  - rewrite seqZ_S, fmap_app, concat_app, IH. simpl. rewrite app_nil_r.
    replace (Z.of_nat (S n) * s) with (Z.of_nat n * s + s) by lia.
    rewrite seqZ_app, fmap_app by lia. f_equal.
    replace (0 + Z.of_nat n * s) with (Z.of_nat n * s + 0) by lia.
    rewrite <-(fmap_add_seqZ (Z.of_nat n * s) 0), <-list_fmap_compose.
    apply list_fmap_ext. intros _ j _. simpl. f_equal.
Qed.

Lemma concat_rows_Z {B : Type} (h : Z → B) (s n : Z) :
  0 ≤ s → 0 ≤ n →
  concat ((λ i, (λ j, h (i * s + j)) <$> seqZ 0 s) <$> seqZ 0 n)
  = h <$> seqZ 0 (n * s).
Proof.
  intros Hs Hn. rewrite <-(Z2Nat.id n) by done. by apply concat_rows.
Qed.

Lemma goal_values (s : Z) :
  1 ≤ s → goal_value s <$> seqZ 0 (s * s) = range_1 (s * s) ++ [0].
Proof.
  intros Hs. unfold range_1.
  replace (s * s) with ((s * s - 1) + 1) at 1 by lia.
  rewrite seqZ_app, fmap_app by nia. f_equal.
  - rewrite <-(fmap_add_seqZ 1 0). apply list_fmap_ext.
    intros _ k [??]%list_elem_of_lookup_2%elem_of_seqZ.
    unfold goal_value. case_decide; lia.
  - rewrite seqZ_cons, seqZ_nil by lia. simpl. unfold goal_value.
    case_decide; [lia|done].
Qed.

Lemma make_goal_concat (s : Z) goal :
  1 ≤ s → make_goal s = Ret goal →
  concat goal = range_1 (s * s) ++ [0] ∧ Z.of_nat (length goal) = s.
Proof.
  intros Hs. rewrite make_goal_Ret. intros [= <-]. split.
  - unfold rangeZ. rewrite (concat_rows_Z (goal_value s) s s) by lia.
    by apply goal_values.
  - unfold rangeZ. rewrite length_fmap, length_seqZ. lia.
Qed.

Lemma is_solved_spec (b : Board) :
  is_solved b = true ↔
  repr b = join_str (range_1 (Z.of_nat (width b) ^ 2)) +:+ " 0".
Proof. unfold is_solved. by rewrite bool_decide_eq_true. Qed.

Lemma range_1_nonempty (N : Z) : 2 ≤ N → range_1 N ≠ [].
Proof.
  intros HN. unfold range_1. rewrite seqZ_cons by lia. done.
Qed.

(** C5 (amended): for every width [s >= 2], the key of the board built from
    [make_goal s] is the rendering of the ascending sequence 1..s²-1 followed
    by 0, and [is_solved] holds of a board of width [s] exactly when its key
    equals that key. *)
Theorem goal_detection_from_width_2 (s : Z) : 2 ≤ s → goal_detection s.
Proof.
  intros Hs. unfold goal_detection.
  pose proof (make_goal_Ret s) as Hgoal. revert Hgoal.
  generalize ((λ i, (λ j, goal_value s (i * s + j)) <$> rangeZ s) <$> rangeZ s).
  intros goal Hgoal. exists goal. split; [done|].
  destruct (make_goal_concat s goal ltac:(lia) Hgoal) as [Hcat Hlen].
  split; [done|]. split.
  { unfold repr, iter. cbn [tiles Board_init]. by rewrite Hcat. }
  intros b Hb. rewrite is_solved_spec. unfold repr at 3, iter.
  cbn [tiles Board_init]. rewrite Hcat, Hb. replace (s ^ 2) with (s * s) by lia.
  rewrite join_str_snoc by (apply range_1_nonempty; nia). done.
Qed.

Lemma goal_detection_from_width_2_witness : 2 ≤ 3 ∧ goal_detection 3.
Proof. split; [lia|]. apply (goal_detection_from_width_2 3). lia. Defined.

(** C5 as stated (for every width) fails at width 1: [make_goal 1] is
    [[0]], whose key is "0", while [is_solved] compares with " 0". *)
Lemma goal_detection_fails_at_width_1 : ¬ goal_detection 1.
Proof.
  intros (goal & Hgoal & _ & _ & Hiff).
  rewrite make_goal_Ret in Hgoal. injection Hgoal as <-.
  specialize (Hiff (Board_init [[0]] None None) eq_refl).
  destruct Hiff as [_ Hiff]. by specialize (Hiff eq_refl).
Qed.

(** ** The heap of [queue.PriorityQueue] keeps its elements *)

Section list_update_perm.
Context {A : Type}.
Implicit Types l : list A.

Lemma insert_found_perm l j x y :
  l !! j = Some y → y :: <[j:=x]> l ≡ₚ x :: l.
Proof.
  revert j. induction l as [|a l IH]; intros [|j] Hj; simplify_eq/=.
  - apply perm_swap.
  - rewrite perm_swap, (IH j Hj). apply perm_swap.
Qed.

Lemma insert_exchange_perm l i x y :
  (i < length l)%nat → x :: <[i:=y]> l ≡ₚ y :: <[i:=x]> l.
Proof.
  revert i. induction l as [|a l IH]; intros [|i] Hi; simpl in *; try lia.
  - apply perm_swap.
  - rewrite perm_swap, (IH i) by lia. apply perm_swap.
Qed.

(** Moving the element at [j] into the hole at [i] and the hole's content
    to [j] keeps the elements. *)
Lemma insert_move_perm l i j x y :
  l !! j = Some y → i ≠ j → (i < length l)%nat →
  <[j:=x]> (<[i:=y]> l) ≡ₚ <[i:=x]> l.
Proof.
  revert i j. induction l as [|a l IH]; intros [|i] [|j] Hj Hne Hi;
    simplify_eq/=.
  - by apply insert_found_perm.
  - apply insert_exchange_perm. lia.
  - f_equiv. apply IH; [done|congruence|lia].
Qed.
End list_update_perm.

Local Arguments Nat.div : simpl never.
Local Arguments Nat.mul : simpl never.

Lemma parentpos_lt (pos : nat) : (0 < pos → (pos - 1) `div` 2 < pos)%nat.
Proof. intros Hpos. apply Nat.Div0.div_lt_upper_bound. lia. Qed.

Section heapq_facts.
Context {A : Type} (less : A → A → res bool).

Lemma siftdown_loop_perm n heap startpos pos newitem heap' :
  siftdown_loop less n heap startpos pos newitem = Ret heap' →
  heap' ≡ₚ <[pos:=newitem]> heap.
Proof.
  revert heap pos. induction n as [|n IH]; intros heap pos; simpl.
  - case_decide; [done|]. by intros [_ ->]%setitem_Ret.
  - case_decide; [|by intros [_ ->]%setitem_Ret].
    intros Hrun. inv_bind Hrun. destruct a0.
    + inv_bind Hrun. apply getitem_Ret in Ha.
      apply setitem_Ret in Ha1 as [Hlt ->]. apply IH in Hrun.
      rewrite Hrun. pose proof (parentpos_lt pos).
      apply insert_move_perm; [done|lia|done].
    + by apply setitem_Ret in Hrun as [_ ->].
Qed.

Lemma siftdown_perm heap startpos pos heap' :
  siftdown less heap startpos pos = Ret heap' → heap' ≡ₚ heap.
Proof.
  unfold siftdown. intros Hrun. inv_bind Hrun.
  apply siftdown_loop_perm in Hrun. apply getitem_Ret in Ha.
  by rewrite list_insert_id in Hrun.
Qed.

Lemma siftup_loop_perm n heap endpos pos newitem heap' pos' :
  (pos < length heap)%nat →
  siftup_loop less n heap endpos pos = Ret (heap', pos') →
  (pos' < length heap')%nat ∧
  <[pos':=newitem]> heap' ≡ₚ <[pos:=newitem]> heap.
Proof.
  revert heap pos. induction n as [|n IH]; intros heap pos Hpos; simpl.
  - case_decide; [done|]. by intros [= -> ->].
  - case_decide; [|by intros [= -> ->]].
    intros Hrun. inv_bind Hrun.
    apply getitem_Ret in Ha0. apply setitem_Ret in Ha1 as [_ ->].
    assert (pos ≠ if a then (2 * pos + 1 + 1)%nat else (2 * pos + 1)%nat)
      by (destruct a; lia).
    apply IH in Hrun as [Hlt Hperm].
    + split; [done|]. rewrite Hperm. by apply insert_move_perm.
    + rewrite length_insert. by eapply lookup_lt_Some.
Qed.

Lemma siftup_perm heap pos heap' :
  siftup less heap pos = Ret heap' → heap' ≡ₚ heap.
Proof.
  unfold siftup. intros Hrun. inv_bind Hrun. destruct a0 as [heap1 pos1].
  inv_bind Hrun. apply getitem_Ret in Ha.
  apply (siftup_loop_perm _ _ _ _ a) in Ha0 as [Hlt Hperm];
    [|by eapply lookup_lt_Some].
  apply setitem_Ret in Ha1 as [_ ->]. apply siftdown_perm in Hrun.
  rewrite Hrun, Hperm. by rewrite list_insert_id.
Qed.

Lemma heappush_perm heap item heap' :
  heappush less heap item = Ret heap' → heap' ≡ₚ item :: heap.
Proof.
  unfold heappush. intros ->%siftdown_perm.
  by rewrite Permutation_app_comm.
Qed.

Lemma heappop_perm heap item heap' :
  heappop less heap = Ret (item, heap') → heap ≡ₚ item :: heap'.
Proof.
  unfold heappop. destruct (reverse heap) as [|lastelt rest] eqn:Hrev; [done|].
  assert (heap = reverse rest ++ [lastelt]) as ->.
  { by rewrite <-(reverse_involutive heap), Hrev, reverse_cons. }
  destruct (reverse rest) as [|returnitem tl].
  - by intros [= -> <-].
  - intros Hrun. inv_bind Hrun. simplify_eq.
    apply setitem_Ret in Ha as [_ ->]. apply siftup_perm in Ha0.
    rewrite Ha0. simpl. f_equiv. symmetry. apply Permutation_cons_append.
Qed.

(** When the comparison cannot fail on the elements at hand, neither can
    the heap operations. *)
Context (P : A → Prop).
Hypothesis less_total : ∀ a b, P a → P b → ∃ r, less a b = Ret r.

Lemma siftdown_loop_total n heap startpos pos newitem :
  (pos ≤ n)%nat → (pos < length heap)%nat → P newitem → Forall P heap →
  ∃ heap', siftdown_loop less n heap startpos pos newitem = Ret heap'.
Proof.
  revert heap pos. induction n as [|n IH]; intros heap pos Hn Hpos Hnew Hheap;
    simpl.
  - case_decide; [lia|]. unfold setitem. rewrite decide_True by done. eauto.
  - case_decide; [|unfold setitem; rewrite decide_True by done; eauto].
    pose proof (parentpos_lt pos) as Hpp.
    destruct (lookup_lt_is_Some_2 heap ((pos - 1) `div` 2)%nat) as [parent Hp].
    { lia. }
    unfold getitem at 1. rewrite Hp. simpl.
    destruct (less_total newitem parent) as [c ->]; [done| |].
    { eapply (Forall_lookup_1 P heap); eauto. }
    simpl. unfold setitem. rewrite !decide_True by done. destruct c; [|eauto].
    simpl. apply IH; [| |done|].
    + lia.
    + rewrite length_insert. lia.
    + apply Forall_insert; [done|]. eapply (Forall_lookup_1 P heap); eauto.
Qed.

Lemma siftdown_total heap startpos pos :
  (pos < length heap)%nat → Forall P heap →
  ∃ heap', siftdown less heap startpos pos = Ret heap'.
Proof.
  intros Hpos Hheap. unfold siftdown.
  destruct (lookup_lt_is_Some_2 heap pos Hpos) as [newitem Hnew].
  unfold getitem. rewrite Hnew. simpl.
  apply siftdown_loop_total; [done..| |done].
  eapply (Forall_lookup_1 P heap); eauto.
Qed.

Lemma siftup_loop_total n heap endpos pos :
  (endpos - pos ≤ n)%nat → endpos = length heap → Forall P heap →
  ∃ heap' pos', siftup_loop less n heap endpos pos = Ret (heap', pos') ∧
                length heap' = length heap ∧ Forall P heap' ∧
                (pos < length heap → pos' < length heap')%nat.
Proof.
  revert heap pos. induction n as [|n IH]; intros heap pos Hn -> Hheap; simpl.
  - case_decide; [lia|]. eauto 10.
  - case_decide; [|eauto 10].
    set (childpos := (2 * pos + 1)%nat) in *.
    assert (∃ c, (if decide (childpos + 1 < length heap)%nat then
                    a ← getitem heap childpos;
                    b ← getitem heap (childpos + 1)%nat;
                    c ← less a b; Ret (negb c)
                  else Ret false) = Ret c ∧
                 (c = true → childpos + 1 < length heap)%nat) as (c & -> & Hc).
    { case_decide; [|exists false; split; [done|discriminate]].
      destruct (lookup_lt_is_Some_2 heap childpos) as [a Ha]; [lia|].
      destruct (lookup_lt_is_Some_2 heap (childpos + 1)) as [b Hb]; [lia|].
      unfold getitem. rewrite Ha, Hb. simpl.
      destruct (less_total a b) as [c ->];
        [eapply (Forall_lookup_1 P heap); eauto..|].
      simpl. eauto. }
    simpl.
    set (child := if c then (childpos + 1)%nat else childpos).
    assert (child < length heap ∧ pos < child)%nat as [Hchild Hgt].
    { subst child childpos. destruct c; [|lia]. specialize (Hc eq_refl). lia. }
    destruct (lookup_lt_is_Some_2 heap child Hchild) as [x Hx].
    unfold getitem. rewrite Hx. simpl.
    unfold setitem. rewrite decide_True by lia. simpl.
    destruct (IH (<[pos:=x]> heap) child) as (heap' & pos' & Hrun & Hlen & HP & Hlt).
    + lia.
    + by rewrite length_insert.
    + apply Forall_insert; [done|]. eapply (Forall_lookup_1 P heap); eauto.
    + rewrite length_insert in Hlen, Hlt. rewrite Hrun.
      exists heap', pos'. split; [done|]. split; [done|]. split; [done|].
      intros _. apply Hlt. done.
Qed.

Lemma siftup_total heap pos :
  (pos < length heap)%nat → Forall P heap →
  ∃ heap', siftup less heap pos = Ret heap'.
Proof.
  intros Hpos Hheap. unfold siftup.
  destruct (lookup_lt_is_Some_2 heap pos Hpos) as [newitem Hnew].
  unfold getitem at 1. rewrite Hnew. simpl.
  destruct (siftup_loop_total (length heap) heap (length heap) pos)
    as (heap1 & pos1 & -> & Hlen & HP & Hlt).
  - lia.
  - done.
  - done.
  - idtac.
  simpl. unfold setitem. rewrite decide_True by auto. simpl.
  apply siftdown_total.
  + rewrite length_insert. auto.
  + apply Forall_insert; [done|]. eapply (Forall_lookup_1 P heap); eauto.
Qed.

Lemma heappush_total heap item :
  P item → Forall P heap → ∃ heap', heappush less heap item = Ret heap'.
Proof.
  intros Hitem Hheap. unfold heappush. apply siftdown_total.
  - rewrite length_app. simpl. lia.
  - apply Forall_app. by split; [|apply Forall_singleton].
Qed.

Lemma heappop_total heap :
  heap ≠ [] → Forall P heap →
  ∃ item heap', heappop less heap = Ret (item, heap').
Proof.
  intros Hne Hheap. unfold heappop.
  destruct (reverse heap) as [|lastelt rest] eqn:Hrev.
  { apply (f_equal reverse) in Hrev. by rewrite reverse_involutive in Hrev. }
  assert (heap = reverse rest ++ [lastelt]) as ->.
  { by rewrite <-(reverse_involutive heap), Hrev, reverse_cons. }
  apply Forall_app in Hheap as [Hrest Hlast].
  apply Forall_cons in Hlast as [Hlast _].
  destruct (reverse rest) as [|returnitem tl]; [eauto|].
  simpl. destruct (siftup_total (lastelt :: tl) 0) as [heap' ->].
  - simpl. lia.
  - apply Forall_cons in Hrest as [_ Htl]. by apply Forall_cons.
  - simpl. eauto.
Qed.
End heapq_facts.

(** ** The bounds of the heap loops are never used up *)

Lemma bind_no_fuel {A B : Type} (m : res A) (k : A → res B) :
  m ≠ OutOfFuel → (∀ a, m = Ret a → k a ≠ OutOfFuel) → m ≫= k ≠ OutOfFuel.
Proof. destruct m; simpl; auto. Qed.

Lemma for_each_no_fuel {A S : Type} (xs : list A) (body : S → A → res S) s :
  (∀ s x, body s x ≠ OutOfFuel) → for_each xs body s ≠ OutOfFuel.
Proof.
  intros Hbody. revert s. induction xs as [|x xs IH]; intros s; simpl; [done|].
  apply bind_no_fuel; auto.
Qed.

Lemma getitem_no_fuel {A : Type} (l : list A) i : getitem l i ≠ OutOfFuel.
Proof. unfold getitem. by destruct (l !! i). Qed.

Lemma setitem_no_fuel {A : Type} (l : list A) i x : setitem l i x ≠ OutOfFuel.
Proof. unfold setitem. by case_decide. Qed.

Section heapq_fuel.
Context {A : Type} (less : A → A → res bool).
Hypothesis less_no_fuel : ∀ a b, less a b ≠ OutOfFuel.

Lemma siftdown_loop_no_fuel n heap startpos pos newitem :
  (pos ≤ n)%nat →
  siftdown_loop less n heap startpos pos newitem ≠ OutOfFuel.
Proof.
  revert heap pos. induction n as [|n IH]; intros heap pos Hn; simpl.
  - case_decide; [lia|]. apply setitem_no_fuel.
  - case_decide; [|apply setitem_no_fuel].
    pose proof (parentpos_lt pos) as Hpp.
    apply bind_no_fuel; [apply getitem_no_fuel|]. intros parent _.
    apply bind_no_fuel; [apply less_no_fuel|]. intros [] _.
    + apply bind_no_fuel; [apply setitem_no_fuel|]. intros heap' _.
      apply IH. lia.
    + apply setitem_no_fuel.
Qed.

Lemma siftdown_no_fuel heap startpos pos :
  siftdown less heap startpos pos ≠ OutOfFuel.
Proof.
  unfold siftdown. apply bind_no_fuel; [apply getitem_no_fuel|].
  intros newitem _. by apply siftdown_loop_no_fuel.
Qed.

Lemma siftup_loop_no_fuel n heap endpos pos :
  (endpos - pos ≤ n)%nat → siftup_loop less n heap endpos pos ≠ OutOfFuel.
Proof.
  revert heap pos. induction n as [|n IH]; intros heap pos Hn; simpl.
  - case_decide; [lia|done].
  - case_decide; [|done].
    apply bind_no_fuel.
    { case_decide; [|done].
      apply bind_no_fuel; [apply getitem_no_fuel|]. intros a _.
      apply bind_no_fuel; [apply getitem_no_fuel|]. intros b _.
      apply bind_no_fuel; [apply less_no_fuel|]. done. }
    intros c _.
    apply bind_no_fuel; [apply getitem_no_fuel|]. intros x _.
    apply bind_no_fuel; [apply setitem_no_fuel|]. intros heap' _.
    apply IH. destruct c; lia.
Qed.

Lemma siftup_no_fuel heap pos : siftup less heap pos ≠ OutOfFuel.
Proof.
  unfold siftup. apply bind_no_fuel; [apply getitem_no_fuel|].
  intros newitem _.
  apply bind_no_fuel; [apply siftup_loop_no_fuel; lia|]. intros [heap' pos'] _.
  apply bind_no_fuel; [apply setitem_no_fuel|]. intros heap'' _.
  apply siftdown_no_fuel.
Qed.

Lemma heappush_no_fuel heap item : heappush less heap item ≠ OutOfFuel.
Proof. apply siftdown_no_fuel. Qed.

Lemma heappop_no_fuel heap : heappop less heap ≠ OutOfFuel.
Proof.
  unfold heappop. destruct (reverse heap) as [|lastelt rest]; [done|].
  destruct (reverse rest) as [|returnitem tl]; [done|].
  apply bind_no_fuel; [apply setitem_no_fuel|]. intros heap' _.
  apply bind_no_fuel; [apply siftup_no_fuel|]. done.
Qed.
End heapq_fuel.

(** ** Grids and swap assignments *)

Lemma getitem2_cell (t : grid) i j v :
  getitem2 t i j = Ret v ↔ cell t i j = Some v.
Proof.
  rewrite getitem2_Ret. unfold cell. destruct (t !! i) as [row|]; simpl.
  - split; [by intros (? & [= <-] & ?)|eauto].
  - split; [by intros (? & ? & ?)|done].
Qed.

Lemma getitem2_of_cell (t : grid) i j v :
  cell t i j = Some v → getitem2 t i j = Ret v.
Proof. apply getitem2_cell. Qed.

Lemma setitem2_Ret (t : grid) i j v t' :
  setitem2 t i j v = Ret t' ↔
  ∃ row, t !! i = Some row ∧ (j < length row)%nat ∧ t' = <[i:=<[j:=v]> row]> t.
Proof.
  unfold setitem2. split.
  - intros Hrun. inv_bind Hrun. apply getitem_Ret in Ha.
    apply setitem_Ret in Ha0 as [? ->]. simplify_eq. eauto.
  - intros (row & Hrow & Hj & ->). unfold getitem. rewrite Hrow. simpl.
    unfold setitem. by rewrite decide_True.
Qed.

Lemma shape_insert_row (t : grid) i row row' :
  t !! i = Some row → length row' = length row →
  shape (<[i:=row']> t) = shape t.
Proof.
  intros Hrow Hlen. unfold shape. rewrite list_fmap_insert, Hlen.
  apply list_insert_id. by rewrite list_lookup_fmap, Hrow.
Qed.

Lemma setitem2_shape (t : grid) i j v t' :
  setitem2 t i j v = Ret t' → shape t' = shape t.
Proof.
  intros (row & Hrow & Hj & ->)%setitem2_Ret.
  eapply shape_insert_row; [done|]. by rewrite length_insert.
Qed.

Lemma setitem2_cell (t : grid) i j v t' i' j' :
  setitem2 t i j v = Ret t' →
  cell t' i' j' = if decide (i' = i ∧ j' = j) then Some v else cell t i' j'.
Proof.
  intros (row & Hrow & Hj & ->)%setitem2_Ret. unfold cell.
  destruct (decide (i' = i)) as [->|Hi].
  - rewrite list_lookup_insert_eq by by eapply lookup_lt_Some.
    rewrite Hrow. simpl. destruct (decide (j' = j)) as [->|Hne].
    + rewrite decide_True by done. by rewrite list_lookup_insert_eq.
    + rewrite decide_False by (intros [_ ?]; done). by rewrite list_lookup_insert_ne.
  - rewrite list_lookup_insert_ne by done. rewrite decide_False by (intros [? _]; done).
    done.
Qed.

(** Writing [v] over [old] in a grid trades [old] for [v] in the flattened
    sequence. *)
Lemma setitem2_perm (t : grid) i j v t' old :
  cell t i j = Some old → setitem2 t i j v = Ret t' →
  old :: concat t' ≡ₚ v :: concat t.
Proof.
  intros Hold (row & Hrow & Hj & ->)%setitem2_Ret.
  unfold cell in Hold. rewrite Hrow in Hold. simpl in Hold.
  revert i Hrow. induction t as [|r t IH]; intros [|i] Hrow; simplify_eq/=.
  - rewrite !app_comm_cons. f_equiv. by apply insert_found_perm.
  - rewrite (Permutation_middle _ _ old), (IH i Hrow).
    by rewrite <-Permutation_middle.
Qed.

Lemma swap_assign_Ret (t : grid) i1 j1 i2 j2 t' :
  swap_assign t i1 j1 i2 j2 = Ret t' ↔
  ∃ a b t1, cell t i2 j2 = Some a ∧ cell t i1 j1 = Some b ∧
            setitem2 t i1 j1 a = Ret t1 ∧ setitem2 t1 i2 j2 b = Ret t'.
Proof.
  unfold swap_assign. split.
  - intros Hrun. inv_bind Hrun.
    apply getitem2_cell in Ha, Ha0. eauto 10.
  - intros (a & b & t1 & Ha%getitem2_of_cell & Hb%getitem2_of_cell & H1 & H2).
    rewrite Ha. simpl. rewrite Hb. simpl. by rewrite H1.
Qed.

Lemma swap_assign_shape (t : grid) i1 j1 i2 j2 t' :
  swap_assign t i1 j1 i2 j2 = Ret t' → shape t' = shape t.
Proof.
  intros (a & b & t1 & _ & _ & H1 & H2)%swap_assign_Ret.
  by rewrite (setitem2_shape _ _ _ _ _ H2), (setitem2_shape _ _ _ _ _ H1).
Qed.

Lemma swap_assign_length (t : grid) i1 j1 i2 j2 t' :
  swap_assign t i1 j1 i2 j2 = Ret t' → length t' = length t.
Proof.
  intros Hshape%swap_assign_shape. apply (f_equal length) in Hshape.
  unfold shape in Hshape. by rewrite !length_fmap in Hshape.
Qed.

Lemma swap_assign_perm (t : grid) i1 j1 i2 j2 t' :
  swap_assign t i1 j1 i2 j2 = Ret t' → concat t' ≡ₚ concat t.
Proof.
  intros (a & b & t1 & Ha & Hb & H1 & H2)%swap_assign_Ret.
  assert (cell t1 i2 j2 = Some a) as Ha1.
  { rewrite (setitem2_cell _ _ _ _ _ i2 j2 H1). by case_decide. }
  pose proof (setitem2_perm _ _ _ _ _ _ Hb H1) as Hp1.
  pose proof (setitem2_perm _ _ _ _ _ _ Ha1 H2) as Hp2.
  apply (Permutation_cons_inv (a:=a)). rewrite Hp2, Hp1. done.
Qed.

(** After the swap assignment the two cells have traded their contents and
    every other cell is as before. *)
Lemma swap_assign_cell (t : grid) i1 j1 i2 j2 t' i j :
  swap_assign t i1 j1 i2 j2 = Ret t' →
  cell t' i j =
    if decide (i = i2 ∧ j = j2) then cell t i1 j1
    else if decide (i = i1 ∧ j = j1) then cell t i2 j2
    else cell t i j.
Proof.
  intros (a & b & t1 & Ha & Hb & H1 & H2)%swap_assign_Ret.
  rewrite (setitem2_cell _ _ _ _ _ i j H2), (setitem2_cell _ _ _ _ _ i j H1).
  repeat case_decide; congruence.
Qed.

Lemma swap_assign_total (t : grid) i1 j1 i2 j2 :
  is_Some (cell t i1 j1) → is_Some (cell t i2 j2) →
  ∃ t', swap_assign t i1 j1 i2 j2 = Ret t'.
Proof.
  intros [b Hb] [a Ha].
  assert (∃ t1, setitem2 t i1 j1 a = Ret t1) as [t1 H1].
  { unfold cell in Hb. destruct (t !! i1) as [row|] eqn:Hrow; [|done].
    eexists. apply setitem2_Ret. exists row. split; [done|]. split; [|done].
    by eapply lookup_lt_Some. }
  assert (cell t1 i2 j2 = Some a) as Ha1.
  { rewrite (setitem2_cell _ _ _ _ _ i2 j2 H1). by case_decide. }
  assert (∃ t2, setitem2 t1 i2 j2 b = Ret t2) as [t2 H2].
  { unfold cell in Ha1. destruct (t1 !! i2) as [row|] eqn:Hrow; [|done].
    eexists. apply setitem2_Ret. exists row. split; [done|]. split; [|done].
    by eapply lookup_lt_Some. }
  exists t2. apply swap_assign_Ret. eauto 10.
Qed.

(** ** Successor generation *)

Lemma bind_ret_r {A : Type} (m : res A) : m ≫= Ret = m.
Proof. by destruct m. Qed.

(** The two nested [for] loops visit [cells]. *)
Lemma for_each_nested {S : Type} (xs ys : list nat)
    (body : nat → S → nat → res S) (s : S) :
  for_each xs (λ s i, for_each ys (body i) s) s =
  for_each (i ← xs; j ← ys; [(i, j)]) (λ s c, body c.1 s c.2) s.
Proof.
  revert s. induction xs as [|x xs IH]; intros s; [done|].
  change ((x :: xs) ≫= λ i, ys ≫= λ j, [(i, j)])
    with ((ys ≫= λ j, [(x, j)]) ++ (xs ≫= λ i, ys ≫= λ j, [(i, j)])).
  rewrite for_each_app. simpl.
  assert (for_each ys (body x) s =
          for_each (ys ≫= λ j, [(x, j)]) (λ s c, body c.1 s c.2) s) as ->.
  { clear. revert s. induction ys as [|y ys IHy]; intros s; [done|].
    simpl. destruct (body x s y); simpl; auto. }
  destruct (for_each _ _ s); simpl; auto.
Qed.

Lemma elem_of_cells w i j : (i, j) ∈ cells w ↔ (i < w ∧ j < w)%nat.
Proof.
  unfold cells. rewrite list_elem_of_bind. split.
  - intros (i' & (j' & Hin & Hj)%list_elem_of_bind & Hi).
    apply list_elem_of_singleton in Hin. simplify_eq.
    by apply elem_of_range in Hi, Hj.
  - intros [Hi Hj]. exists i. split; [|by apply elem_of_range].
    apply list_elem_of_bind. exists j. split; [by left|by apply elem_of_range].
Qed.

Lemma neighbors_scan (self : Board) rp :
  neighbors self rp =
  for_each (cells (width self))
    (λ nbs c, neighbors_cell self rp c.1 nbs c.2) [].
Proof. unfold neighbors. by rewrite for_each_nested. Qed.

(** At a blank, the four blocks run through [moves_at]; elsewhere the list
    is left as it is. *)
Lemma neighbors_cell_moves (self : Board) rp i nbs j :
  neighbors_cell self rp i nbs j =
  v ← getitem2 (tiles self) i j;
  if decide (v = 0) then
    for_each (moves_at (width self) i j)
      (λ nbs m, append_swapped self rp m.1.1 m.1.2 i j m.2 nbs) nbs
  else Ret nbs.
Proof.
  unfold neighbors_cell, moves_at.
  destruct (getitem2 (tiles self) i j) as [v| |]; simpl; [|done..].
  destruct (decide (v = 0)); [|done].
  destruct (decide (Z.of_nat i - 1 >= 0)), (decide (1 ≤ i)%nat); try lia;
    destruct (decide (i + 1 < width self)%nat);
    destruct (decide (Z.of_nat j - 1 >= 0)), (decide (1 ≤ j)%nat); try lia;
    destruct (decide (j + 1 < width self)%nat); simpl;
    repeat (first [ done | rewrite bind_ret_r
                  | match goal with
                    | |- ?m ≫= _ = ?m ≫= _ => destruct m; simpl
                    end ]).
Qed.

Lemma append_swapped_Ret (self : Board) rp i1 j1 i2 j2 act nbs nbs' :
  append_swapped self rp i1 j1 i2 j2 act nbs = Ret nbs' ↔
  ∃ tmp, swap_assign (tiles self) i1 j1 i2 j2 = Ret tmp ∧
         nbs' = nbs ++ [new_neighbor self rp tmp act].
Proof.
  unfold append_swapped. rewrite bind_Ret. split.
  - intros (tmp & ? & [= <-]). eauto.
  - intros (tmp & ? & ->). eauto.
Qed.

Lemma neighbors_cell_children (self : Board) rp i nbs j nbs' :
  Forall (is_child self rp) nbs →
  neighbors_cell self rp i nbs j = Ret nbs' →
  Forall (is_child self rp) nbs'.
Proof.
  intros Hnbs. rewrite neighbors_cell_moves. intros Hrun. inv_bind Hrun.
  case_decide; [|by simplify_eq].
  revert Hrun. apply for_each_inv; [|done].
  intros s [[i' j'] act] s' _ Hs (tmp & Htmp & ->)%append_swapped_Ret.
  apply Forall_app. split; [done|]. apply Forall_singleton.
  unfold is_child. eauto 10.
Qed.

Lemma neighbors_children (self : Board) rp nbs :
  neighbors self rp = Ret nbs → Forall (is_child self rp) nbs.
Proof.
  rewrite neighbors_scan. apply for_each_inv; [|done].
  intros s [i j] s' _ Hs. by apply neighbors_cell_children.
Qed.

Lemma is_child_true (b nb : Board) :
  is_child b true nb →
  parent nb = Some b ∧ g nb = g b + 1 ∧ width nb = length (tiles nb) ∧
  length (tiles nb) = length (tiles b) ∧
  shape (tiles nb) = shape (tiles b) ∧ concat (tiles nb) ≡ₚ concat (tiles b).
Proof.
  intros (i1 & j1 & i2 & j2 & tmp & act & Hswap & ->). simpl.
  split; [done|]. split; [done|]. split; [done|].
  split; [by eapply swap_assign_length|].
  split; [by eapply swap_assign_shape|by eapply swap_assign_perm].
Qed.

Lemma step_child (b b' : Board) : step b b' → is_child b true b'.
Proof.
  intros (nbs & Hnbs%neighbors_children & Hin).
  by eapply Forall_forall in Hnbs.
Qed.

(** ** Boards reached by the search, and their paths *)

Lemma reachable_tiles (root b : Board) :
  reachable root b → width root = length (tiles root) →
  width b = length (tiles b) ∧ width b = width root ∧
  shape (tiles b) = shape (tiles root) ∧
  concat (tiles b) ≡ₚ concat (tiles root).
Proof.
  unfold reachable. intros Hreach Hroot. revert b Hreach.
  apply rtc_ind_r; [done|]. intros b b' _ Hreach IH.
  - destruct IH as (Hw & Hwr & Hshape & Hperm).
    apply step_child, is_child_true in Hreach
      as (_ & _ & Hw' & Hlen & Hshape' & Hperm').
    split; [done|]. split; [congruence|]. split; [congruence|].
    by rewrite Hperm'.
Qed.

Lemma path_child (b b' : Board) :
  parent b' = Some b → path b' = path b ++ [b'].
Proof.
  intros Hp. unfold path. destruct b'; simpl in *. by subst.
Qed.

Lemma path_root (root : Board) : parent root = None → path root = [root].
Proof. intros Hp. unfold path. destruct root; simpl in *. by subst. Qed.

Lemma depth_chain_snoc (p : list Board) (b b' : Board) :
  depth_chain p → last p = Some b → parent b' = Some b → g b' = g b + 1 →
  depth_chain (p ++ [b']).
Proof.
  intros Hchain Hlast Hp Hg i x y Hx Hy.
  rewrite last_lookup in Hlast.
  destruct (decide (S i < length p)%nat) as [Hlt|Hge].
  - rewrite lookup_app_l in Hx by lia. rewrite lookup_app_l in Hy by lia.
    by eapply Hchain.
  - assert (S i = length p) as Hi.
    { apply lookup_lt_Some in Hy. rewrite length_app in Hy. simpl in Hy. lia. }
    rewrite lookup_app_l in Hx by lia.
    rewrite lookup_app_r, Hi, Nat.sub_diag in Hy by lia. simpl in Hy.
    replace (pred (length p)) with i in Hlast by lia. by simplify_eq.
Qed.

(** The path of a board that the search reaches from a root without a
    parent: it starts at the root, ends at the board, is as long as the
    depth says and is linked by [parent]. *)
Lemma reachable_path (root b : Board) :
  parent root = None → reachable root b →
  head (path b) = Some root ∧ last (path b) = Some b ∧
  Z.of_nat (length (path b)) = g b - g root + 1 ∧ depth_chain (path b).
Proof.
  intros Hroot. unfold reachable. revert b. apply rtc_ind_r.
  - rewrite path_root by done.
    split; [done|]. split; [done|]. split; [simpl; lia|].
    intros i x y _ Hy. by destruct i.
  - intros b b' _ Hstep (Hhead & Hlast & Hlen & Hchain).
    apply step_child, is_child_true in Hstep as (Hp & Hg & _).
    rewrite (path_child b b') by done.
    split; [|split; [|split]].
    + destruct (path b); simplify_eq/=; done.
    + apply last_snoc.
    + rewrite length_app. simpl. lia.
    + by eapply depth_chain_snoc.
Qed.

(** ** What the search loop returns *)

Lemma visit_Ret q seen nb q' seen' :
  visit (q, seen) nb = Ret (q', seen') →
  (repr nb ∈ seen ∧ q' = q ∧ seen' = seen) ∨
  ((repr nb ∉ seen) ∧ q' ≡ₚ nb :: q ∧ seen' = seen ∪ {[repr nb]}).
Proof.
  unfold visit. case_decide as Hin.
  - intros Hrun. inv_bind Hrun. simplify_eq. right.
    split; [done|]. split; [|done]. by eapply heappush_perm.
  - intros [= <- <-]. left. split; [|done].
    by destruct (decide (repr nb ∈ seen)).
Qed.

Lemma loop_body_Ret q seen r :
  loop_body q seen = Ret r →
  ∃ node q1, q_get q = Ret (node, q1) ∧ q ≡ₚ node :: q1 ∧
    ((is_solved node = true ∧ r = Return (path node)) ∨
     (is_solved node = false ∧
      ∃ nbs q' seen', neighbors node true = Ret nbs ∧
        for_each nbs visit (q1, seen) = Ret (q', seen') ∧
        r = Continue q' seen')).
Proof.
  unfold loop_body. intros Hrun. inv_bind Hrun. destruct a as [node q1].
  exists node, q1. split; [done|]. split; [by eapply heappop_perm|].
  destruct (is_solved node).
  - left. by simplify_eq.
  - right. split; [done|]. inv_bind Hrun. destruct a0 as [q' seen'].
    simplify_eq. eauto 10.
Qed.

Lemma visit_all_reachable (root node : Board) nbs q1 seen q' seen' :
  reachable root node → neighbors node true = Ret nbs →
  Forall (reachable root) q1 →
  for_each nbs visit (q1, seen) = Ret (q', seen') →
  Forall (reachable root) q'.
Proof.
  intros Hnode Hnbs Hq1 Hrun.
  revert Hrun. apply (for_each_inv (λ st, Forall (reachable root) st.1)); [|done].
  intros [q s] nb [q2 s2] Hin Hq Hvisit. simpl in *.
  apply visit_Ret in Hvisit as [(_ & -> & _)|(_ & Hperm & _)]; [done|].
  rewrite Hperm. apply Forall_cons. split; [|done].
  eapply rtc_r; [done|]. by exists nbs.
Qed.

Lemma solve_loop_sound (root : Board) n q seen p :
  Forall (reachable root) q →
  solve_loop n q seen = Ret (Some p) →
  ∃ goal, reachable root goal ∧ is_solved goal = true ∧ p = path goal.
Proof.
  revert q seen. induction n as [|n IH]; intros q seen Hq; simpl.
  - by destruct (q_empty q).
  - destruct (q_empty q); [done|]. intros Hrun. inv_bind Hrun.
    apply loop_body_Ret in Ha
      as (node & q1 & _ & Hperm & [[Hsolved ->]|(_ & nbs & q' & seen' & Hnbs & Hvisit & ->)]).
    + simplify_eq. exists node. split; [|done].
      rewrite Hperm in Hq. by apply Forall_cons in Hq as [? _].
    + rewrite Hperm in Hq. apply Forall_cons in Hq as [Hnode Hq1].
      eapply IH; [|done]. by eapply visit_all_reachable.
Qed.

Lemma solve_sound (root : Board) n p :
  solve n root = Ret (Some p) →
  ∃ goal, reachable root goal ∧ is_solved goal = true ∧ p = path goal.
Proof.
  unfold solve. intros Hrun. inv_bind Hrun.
  apply heappush_perm in Ha. eapply solve_loop_sound; [|done].
  rewrite Ha. apply Forall_singleton. apply rtc_refl.
Qed.

(** C6: the path that [solve] returns is [path] of a solved board that the
    search reached; it follows the [parent] links back to the board without
    a parent and lists them root first, its length is the depth of the goal
    board plus one, and from each element to the next the depth grows by
    exactly one. *)
Theorem solve_path_reconstruction (t : grid) (n : nat) (p : list Board) :
  solve n (Board_init t None None) = Ret (Some p) →
  ∃ goal,
    reachable (Board_init t None None) goal ∧ is_solved goal = true ∧
    p = path goal ∧
    (∃ first, head p = Some first ∧ parent first = None) ∧
    last p = Some goal ∧
    Z.of_nat (length p) = g goal + 1 ∧
    depth_chain p.
Proof.
  intros (goal & Hreach & Hsolved & ->)%solve_sound. exists goal.
  destruct (reachable_path (Board_init t None None) goal eq_refl Hreach)
    as (Hhead & Hlast & Hlen & Hchain).
  split; [done|]. split; [done|]. split; [done|].
  split; [by exists (Board_init t None None)|].
  split; [done|]. split; [|done]. simpl in Hlen. lia.
Qed.

Lemma solve_path_reconstruction_witness :
  ∃ p goal,
    solve 10 (Board_init [[1;2;3];[4;0;6];[7;5;8]] None None) = Ret (Some p) ∧
    last p = Some goal ∧ Z.of_nat (length p) = g goal + 1 ∧ depth_chain p.
Proof.
  eexists _, _.
  assert (solve 10 (Board_init [[1;2;3];[4;0;6];[7;5;8]] None None) = Ret (Some _))
    as Hrun by (vm_compute; reflexivity).
  split; [exact Hrun|].
  destruct (solve_path_reconstruction _ _ _ Hrun)
    as (goal & _ & _ & _ & _ & Hlast & Hlen & Hchain).
  vm_compute in Hlast. injection Hlast as <-.
  split; [reflexivity|]. split; [exact Hlen|exact Hchain].
Defined.

(** ** Only the [while] loop of [solve] can use up its bound *)

Lemma getitem2_no_fuel (t : grid) i j : getitem2 t i j ≠ OutOfFuel.
Proof.
  unfold getitem2. apply bind_no_fuel; [apply getitem_no_fuel|].
  intros row _. apply getitem_no_fuel.
Qed.

Lemma setitem2_no_fuel (t : grid) i j v : setitem2 t i j v ≠ OutOfFuel.
Proof.
  unfold setitem2. apply bind_no_fuel; [apply getitem_no_fuel|].
  intros row _. apply bind_no_fuel; [apply setitem_no_fuel|]. done.
Qed.

Lemma swap_assign_no_fuel (t : grid) i1 j1 i2 j2 :
  swap_assign t i1 j1 i2 j2 ≠ OutOfFuel.
Proof.
  unfold swap_assign. apply bind_no_fuel; [apply getitem2_no_fuel|].
  intros a _. apply bind_no_fuel; [apply getitem2_no_fuel|].
  intros b _. apply bind_no_fuel; [apply setitem2_no_fuel|].
  intros t1 _. apply setitem2_no_fuel.
Qed.

Lemma neighbors_no_fuel (self : Board) rp : neighbors self rp ≠ OutOfFuel.
Proof.
  rewrite neighbors_scan. apply for_each_no_fuel. intros nbs [i j]. simpl.
  rewrite neighbors_cell_moves.
  apply bind_no_fuel; [apply getitem2_no_fuel|]. intros v _.
  case_decide; [|done]. apply for_each_no_fuel. intros s m.
  unfold append_swapped. apply bind_no_fuel; [apply swap_assign_no_fuel|].
  done.
Qed.

Lemma manhattan_no_fuel (self : Board) : manhattan self ≠ OutOfFuel.
Proof.
  unfold manhattan. apply for_each_no_fuel. intros d i.
  apply for_each_no_fuel. intros d' j. unfold manhattan_cell.
  apply bind_no_fuel; [apply getitem2_no_fuel|]. intros v _.
  case_decide; [|done]. unfold divmod. by case_decide.
Qed.

Lemma Board_lt_no_fuel (a b : Board) : Board_lt a b ≠ OutOfFuel.
Proof.
  unfold Board_lt, f.
  apply bind_no_fuel.
  { apply bind_no_fuel; [apply manhattan_no_fuel|done]. }
  intros x _. apply bind_no_fuel; [|done].
  apply bind_no_fuel; [apply manhattan_no_fuel|done].
Qed.

Lemma visit_no_fuel st nb : visit st nb ≠ OutOfFuel.
Proof.
  destruct st as [q seen]. unfold visit. case_decide; [|done].
  apply bind_no_fuel; [|done]. apply heappush_no_fuel, Board_lt_no_fuel.
Qed.

(** One pass through the body of the [while] loop always ends, with a
    result or an exception. *)
Lemma loop_body_no_fuel q seen : loop_body q seen ≠ OutOfFuel.
Proof.
  unfold loop_body.
  apply bind_no_fuel; [apply heappop_no_fuel, Board_lt_no_fuel|].
  intros [node q1] _. destruct (is_solved node); [done|].
  apply bind_no_fuel; [apply neighbors_no_fuel|]. intros nbs _.
  apply bind_no_fuel; [|by intros []].
  apply for_each_no_fuel. intros st nb. apply visit_no_fuel.
Qed.

(** ** Comparing boards *)

Lemma f_Ret (b : Board) v :
  f b = Ret v ↔ ∃ h, manhattan b = Ret h ∧ v = g b + h.
Proof.
  unfold f. rewrite bind_Ret. split.
  - intros (h & ? & [= <-]). eauto.
  - intros (h & ? & ->). eauto.
Qed.

Lemma Board_eq_Ret (a b : Board) r :
  Board_eq a b = Ret r ↔
  ∃ x y, f a = Ret x ∧ f b = Ret y ∧ r = bool_decide (x = y).
Proof.
  unfold Board_eq. rewrite bind_Ret. split.
  - intros (x & Hx & Hrun). inv_bind Hrun. simplify_eq. eauto.
  - intros (x & y & Hx & Hy & ->). exists x. split; [done|]. by rewrite Hy.
Qed.

Lemma Board_lt_Ret (a b : Board) r :
  Board_lt a b = Ret r ↔
  ∃ x y, f a = Ret x ∧ f b = Ret y ∧ r = bool_decide (x < y).
Proof.
  unfold Board_lt. rewrite bind_Ret. split.
  - intros (x & Hx & Hrun). inv_bind Hrun. simplify_eq. eauto.
  - intros (x & y & Hx & Hy & ->). exists x. split; [done|]. by rewrite Hy.
Qed.

(** C10: [__eq__] answers [True] exactly when both boards have the same
    value of [f] (and [False] when the values differ), [__lt__] answers
    [True] exactly when the first board's [f] is strictly smaller (and
    [False] otherwise), where [f] is [g] plus the Manhattan distance; and
    there are two boards with different tiles that [__eq__] calls equal. *)
Theorem Board_eq_lt_by_f :
  (∀ a b, Board_eq a b = Ret true ↔ ∃ x, f a = Ret x ∧ f b = Ret x) ∧
  (∀ a b, Board_eq a b = Ret false ↔
          ∃ x y, f a = Ret x ∧ f b = Ret y ∧ x ≠ y) ∧
  (∀ a b, Board_lt a b = Ret true ↔
          ∃ x y, f a = Ret x ∧ f b = Ret y ∧ x < y) ∧
  (∀ a b, Board_lt a b = Ret false ↔
          ∃ x y, f a = Ret x ∧ f b = Ret y ∧ ¬ x < y) ∧
  (∀ a x, f a = Ret x ↔ ∃ h, manhattan a = Ret h ∧ x = g a + h) ∧
  (∃ a b, tiles a ≠ tiles b ∧ Board_eq a b = Ret true).
Proof.
  split; [|split; [|split; [|split; [|split]]]].
  - intros a b. rewrite Board_eq_Ret. split.
    + intros (x & y & Hx & Hy & Heq). symmetry in Heq.
      apply bool_decide_eq_true in Heq as ->. eauto.
    + intros (x & Hx & Hy). exists x, x. by rewrite bool_decide_eq_true_2.
  - intros a b. rewrite Board_eq_Ret. split.
    + intros (x & y & Hx & Hy & Heq). symmetry in Heq.
      apply bool_decide_eq_false in Heq. eauto.
    + intros (x & y & Hx & Hy & Hne). exists x, y.
      by rewrite bool_decide_eq_false_2.
  - intros a b. rewrite Board_lt_Ret. split.
    + intros (x & y & Hx & Hy & Heq). symmetry in Heq.
      apply bool_decide_eq_true in Heq. eauto.
    + intros (x & y & Hx & Hy & Hlt). exists x, y.
      by rewrite bool_decide_eq_true_2.
  - intros a b. rewrite Board_lt_Ret. split.
    + intros (x & y & Hx & Hy & Heq). symmetry in Heq.
      apply bool_decide_eq_false in Heq. eauto.
    + intros (x & y & Hx & Hy & Hlt). exists x, y.
      by rewrite bool_decide_eq_false_2.
  - apply f_Ret.
  - exists (Board_init [[1;2];[0;3]] None None),
           (Board_init [[1;0];[3;2]] None None).
    split; [done|]. reflexivity.
Qed.

(** ** The result of [solve] does not depend on the step bound *)

Lemma solve_loop_mono n m q seen r :
  (n ≤ m)%nat → r ≠ OutOfFuel →
  solve_loop n q seen = r → solve_loop m q seen = r.
Proof.
  revert m q seen. induction n as [|n IH]; intros m q seen Hle Hr; simpl.
  - destruct (q_empty q) eqn:Hq; [|congruence]. intros <-.
    destruct m; simpl; by rewrite Hq.
  - destruct m as [|m]; [lia|]. simpl. destruct (q_empty q); [done|].
    destruct (loop_body q seen) as [[p|q' seen']| |]; simpl; try done.
    apply IH; [lia|done].
Qed.



(** ** Successor generation keeps the tiles a permutation *)

Lemma successor_child (b b' : Board) :
  successor b b' → ∃ rp, is_child b rp b'.
Proof.
  intros (rp & nbs & Hnbs%neighbors_children & Hin). exists rp.
  by eapply Forall_forall in Hnbs.
Qed.

Lemma is_child_tiles (b nb : Board) rp :
  is_child b rp nb →
  width nb = length (tiles nb) ∧ length (tiles nb) = length (tiles b) ∧
  shape (tiles nb) = shape (tiles b) ∧ concat (tiles nb) ≡ₚ concat (tiles b).
Proof.
  intros (i1 & j1 & i2 & j2 & tmp & act & Hswap & ->).
  assert (tiles (new_neighbor b rp tmp act) = tmp) as -> by by destruct rp.
  assert (width (new_neighbor b rp tmp act) = length tmp) as -> by by destruct rp.
  split; [done|]. split; [by eapply swap_assign_length|].
  split; [by eapply swap_assign_shape|by eapply swap_assign_perm].
Qed.

Lemma successors_permutation (root b : Board) :
  width root = length (tiles root) → permutation_tiles root →
  rtc successor root b →
  width b = length (tiles b) ∧ width b = width root ∧ permutation_tiles b.
Proof.
  intros Hw Hperm. revert b. apply rtc_ind_r; [done|].
  intros b b' _ [rp Hchild]%successor_child (Hwb & Hwr & Hpb).
  apply is_child_tiles in Hchild as (Hw' & Hlen & _ & Hp').
  split; [done|]. split; [congruence|].
  unfold permutation_tiles in *. rewrite Hp', Hpb. by rewrite Hw', Hlen, <-Hwb.
Qed.

Lemma filter_blank_seqZ (N : Z) :
  1 ≤ N → filter (λ v, v = 0) (seqZ 0 N) = [0].
Proof.
  intros HN. rewrite seqZ_cons by lia. rewrite filter_cons_True by done.
  f_equal. apply elem_of_nil_inv. intros v [Hv Hin]%list_elem_of_filter.
  apply elem_of_seqZ in Hin. lia.
Qed.

Lemma permutation_tiles_one_blank (b : Board) :
  (1 ≤ width b)%nat → permutation_tiles b → blank_count b = 1%nat.
Proof.
  unfold permutation_tiles, blank_count. intros Hw ->.
  by rewrite filter_blank_seqZ by nia.
Qed.

(** C8 (amended): from a root board of width at least 1 whose flattened
    tiles are a permutation of 0..width²-1, every board reached through
    successor generation has flattened tiles that are a permutation of
    0..width²-1, with exactly one blank. *)
Theorem successors_keep_permutation (t : grid) (p : option Board)
    (a : option string) :
  (1 ≤ length t)%nat →
  permutation_tiles (Board_init t p a) →
  tiles_invariant (Board_init t p a).
Proof.
  intros Hw Hperm b Hreach.
  destruct (successors_permutation (Board_init t p a) b eq_refl Hperm Hreach)
    as (_ & Hwb & Hpb).
  split; [done|]. apply permutation_tiles_one_blank; [|done].
  rewrite Hwb. done.
Qed.

Lemma successors_keep_permutation_witness :
  (1 ≤ length [[1;2];[0;3]])%nat ∧
  permutation_tiles (Board_init [[1;2];[0;3]] None None) ∧
  tiles_invariant (Board_init [[1;2];[0;3]] None None).
Proof.
  assert (permutation_tiles (Board_init [[1;2];[0;3]] None None)) as Hperm.
  { unfold permutation_tiles. apply (bool_decide_unpack _). by vm_compute. }
  split; [simpl; lia|]. split; [exact Hperm|].
  apply (successors_keep_permutation [[1;2];[0;3]] None None); [simpl; lia|].
  exact Hperm.
Defined.

(** C8 as stated fails for the board without rows: its flattened tiles are
    the empty permutation of the empty range 0..-1, the only board reached
    from it is itself, and it has no blank. *)
Lemma empty_board_has_no_blank :
  ¬ (permutation_tiles (Board_init [] None None) →
     tiles_invariant (Board_init [] None None)).
Proof.
  intros Hinv.
  destruct (Hinv (reflexivity _) _ (rtc_refl _ _)) as [_ Hone].
  discriminate Hone.
Qed.

(** ** When the double loops run without an exception *)

Lemma for_each_Ret_each {A S : Type} (xs : list A) (body : S → A → res S) s s' :
  for_each xs body s = Ret s' →
  ∀ x, x ∈ xs → ∃ s1 s2, body s1 x = Ret s2.
Proof.
  revert s. induction xs as [|x xs IH]; intros s Hrun y Hy.
  - by apply elem_of_nil in Hy.
  - simpl in Hrun. inv_bind Hrun.
    apply elem_of_cons in Hy as [->|Hy]; [eauto|]. by eapply IH.
Qed.

Lemma rows_ok_cell (b : Board) i j :
  rows_ok b → (i < width b)%nat → (j < width b)%nat →
  is_Some (cell (tiles b) i j).
Proof.
  intros Hok Hi Hj. destruct (Hok i Hi) as (row & Hrow & Hlen).
  unfold cell. rewrite Hrow. simpl. apply lookup_lt_is_Some_2. lia.
Qed.

Lemma rows_ok_Forall (b : Board) :
  width b = length (tiles b) →
  Forall (λ row, (width b ≤ length row)%nat) (tiles b) → rows_ok b.
Proof.
  intros Hw Hrows i Hi. rewrite Hw in Hi.
  destruct (lookup_lt_is_Some_2 (tiles b) i Hi) as [row Hrow].
  exists row. split; [done|].
  by apply (Forall_lookup_1 _ (tiles b) i row Hrows).
Qed.

Lemma rows_ok_shape (b b' : Board) :
  shape (tiles b') = shape (tiles b) → width b' = width b →
  rows_ok b → rows_ok b'.
Proof.
  intros Hshape Hw Hok i Hi. rewrite Hw in *.
  destruct (Hok i Hi) as (row & Hrow & Hlen).
  assert (shape (tiles b') !! i = Some (length row)) as Hi'.
  { rewrite Hshape. unfold shape. by rewrite list_lookup_fmap, Hrow. }
  unfold shape in Hi'. rewrite list_lookup_fmap in Hi'.
  destruct (tiles b' !! i) as [row'|]; simplify_eq/=.
  exists row'. split; [done|]. lia.
Qed.

Lemma neighbors_Ret_rows_ok (b : Board) rp nbs :
  neighbors b rp = Ret nbs → rows_ok b.
Proof.
  rewrite neighbors_scan. intros Hrun i Hi.
  destruct (for_each_Ret_each _ _ _ _ Hrun (i, (width b - 1)%nat))
    as (s1 & s2 & Hcell).
  { apply elem_of_cells. lia. }
  simpl in Hcell. unfold neighbors_cell in Hcell. inv_bind Hcell.
  apply getitem2_Ret in Ha as (row & Hrow & Hj).
  exists row. split; [done|]. apply lookup_lt_Some in Hj. lia.
Qed.

Lemma elem_of_moves_at w i j i' j' act :
  (i', j', act) ∈ moves_at w i j → (i < w)%nat → (j < w)%nat →
  (i' < w ∧ j' < w)%nat.
Proof.
  unfold moves_at. intros Hin Hi Hj.
  repeat (apply elem_of_app in Hin as [Hin|Hin]);
    case_decide; try (by apply elem_of_nil in Hin);
    apply list_elem_of_singleton in Hin; simplify_eq; lia.
Qed.

(** The children that [neighbors] appends at one blank cell. *)
Lemma append_moves_total (b : Board) rp i j (ms : list (nat * nat * string)) nbs :
  rows_ok b → (i < width b)%nat → (j < width b)%nat →
  (∀ m, m ∈ ms → (m.1.1 < width b ∧ m.1.2 < width b)%nat) →
  ∃ nbs', for_each ms
            (λ nbs m, append_swapped b rp m.1.1 m.1.2 i j m.2 nbs) nbs
          = Ret nbs'.
Proof.
  intros Hok Hi Hj Hms.
  destruct (for_each_total (λ _, True) ms
    (λ nbs m, append_swapped b rp m.1.1 m.1.2 i j m.2 nbs) nbs)
    as (nbs' & Hrun & _); [|done|eauto].
  intros s m Hm _. destruct (Hms m Hm) as [Hi' Hj'].
  destruct (swap_assign_total (tiles b) m.1.1 m.1.2 i j) as [tmp Htmp].
  - by apply rows_ok_cell.
  - by apply rows_ok_cell.
  - eexists. split; [|done]. apply append_swapped_Ret. eauto.
Qed.

Lemma neighbors_total (b : Board) rp :
  rows_ok b → ∃ nbs, neighbors b rp = Ret nbs.
Proof.
  intros Hok. rewrite neighbors_scan.
  destruct (for_each_total (λ _, True) (cells (width b))
    (λ nbs c, neighbors_cell b rp c.1 nbs c.2) [])
    as (nbs & Hrun & _); [|done|eauto].
  intros s [i j] [Hi Hj]%elem_of_cells _. simpl.
  rewrite neighbors_cell_moves.
  destruct (rows_ok_cell b i j Hok Hi Hj) as [v Hv].
  rewrite (getitem2_of_cell _ _ _ _ Hv). simpl.
  case_decide; [|eauto].
  destruct (append_moves_total b rp i j (moves_at (width b) i j) s)
    as [nbs' Hnbs']; try done.
  - intros [[i' j'] act] Hm. by eapply elem_of_moves_at.
  - eauto.
Qed.

Lemma manhattan_scan (b : Board) :
  manhattan b =
  for_each (cells (width b)) (λ d c, manhattan_cell b c.1 d c.2) 0.
Proof. unfold manhattan. by rewrite for_each_nested. Qed.

Lemma manhattan_total (b : Board) : rows_ok b → ∃ h, manhattan b = Ret h.
Proof.
  intros Hok. rewrite manhattan_scan.
  destruct (for_each_total (λ _, True) (cells (width b))
    (λ d c, manhattan_cell b c.1 d c.2) 0) as (h & Hrun & _); [|done|eauto].
  intros d [i j] [Hi Hj]%elem_of_cells _. simpl. unfold manhattan_cell.
  destruct (rows_ok_cell b i j Hok Hi Hj) as [v Hv].
  rewrite (getitem2_of_cell _ _ _ _ Hv). simpl.
  case_decide; [|eauto]. unfold divmod. rewrite decide_False by lia.
  simpl. eauto.
Qed.

Lemma Board_lt_total (a b : Board) :
  rows_ok a → rows_ok b → ∃ r, Board_lt a b = Ret r.
Proof.
  intros [ha Ha]%manhattan_total [hb Hb]%manhattan_total.
  unfold Board_lt, f. rewrite Ha, Hb. simpl. eauto.
Qed.

(** ** Keys identify the tiles of boards of one shape *)

Lemma concat_shape_inj (t1 t2 : grid) :
  shape t1 = shape t2 → concat t1 = concat t2 → t1 = t2.
Proof.
  revert t2. induction t1 as [|r1 t1 IH]; intros [|r2 t2] Hshape Hcat;
    simplify_eq/=; [done|].
  apply app_inj_1 in Hcat as [-> Hcat]; [|done]. f_equal. by apply IH.
Qed.

Lemma repr_inj_shape (b1 b2 : Board) :
  shape (tiles b1) = shape (tiles b2) → repr b1 = repr b2 →
  tiles b1 = tiles b2.
Proof.
  intros Hshape Hrepr. apply concat_shape_inj; [done|].
  by apply join_str_inj.
Qed.

Lemma is_solved_ext (b1 b2 : Board) :
  width b1 = width b2 → repr b1 = repr b2 → is_solved b1 = is_solved b2.
Proof. unfold is_solved. by intros -> ->. Qed.

Lemma for_each_rel {A S1 S2 : Type} (R : S1 → S2 → Prop) (xs : list A)
    (body1 : S1 → A → res S1) (body2 : S2 → A → res S2) s1 s2 :
  (∀ s1 s2 x, x ∈ xs → R s1 s2 → rel_res R (body1 s1 x) (body2 s2 x)) →
  R s1 s2 → rel_res R (for_each xs body1 s1) (for_each xs body2 s2).
Proof.
  revert s1 s2. induction xs as [|x xs IH]; intros s1 s2 Hbody HR; simpl.
  - done.
  - pose proof (Hbody s1 s2 x ltac:(by left) HR) as Hx.
    destruct (body1 s1 x), (body2 s2 x); simpl in *; try done.
    apply IH; [|done]. intros ??? Hin. apply Hbody. by right.
Qed.

Lemma tiles_new_neighbor (self : Board) rp tmp act :
  tiles (new_neighbor self rp tmp act) = tmp.
Proof. by destruct rp. Qed.

(** The tiles of the children depend on the tiles and the width of the
    board only, not on its parent, depth or the flag. *)
Lemma neighbors_tiles_ext (b1 b2 : Board) rp1 rp2 :
  tiles b1 = tiles b2 → width b1 = width b2 →
  rel_res (λ n1 n2, tiles <$> n1 = tiles <$> n2)
    (neighbors b1 rp1) (neighbors b2 rp2).
Proof.
  intros Ht Hw. rewrite !neighbors_scan, Hw.
  apply for_each_rel; [|done].
  intros s1 s2 [i j] _ Hs. simpl. rewrite !neighbors_cell_moves, Ht, Hw.
  destruct (getitem2 (tiles b2) i j) as [v| |]; simpl; [|done..].
  case_decide; [|done].
  apply for_each_rel; [|done].
  intros n1 n2 [[i' j'] act] _ Hn. simpl. unfold append_swapped. rewrite Ht.
  destruct (swap_assign (tiles b2) i' j' i j); simpl; [|done..].
  rewrite !fmap_app, Hn. simpl. by rewrite !tiles_new_neighbor.
Qed.

Lemma neighbors_keys_ext (b1 b2 : Board) rp1 rp2 n1 n2 :
  tiles b1 = tiles b2 → width b1 = width b2 →
  neighbors b1 rp1 = Ret n1 → neighbors b2 rp2 = Ret n2 →
  ∀ x, x ∈ n1 → ∃ y, y ∈ n2 ∧ repr y = repr x.
Proof.
  intros Ht Hw H1 H2 x Hx.
  pose proof (neighbors_tiles_ext b1 b2 rp1 rp2 Ht Hw) as Hrel.
  rewrite H1, H2 in Hrel. simpl in Hrel.
  assert (tiles x ∈ tiles <$> n2) as (y & Hy & Hin)%list_elem_of_fmap.
  { rewrite <-Hrel. by apply list_elem_of_fmap_2. }
  exists y. split; [done|]. unfold repr, iter. by rewrite Hy.
Qed.

(** ** The search loop: progress, invariant and termination *)

Lemma repr_in_universe (root b : Board) :
  concat (tiles b) ≡ₚ concat (tiles root) →
  repr b ∈ key_universe (tiles root).
Proof.
  intros Hperm. unfold key_universe. apply elem_of_list_to_set.
  apply list_elem_of_fmap. exists (concat (tiles b)). split; [done|].
  by apply permutations_Permutation.
Qed.

Lemma reachable_facts (root b : Board) :
  width root = length (tiles root) → rows_ok root → reachable root b →
  rows_ok b ∧ repr b ∈ key_universe (tiles root) ∧
  width b = width root ∧ shape (tiles b) = shape (tiles root).
Proof.
  intros Hw Hok Hreach.
  destruct (reachable_tiles root b Hreach Hw) as (_ & Hwb & Hshape & Hperm).
  split; [by eapply rows_ok_shape|]. split; [by apply repr_in_universe|done].
Qed.

Lemma size_universe_step (K seen : gset string) (k : string) :
  k ∈ K → k ∉ seen →
  (size (K ∖ (seen ∪ {[k]})) + 1 = size (K ∖ seen))%nat.
Proof.
  intros HK Hseen.
  assert (K ∖ seen = {[k]} ∪ K ∖ (seen ∪ {[k]})) as ->.
  { apply set_eq. intros x. destruct (decide (x = k)); set_solver. }
  rewrite (size_union (C:=gset string) {[k]} (K ∖ (seen ∪ {[k]})))
    by set_solver.
  rewrite size_singleton. lia.
Qed.

Section search.
Context (root : Board).
Hypothesis root_width : width root = length (tiles root).
Hypothesis root_rows : rows_ok root.

Lemma reach_rows b : reachable root b → rows_ok b.
Proof. intros Hb. by apply (reachable_facts root b). Qed.

Lemma reach_key b : reachable root b → repr b ∈ key_universe (tiles root).
Proof. intros Hb. by apply (reachable_facts root b). Qed.

Lemma q_put_total q nb :
  Forall (reachable root) q → reachable root nb →
  ∃ q', q_put q nb = Ret q' ∧ q' ≡ₚ nb :: q.
Proof.
  intros Hq Hnb.
  destruct (heappush_total Board_lt rows_ok Board_lt_total q nb) as [q' Hq'].
  - by apply reach_rows.
  - eapply Forall_impl; [done|]. apply reach_rows.
  - exists q'. split; [done|]. by eapply heappush_perm.
Qed.

Lemma q_get_total q :
  q ≠ [] → Forall (reachable root) q →
  ∃ node q1, q_get q = Ret (node, q1) ∧ q ≡ₚ node :: q1.
Proof.
  intros Hne Hq.
  destruct (heappop_total Board_lt rows_ok Board_lt_total q Hne)
    as (node & q1 & Hpop).
  - eapply Forall_impl; [done|]. apply reach_rows.
  - exists node, q1. split; [done|]. by eapply heappop_perm.
Qed.

(** The [for] loop over the children of the expanded board. *)
Lemma visit_all nbs q1 seen :
  Forall (reachable root) nbs → Forall (reachable root) q1 →
  seen ⊆ key_universe (tiles root) →
  ∃ q' seen', for_each nbs visit (q1, seen) = Ret (q', seen') ∧
    Forall (reachable root) q' ∧ seen ⊆ seen' ∧
    seen' ⊆ key_universe (tiles root) ∧
    (∀ nb, nb ∈ nbs → repr nb ∈ seen') ∧
    (∀ b, b ∈ q1 → b ∈ q') ∧
    (∀ b, b ∈ q' → b ∈ q1 ∨ b ∈ nbs) ∧
    (∀ k, k ∈ seen' → k ∈ seen ∨ ∃ b, b ∈ q' ∧ repr b = k) ∧
    (2 * size (key_universe (tiles root) ∖ seen') + length q'
     ≤ 2 * size (key_universe (tiles root) ∖ seen) + length q1)%nat.
Proof.
  revert q1 seen. induction nbs as [|nb nbs IH]; intros q1 seen Hnbs Hq1 Hseen.
  { exists q1, seen. simpl. split; [done|]. split; [done|]. split; [done|].
    split; [done|]. split; [by intros ? ?%elem_of_nil|]. split; [done|].
    split; [by left|]. split; [by left|done]. }
  apply Forall_cons in Hnbs as [Hnb Hnbs]. cbn [for_each].
  destruct (decide (repr nb ∈ seen)) as [Hin|Hnotin].
  - assert (visit (q1, seen) nb = Ret (q1, seen)) as ->.
    { unfold visit. by rewrite decide_False by auto. }
    rewrite ret_bind. destruct (IH q1 seen Hnbs Hq1 Hseen)
      as (q' & seen' & Hrun & Hq' & Hsub & HK & Hkeys & Hold & Hnew & Hrep & Hm).
    exists q', seen'. split; [done|]. split; [done|]. split; [done|].
    split; [done|]. split.
    { intros x [->|Hx]%elem_of_cons; [set_solver|auto]. }
    split; [done|]. split.
    { intros b Hb. destruct (Hnew b Hb); [by left|right; by right]. }
    done.
  - destruct (q_put_total q1 nb Hq1 Hnb) as (q2 & Hput & Hperm).
    assert (visit (q1, seen) nb = Ret (q2, seen ∪ {[repr nb]})) as ->.
    { unfold visit. rewrite decide_True by done. by rewrite Hput. }
    rewrite ret_bind.
    assert (repr nb ∈ key_universe (tiles root)) as Hnbkey
      by by apply reach_key.
    destruct (IH q2 (seen ∪ {[repr nb]}))
      as (q' & seen' & Hrun & Hq' & Hsub & HK & Hkeys & Hold & Hnew & Hrep & Hm).
    { done. }
    { rewrite Hperm. by apply Forall_cons. }
    { set_solver. }
    exists q', seen'. split; [done|]. split; [done|].
    split; [set_solver|]. split; [done|]. split.
    { intros x [->|Hx]%elem_of_cons; [set_solver|auto]. }
    split.
    { intros b Hb. apply Hold. rewrite Hperm. by right. }
    split.
    { intros b Hb. destruct (Hnew b Hb) as [Hb2|Hb2]; [|right; by right].
      rewrite Hperm in Hb2. apply elem_of_cons in Hb2 as [->|Hb2].
      - right. by left.
      - by left. }
    split.
    { intros k Hk. destruct (Hrep k Hk) as [Hk2|Hk2]; [|by right].
      apply elem_of_union in Hk2 as [Hk2|Hk2]; [by left|].
      apply elem_of_singleton in Hk2 as ->. right. exists nb.
      split; [|done]. apply Hold. rewrite Hperm. by left. }
    pose proof (size_universe_step (key_universe (tiles root)) seen (repr nb)
                  Hnbkey Hnotin) as Hsize.
    apply Permutation_length in Hperm. simpl in Hperm. lia.
Qed.

Lemma children_reachable node nbs :
  reachable root node → neighbors node true = Ret nbs →
  Forall (reachable root) nbs.
Proof.
  intros Hnode Hnbs. apply Forall_forall. intros nb Hnb.
  eapply rtc_r; [done|]. by exists nbs.
Qed.

(** One pass through the body of the [while] loop: it returns the path of a
    solved board, or it re-establishes the invariant with a smaller
    measure. *)
Lemma loop_body_progress q seen :
  search_inv root q seen → q ≠ [] →
  (∃ node, loop_body q seen = Ret (Return (path node)) ∧
           reachable root node ∧ is_solved node = true) ∨
  (∃ q' seen', loop_body q seen = Ret (Continue q' seen') ∧
               search_inv root q' seen' ∧
               (search_measure (tiles root) q' seen'
                < search_measure (tiles root) q seen)%nat).
Proof.
  intros [Hreach Hkeys Hroot Huniv Hclosed] Hne.
  destruct (q_get_total q Hne Hreach) as (node & q1 & Hget & Hperm).
  assert (reachable root node ∧ Forall (reachable root) q1) as [Hnode Hq1].
  { rewrite Hperm in Hreach. by apply Forall_cons in Hreach. }
  unfold loop_body. rewrite Hget, ret_bind.
  destruct (is_solved node) eqn:Hsolved; [left; eauto|right].
  destruct (neighbors_total node true (reach_rows node Hnode)) as [nbs Hnbs].
  rewrite Hnbs, ret_bind.
  pose proof (children_reachable node nbs Hnode Hnbs) as Hnbs_reach.
  destruct (visit_all nbs q1 seen Hnbs_reach Hq1 Huniv)
    as (q' & seen' & Hrun & Hq' & Hsub & HK & Hnbkeys & Hold & Hnew & Hrep & Hm).
  rewrite Hrun, ret_bind. exists q', seen'. split; [done|]. split.
  - split; [done| |set_solver|done|].
    + intros b Hb. destruct (Hnew b Hb) as [Hb1|Hbn]; [|auto].
      apply Hsub, Hkeys. rewrite Hperm. by right.
    + intros b Hb Hbseen.
      destruct (Hrep _ Hbseen) as [Hbold|(b' & Hb' & Hrepr)]; [|left; eauto].
      destruct (Hclosed b Hb Hbold) as [(b' & Hb' & Hrepr)|[Hbs Hchildren]].
      * rewrite Hperm in Hb'. apply elem_of_cons in Hb' as [->|Hb'];
          [|left; eauto].
        right.
        destruct (reachable_facts root b root_width root_rows Hb)
          as (_ & _ & Hwb & Hshb).
        destruct (reachable_facts root node root_width root_rows Hnode)
          as (_ & _ & Hwn & Hshn).
        split.
        { rewrite <-Hsolved. apply is_solved_ext; congruence. }
        intros b'' (nbs_b & Hnbs_b & Hin).
        destruct (neighbors_keys_ext b node true true nbs_b nbs) with (x := b'')
          as (y & Hy & Hyrepr); try done.
        { apply repr_inj_shape; congruence. }
        { congruence. }
        rewrite <-Hyrepr. by apply Hnbkeys.
      * right. split; [done|]. intros b'' Hstep. by apply Hsub, Hchildren.
  - unfold search_measure. apply Permutation_length in Hperm. simpl in Hperm.
    lia.
Qed.

(** With an empty frontier, every board reached from the root has been
    expanded, and none of them was solved. *)
Lemma exhausted_no_goal seen b :
  search_inv root [] seen → reachable root b → is_solved b = false.
Proof.
  intros [_ _ Hroot _ Hclosed] Hb.
  assert (repr b ∈ seen) as Hseen.
  { revert b Hb. apply rtc_ind_r; [done|]. intros b b' Hb Hstep Hbseen.
    destruct (Hclosed b Hb Hbseen) as [(b0 & Hb0 & _)|[_ Hchildren]].
    - by apply elem_of_nil in Hb0.
    - by apply Hchildren. }
  destruct (Hclosed b Hb Hseen) as [(b0 & Hb0 & _)|[Hs _]]; [|done].
  by apply elem_of_nil in Hb0.
Qed.

(** The loop ends: with the path of a solved board, or with [None] when no
    board reached from the root is solved. *)
Lemma solve_loop_total n q seen :
  search_inv root q seen →
  (search_measure (tiles root) q seen < n)%nat →
  (∃ goal, solve_loop n q seen = Ret (Some (path goal)) ∧
           reachable root goal ∧ is_solved goal = true) ∨
  (solve_loop n q seen = Ret None ∧
   ∀ b, reachable root b → is_solved b = false).
Proof.
  revert q seen. induction n as [|n IH]; intros q seen Hinv Hm; [lia|].
  simpl. destruct q as [|b q].
  { right. split; [done|]. intros b Hb. by eapply exhausted_no_goal. }
  unfold q_empty. rewrite bool_decide_eq_false_2 by done.
  destruct (loop_body_progress (b :: q) seen Hinv)
    as [(node & -> & Hnode & Hs)|(q' & seen' & -> & Hinv' & Hm')]; [done|..].
  - rewrite ret_bind. left. eauto.
  - rewrite ret_bind. apply IH; [done|lia].
Qed.
End search.

Lemma q_put_first (root : Board) : q_put [] root = Ret [root].
Proof. reflexivity. Qed.

Lemma q_get_single (root : Board) : q_get [root] = Ret (root, []).
Proof. reflexivity. Qed.

Lemma search_inv_init (root : Board) :
  search_inv root [root] (∅ ∪ {[repr root]}).
Proof.
  split.
  - apply Forall_singleton. apply rtc_refl.
  - intros b ->%list_elem_of_singleton. set_solver.
  - set_solver.
  - intros k Hk. assert (k = repr root) as -> by set_solver.
    by apply repr_in_universe.
  - intros b Hb Hk. left. exists root. split; [by left|]. set_solver.
Qed.

(** A solvable root that is not itself solved has children, so its rows
    are long enough for the double loops. *)
Lemma solvable_rows_ok (root : Board) :
  solvable root → is_solved root = false → rows_ok root.
Proof.
  intros (goal & Hreach & Hsolved) Hroot.
  apply rtc_inv in Hreach as [->|(b & (nbs & Hnbs & _) & _)]; [congruence|].
  by eapply neighbors_Ret_rows_ok.
Qed.

Lemma search_measure_init (root : Board) :
  (search_measure (tiles root) [root] (∅ ∪ {[repr root]})
   ≤ 2 * size (key_universe (tiles root)) + 1)%nat.
Proof.
  unfold search_measure. simpl.
  pose proof (subseteq_size (key_universe (tiles root) ∖ (∅ ∪ {[repr root]}))
                (key_universe (tiles root))) as Hsz.
  assert (key_universe (tiles root) ∖ (∅ ∪ {[repr root]})
          ⊆ key_universe (tiles root)) as Hsub%Hsz by set_solver.
  lia.
Qed.

Lemma solve_root_solved (root : Board) n :
  is_solved root = true → solve (S n) root = Ret (Some (path root)).
Proof.
  intros Hroot. unfold solve. rewrite q_put_first, ret_bind.
  cbn [solve_loop]. unfold q_empty, loop_body.
  rewrite bool_decide_eq_false_2 by done.
  by rewrite q_get_single, ret_bind, Hroot, ret_bind.
Qed.

(** A number of loop iterations that is always enough. *)
Lemma solve_total (root : Board) n :
  width root = length (tiles root) → rows_ok root →
  (2 * size (key_universe (tiles root)) + 1 < n)%nat →
  (∃ goal, solve n root = Ret (Some (path goal)) ∧
           reachable root goal ∧ is_solved goal = true) ∨
  (solve n root = Ret None ∧ ¬ solvable root).
Proof.
  intros Hw Hrows Hn. unfold solve. rewrite q_put_first, ret_bind.
  destruct (solve_loop_total root Hw Hrows n [root] (∅ ∪ {[repr root]}))
    as [Hfound|[Hnone Hno]].
  - apply search_inv_init.
  - pose proof (search_measure_init root). lia.
  - by left.
  - right. split; [done|]. intros (goal & Hgoal & Hs).
    rewrite (Hno goal Hgoal) in Hs. done.
Qed.

Lemma solve_complete (root : Board) n :
  width root = length (tiles root) → solvable root →
  (2 * size (key_universe (tiles root)) + 1 < n)%nat →
  ∃ goal, solve n root = Ret (Some (path goal)) ∧
          reachable root goal ∧ is_solved goal = true.
Proof.
  intros Hw Hsolvable Hn.
  destruct (is_solved root) eqn:Hroot.
  - destruct n as [|n]; [lia|]. exists root.
    split; [by apply solve_root_solved|]. split; [apply rtc_refl|done].
  - destruct (solve_total root n Hw) as [Hfound|[_ Hno]]; try done.
    by apply solvable_rows_ok.
Qed.

(** The tiles of a solved board: [is_solved] accepts exactly the layout
    1, 2, ..., width²-1, 0, on boards of width at least 2. *)
Lemma join_str_no_leading_space xs s : join_str xs ≠ String " " s.
Proof.
  unfold join_str. destruct xs as [|x xs]; [done|].
  rewrite fmap_cons, concat_cons_tail.
  destruct (pretty_Z_word x) as [Hne Hns].
  destruct (pretty x) as [|c w]; [done|]. rewrite string_app_cons.
  intros [= -> _]. by destruct Hns.
Qed.

Lemma is_solved_layout (b : Board) :
  is_solved b = true →
  (2 ≤ width b)%nat ∧
  concat (tiles b) = range_1 (Z.of_nat (width b) ^ 2) ++ [0].
Proof.
  rewrite is_solved_spec. intros Hrepr.
  destruct (decide (2 ≤ width b)%nat) as [Hw|Hw].
  - split; [done|]. apply join_str_inj.
    rewrite join_str_snoc by (apply range_1_nonempty; nia). done.
  - exfalso. unfold range_1 in Hrepr. rewrite seqZ_nil in Hrepr by nia.
    by apply join_str_no_leading_space in Hrepr.
Qed.

(** C1: for a solvable initial board, [solve] returns (given enough loop
    iterations) a path whose first element is the initial board and whose
    last element is a board that [is_solved] accepts: its key is the solved
    key, the rendering of 1, 2, ..., width²-1, 0. *)
Theorem solve_returns_path (t : grid) :
  solvable (Board_init t None None) →
  ∃ N, ∀ n, (N ≤ n)%nat →
    ∃ p goal,
      solve n (Board_init t None None) = Ret (Some p) ∧
      head p = Some (Board_init t None None) ∧
      last p = Some goal ∧
      is_solved goal = true ∧
      repr goal = join_str (range_1 (Z.of_nat (length t) ^ 2) ++ [0]).
Proof.
  intros Hsolvable.
  exists (2 * size (key_universe t) + 2)%nat. intros n Hn.
  destruct (solve_complete (Board_init t None None) n eq_refl Hsolvable)
    as (goal & Hrun & Hreach & Hsolved); [simpl; lia|].
  exists (path goal), goal. split; [done|].
  destruct (reachable_path (Board_init t None None) goal eq_refl Hreach)
    as (Hhead & Hlast & _).
  split; [done|]. split; [done|]. split; [done|].
  destruct (reachable_tiles (Board_init t None None) goal Hreach eq_refl)
    as (_ & Hw & _).
  destruct (is_solved_layout goal Hsolved) as [_ Hlayout].
  unfold repr, iter. rewrite Hlayout, Hw. done.
Qed.

Lemma solve_returns_path_witness :
  solvable (Board_init [[1;2;3];[4;0;6];[7;5;8]] None None) ∧
  ∃ N, ∀ n, (N ≤ n)%nat →
    ∃ p goal,
      solve n (Board_init [[1;2;3];[4;0;6];[7;5;8]] None None) = Ret (Some p) ∧
      head p = Some (Board_init [[1;2;3];[4;0;6];[7;5;8]] None None) ∧
      last p = Some goal ∧
      is_solved goal = true ∧
      repr goal = join_str (range_1 (Z.of_nat 3 ^ 2) ++ [0]).
Proof.
  assert (solvable (Board_init [[1;2;3];[4;0;6];[7;5;8]] None None)) as Hs.
  { assert (solve 10 (Board_init [[1;2;3];[4;0;6];[7;5;8]] None None)
            = Ret (Some _)) as Hrun by (vm_compute; reflexivity).
    apply solve_sound in Hrun as (goal & Hreach & Hsolved & _).
    by exists goal. }
  split; [exact Hs|].
  exact (solve_returns_path [[1;2;3];[4;0;6];[7;5;8]] Hs).
Defined.

(** C2: on a board from which no solved board can be reached (and whose
    rows are long enough for the loops to run), the [while] loop of [solve]
    ends with an empty queue and the call returns Python's [None], the value
    of a function that ends without a [return] statement: no explicit
    failure outcome is produced. *)
Theorem solve_exhausted_returns_None (t : grid) :
  rows_ok (Board_init t None None) → ¬ solvable (Board_init t None None) →
  ∃ N, ∀ n, (N ≤ n)%nat → solve n (Board_init t None None) = Ret None.
Proof.
  intros Hrows Hno.
  exists (2 * size (key_universe t) + 2)%nat. intros n Hn.
  destruct (solve_total (Board_init t None None) n eq_refl Hrows)
    as [(goal & _ & Hreach & Hsolved)|[Hnone _]]; [simpl; lia| |done].
  destruct Hno. by exists goal.
Qed.

Lemma unsolvable_2x2 :
  rows_ok (Board_init [[2;1];[3;0]] None None) ∧
  ¬ solvable (Board_init [[2;1];[3;0]] None None).
Proof.
  assert (rows_ok (Board_init [[2;1];[3;0]] None None)) as Hrows.
  { apply rows_ok_Forall; [done|]. repeat constructor. }
  split; [exact Hrows|].
  destruct (solve_total (Board_init [[2;1];[3;0]] None None) 50 eq_refl Hrows)
    as [(goal & Hrun & _)|[_ Hno]].
  - vm_compute. lia.
  - vm_compute in Hrun. discriminate Hrun.
  - exact Hno.
Qed.

Lemma solve_exhausted_returns_None_witness :
  rows_ok (Board_init [[2;1];[3;0]] None None) ∧
  ¬ solvable (Board_init [[2;1];[3;0]] None None) ∧
  solve 13 (Board_init [[2;1];[3;0]] None None) = Ret None ∧
  ∃ N, ∀ n, (N ≤ n)%nat → solve n (Board_init [[2;1];[3;0]] None None) = Ret None.
Proof.
  split; [exact (proj1 unsolvable_2x2)|].
  split; [exact (proj2 unsolvable_2x2)|].
  split; [vm_compute; reflexivity|].
  exact (solve_exhausted_returns_None [[2;1];[3;0]]
           (proj1 unsolvable_2x2) (proj2 unsolvable_2x2)).
Defined.

(** ** The seen set *)

Lemma visit_seen q seen nb : repr nb ∈ seen → visit (q, seen) nb = Ret (q, seen).
Proof. intros Hin. unfold visit. by rewrite decide_False by auto. Qed.

Lemma visit_keys q seen nb q' seen' :
  (∀ b, b ∈ q → repr b ∈ seen) →
  visit (q, seen) nb = Ret (q', seen') →
  seen ⊆ seen' ∧ (∀ b, b ∈ q' → repr b ∈ seen').
Proof.
  intros Hq [(_ & -> & ->)|(_ & Hperm & ->)]%visit_Ret; [done|].
  split; [set_solver|]. intros b Hb. rewrite Hperm in Hb.
  apply elem_of_cons in Hb as [->|Hb]; [set_solver|].
  apply elem_of_union. left. by apply Hq.
Qed.

Lemma loop_step_keys st st' :
  (∀ b, b ∈ st.1 → repr b ∈ st.2) → loop_step st st' →
  st.2 ⊆ st'.2 ∧ (∀ b, b ∈ st'.1 → repr b ∈ st'.2).
Proof.
  destruct st as [q seen], st' as [q' seen']. simpl.
  intros Hq [_ Hbody]. simpl in Hbody.
  apply loop_body_Ret in Hbody
    as (node & q1 & _ & Hperm & [[_ ?]|(_ & nbs & q2 & seen2 & _ & Hrun & Heq)]);
    [done|]. simplify_eq.
  revert Hrun.
  apply (for_each_inv
           (λ s, seen ⊆ s.2 ∧ ∀ b, b ∈ s.1 → repr b ∈ s.2)).
  - intros [qa sa] nb [qb sb] _ [Hsub Hkeys] Hvisit. simpl in *.
    destruct (visit_keys qa sa nb qb sb Hkeys Hvisit) as [Hsub' Hkeys'].
    split; [set_solver|done].
  - simpl. split; [done|]. intros b Hb. apply Hq. rewrite Hperm. by right.
Qed.

Lemma loop_steps_keys st st' :
  (∀ b, b ∈ st.1 → repr b ∈ st.2) → rtc loop_step st st' →
  st.2 ⊆ st'.2 ∧ (∀ b, b ∈ st'.1 → repr b ∈ st'.2).
Proof.
  intros Hq Hsteps. revert st' Hsteps. apply rtc_ind_r; [done|].
  intros st1 st2 _ Hstep [Hsub Hkeys].
  destruct (loop_step_keys st1 st2 Hkeys Hstep) as [Hsub' Hkeys'].
  split; [set_solver|done].
Qed.

(** C7: [seen] holds the key of the root when the search loop is entered;
    it only grows, from one iteration to the next and with every child that
    is looked at; at every iteration it holds the key of every board that
    is, or at an earlier iteration was, in the frontier; a child whose key
    is already in [seen] is not pushed (the queue and the set stay as they
    are, whatever the child's cost), and a child whose key is new is pushed
    and its key is added with it. *)
Theorem seen_covers_frontier (root : Board)
    (st0 st st' : list Board * gset string) :
  loop_init root st0 → rtc loop_step st0 st → rtc loop_step st st' →
  (root ∈ st0.1 ∧ repr root ∈ st0.2) ∧
  (st0.2 ⊆ st.2 ∧ st.2 ⊆ st'.2) ∧
  (∀ b, b ∈ st.1 → repr b ∈ st'.2) ∧
  (∀ q seen nb, repr nb ∈ seen → visit (q, seen) nb = Ret (q, seen)) ∧
  (∀ q seen nb q' seen',
     visit (q, seen) nb = Ret (q', seen') →
     seen ⊆ seen' ∧ (repr nb ∉ seen → nb ∈ q' ∧ repr nb ∈ seen')).
Proof.
  intros (q0 & Hput & ->) Hrun Hrun'. rewrite q_put_first in Hput.
  injection Hput as <-.
  assert (∀ b, b ∈ [root] → repr b ∈ (∅ ∪ {[repr root]} : gset string)) as H0.
  { intros b ->%list_elem_of_singleton. set_solver. }
  destruct (loop_steps_keys ([root], ∅ ∪ {[repr root]}) st H0 Hrun)
    as [Hsub Hkeys].
  destruct (loop_steps_keys st st' Hkeys Hrun') as [Hsub' Hkeys'].
  simpl in *.
  split; [split; [by left|set_solver]|]. split; [done|].
  split; [set_solver|]. split; [apply visit_seen|].
  intros q seen nb q' seen' [(? & -> & ->)|(_ & Hperm & ->)]%visit_Ret.
  - done.
  - split; [set_solver|]. intros _. split; [|set_solver].
    rewrite Hperm. by left.
Qed.

Lemma seen_covers_frontier_witness :
  ∃ st0 st st',
    loop_init (Board_init [[1;2;3];[4;0;6];[7;5;8]] None None) st0 ∧
    rtc loop_step st0 st ∧ rtc loop_step st st' ∧
    length st.1 = 4%nat ∧ ∀ b, b ∈ st.1 → repr b ∈ st'.2.
Proof.
  set (root := Board_init [[1;2;3];[4;0;6];[7;5;8]] None None).
  assert (∃ q seen, loop_body [root] (∅ ∪ {[repr root]})
                    = Ret (Continue q seen) ∧ length q = 4%nat)
    as (q & seen & Hbody & Hlen).
  { eexists _, _. vm_compute. split; reflexivity. }
  exists ([root], ∅ ∪ {[repr root]}), (q, seen), (q, seen).
  assert (loop_init root ([root], ∅ ∪ {[repr root]})) as Hinit.
  { by exists [root]. }
  assert (rtc loop_step ([root], ∅ ∪ {[repr root]}) (q, seen)) as Hrun.
  { apply rtc_once. by split. }
  split; [exact Hinit|]. split; [exact Hrun|]. split; [apply rtc_refl|].
  split; [exact Hlen|].
  exact (proj1 (proj2 (proj2
    (seen_covers_frontier root _ _ _ Hinit Hrun (rtc_refl _ _))))).
Defined.

(** ** The children of a board with one blank *)

Lemma grid_ext (t1 t2 : grid) :
  shape t1 = shape t2 → (∀ i j, cell t1 i j = cell t2 i j) → t1 = t2.
Proof.
  intros Hshape Hcell. apply list_eq. intros i.
  pose proof (f_equal (λ s, s !! i) Hshape) as Hi. simpl in Hi.
  unfold shape in Hi. rewrite !list_lookup_fmap in Hi.
  destruct (t1 !! i) as [r1|] eqn:H1, (t2 !! i) as [r2|] eqn:H2;
    simplify_eq/=; [|done].
  f_equal. apply list_eq. intros j. specialize (Hcell i j).
  unfold cell in Hcell. by rewrite H1, H2 in Hcell.
Qed.

Lemma shape_exchange (t : grid) c1 c2 : shape (exchange t c1 c2) = shape t.
Proof.
  unfold shape, exchange. apply list_eq. intros i.
  rewrite !list_lookup_fmap, list_lookup_imap.
  destruct (t !! i); simpl; [|done]. by rewrite length_imap.
Qed.

Lemma length_exchange (t : grid) c1 c2 : length (exchange t c1 c2) = length t.
Proof. unfold exchange. apply length_imap. Qed.

Lemma cell_exchange (t : grid) c1 c2 i j :
  is_Some (cell t c1.1 c1.2) → is_Some (cell t c2.1 c2.2) →
  cell (exchange t c1 c2) i j =
    if decide ((i, j) = c1) then cell t c2.1 c2.2
    else if decide ((i, j) = c2) then cell t c1.1 c1.2
    else cell t i j.
Proof.
  intros [v1 H1] [v2 H2]. unfold exchange, cell at 1.
  rewrite list_lookup_imap.
  destruct (t !! i) as [row|] eqn:Hrow; simpl.
  - rewrite list_lookup_imap. unfold exchanged_cell.
    destruct (row !! j) as [v|] eqn:Hv; simpl.
    + repeat case_decide; simplify_eq/=; by rewrite ?H1, ?H2; try
        (unfold cell; rewrite Hrow; simpl; by rewrite Hv).
    + assert (cell t i j = None) as Hnone.
      { unfold cell. rewrite Hrow. done. }
      repeat case_decide; simplify_eq/=; congruence.
  - assert (cell t i j = None) as Hnone.
    { unfold cell. by rewrite Hrow. }
    repeat case_decide; simplify_eq/=; congruence.
Qed.

(** The swap assignment of the code exchanges the two cells. *)
Lemma swap_assign_exchange (t : grid) i1 j1 i2 j2 :
  is_Some (cell t i1 j1) → is_Some (cell t i2 j2) →
  swap_assign t i1 j1 i2 j2 = Ret (exchange t (i1, j1) (i2, j2)).
Proof.
  intros H1 H2. destruct (swap_assign_total t i1 j1 i2 j2 H1 H2) as [t' Ht'].
  rewrite Ht'. f_equal. apply grid_ext.
  - by rewrite shape_exchange, (swap_assign_shape _ _ _ _ _ _ Ht').
  - intros i j. rewrite (swap_assign_cell _ _ _ _ _ _ i j Ht').
    rewrite cell_exchange by done. simpl.
    destruct H1 as [v1 H1], H2 as [v2 H2].
    repeat case_decide; simplify_eq/=; try done; naive_solver.
Qed.

Lemma for_each_append {A B : Type} (xs : list A) (body : list B → A → res (list B))
    (h : A → list B) (s : list B) :
  (∀ x s, x ∈ xs → body s x = Ret (s ++ h x)) →
  for_each xs body s = Ret (s ++ concat (h <$> xs)).
Proof.
  revert s. induction xs as [|x xs IH]; intros s Hbody; simpl.
  - by rewrite app_nil_r.
  - rewrite (Hbody x s) by left. rewrite ret_bind, IH.
    + by rewrite <-app_assoc.
    + intros ?? Hin. apply Hbody. by right.
Qed.

Lemma concat_filter_bind {A B : Type} (P : A → Prop) `{∀ x, Decision (P x)}
    (k : A → list B) (xs : list A) :
  concat ((λ x, if decide (P x) then k x else []) <$> xs) = filter P xs ≫= k.
Proof.
  induction xs as [|x xs IH]; [done|].
  rewrite fmap_cons, concat_cons, IH, filter_cons. by case_decide.
Qed.

Lemma concat_singletons {A B : Type} (k : A → B) (xs : list A) :
  concat ((λ x, [k x]) <$> xs) = k <$> xs.
Proof.
  induction xs as [|x xs IH]; [done|].
  by rewrite !fmap_cons, concat_cons, IH.
Qed.

(** What the four blocks append at a cell of the scanned window. *)
Lemma neighbors_cell_append (self : Board) i j nbs :
  width self = length (tiles self) → rows_ok self →
  (i < width self)%nat → (j < width self)%nat →
  neighbors_cell self true i nbs j =
  Ret (nbs ++ if decide (cell (tiles self) i j = Some 0)
              then child_of self (i, j) <$> moves_at (width self) i j
              else []).
Proof.
  intros Hw Hok Hi Hj. rewrite neighbors_cell_moves.
  destruct (rows_ok_cell self i j Hok Hi Hj) as [v Hv].
  rewrite (getitem2_of_cell _ _ _ _ Hv), ret_bind, Hv.
  destruct (decide (v = 0)) as [->|Hne].
  - rewrite decide_True by done.
    rewrite (for_each_append _ _ (λ m, [child_of self (i, j) m])).
    + by rewrite concat_singletons.
    + intros [[i' j'] act] s Hm. simpl. unfold append_swapped.
      destruct (elem_of_moves_at _ _ _ _ _ _ Hm Hi Hj) as [Hi' Hj'].
      rewrite swap_assign_exchange
        by (try apply rows_ok_cell; done || (rewrite Hv; eauto)).
      rewrite ret_bind. unfold new_neighbor, child_of, Board_init. simpl.
      by rewrite length_exchange.
  - rewrite decide_False by congruence. by rewrite app_nil_r.
Qed.

(** Successor generation, for a board whose rows are long enough: the
    children of each blank of the scanned window, in scan order. *)
Lemma neighbors_by_blanks (self : Board) :
  width self = length (tiles self) → rows_ok self →
  neighbors self true =
  Ret (blanks (tiles self) ≫=
         λ c, child_of self c <$> moves_at (width self) c.1 c.2).
Proof.
  intros Hw Hok. rewrite neighbors_scan.
  rewrite (for_each_append _ _
    (λ c, if decide (cell (tiles self) c.1 c.2 = Some 0)
          then child_of self c <$> moves_at (width self) c.1 c.2 else [])).
  - simpl. unfold blanks. rewrite <-Hw.
    by rewrite (concat_filter_bind (λ c, cell (tiles self) c.1 c.2 = Some 0)).
  - intros [i j] s [Hi Hj]%elem_of_cells. simpl.
    by apply neighbors_cell_append.
Qed.

Lemma length_moves_at w i j : (length (moves_at w i j) ≤ 4)%nat.
Proof.
  unfold moves_at. rewrite !length_app.
  repeat case_decide; simpl; lia.
Qed.


(** ** Successor generation does not write to the board's rows *)

Lemma rel_res_bind {A1 A2 B1 B2 : Type} (R : A1 → A2 → Prop)
    (R' : B1 → B2 → Prop) (m1 : res A1) (m2 : res A2)
    (k1 : A1 → res B1) (k2 : A2 → res B2) :
  rel_res R m1 m2 → (∀ a1 a2, R a1 a2 → rel_res R' (k1 a1) (k2 a2)) →
  rel_res R' (m1 ≫= k1) (m2 ≫= k2).
Proof. destruct m1, m2; simpl; try done. auto. Qed.

Lemma holds_mono (σ σ' : store) r t : σ ⊆ σ' → holds σ r t → holds σ' r t.
Proof.
  intros Hsub Hh. eapply Forall2_impl; [exact Hh|]. intros l row Hl.
  simpl in *. exact (lookup_weaken σ σ' l row Hl Hsub).
Qed.

Lemma holds_lookup (σ : store) r t i :
  holds σ r t →
  match r !! i, t !! i with
  | Some l, Some row => σ !! l = Some row
  | None, None => True
  | _, _ => False
  end.
Proof.
  intros Hh. revert i. induction Hh as [|l row r t Hl Hh IH]; intros [|i];
    simpl; try done. apply IH.
Qed.

Lemma holds_getitem2 (σ : store) r t i j :
  holds σ r t → ref_getitem2 σ r i j = getitem2 t i j.
Proof.
  intros Hh. pose proof (holds_lookup σ r t i Hh) as Hi.
  unfold ref_getitem2, getitem2.
  destruct (r !! i) as [l|] eqn:Hl, (t !! i) as [row|] eqn:Hrow; try done.
  - rewrite (getitem_Some _ _ _ Hl), (getitem_Some _ _ _ Hrow), !ret_bind.
    unfold deref. by rewrite Hi.
  - by rewrite (getitem_None _ _ Hl), (getitem_None _ _ Hrow).
Qed.

(** [deepcopy] makes new row objects with the same contents and leaves the
    store it started from as it was. *)
Lemma deepcopy_rows_spec r (σ : store) memo t σ' tmp :
  holds σ r t → NoDup r → (∀ l, l ∈ r → memo !! l = None) →
  deepcopy_rows σ memo r = (σ', tmp) →
  σ ⊆ σ' ∧ holds σ' tmp t ∧ NoDup tmp ∧ (∀ l, l ∈ tmp → σ !! l = None).
Proof.
  revert σ memo t σ' tmp.
  induction r as [|l r IH]; intros σ memo t σ' tmp Hh Hnd Hmemo Hrun.
  - apply Forall2_nil_inv_l in Hh as ->. simpl in Hrun. simplify_eq.
    split; [done|]. split; [constructor|]. split; [constructor|].
    by intros ? ?%elem_of_nil.
  - apply Forall2_cons_inv_l in Hh as (row & t' & Hl & Hh & ->).
    apply NoDup_cons in Hnd as [Hnotin Hnd].
    simpl in Hrun. rewrite (Hmemo l) in Hrun by left.
    set (l' := fresh (dom σ)) in *.
    assert (σ !! l' = None) as Hfresh.
    { apply not_elem_of_dom. apply is_fresh. }
    assert (deref σ l = row) as Hrow by (unfold deref; by rewrite Hl).
    rewrite Hrow in Hrun.
    destruct (deepcopy_rows (<[l':=row]> σ) (<[l:=l']> memo) r)
      as [σ1 tmp1] eqn:Hrec. injection Hrun as <- <-.
    assert (σ ⊆ <[l':=row]> σ) as Hsub by by apply insert_subseteq.
    assert (∀ x, x ∈ r → <[l:=l']> memo !! x = None) as Hmemo'.
    { intros x Hx. rewrite lookup_insert_ne by (intros ->; done). apply Hmemo.
      by right. }
    destruct (IH (<[l':=row]> σ) (<[l:=l']> memo) t' σ1 tmp1
                (holds_mono _ _ _ _ Hsub Hh) Hnd Hmemo' Hrec)
      as (Hsub1 & Hh1 & Hnd1 & Hfresh1).
    split; [by etrans|]. split; [|split].
    + constructor; [|done]. eapply lookup_weaken; [|done].
      apply lookup_insert_eq.
    + constructor; [|done]. intros Hin. apply Hfresh1 in Hin.
      by rewrite lookup_insert_eq in Hin.
    + intros x [->|Hx]%elem_of_cons; [done|].
      apply Hfresh1 in Hx. by apply lookup_insert_None in Hx as [? _].
Qed.

Lemma deepcopy_spec (σ : store) r t σ' tmp :
  holds σ r t → NoDup r → deepcopy σ r = (σ', tmp) →
  σ ⊆ σ' ∧ holds σ' tmp t ∧ NoDup tmp ∧ (∀ l, l ∈ tmp → σ !! l = None).
Proof.
  intros Hh Hnd. apply deepcopy_rows_spec; [done..|]. intros l _.
  apply lookup_empty.
Qed.

(** Writing through a grid object whose rows are distinct changes the one
    row and nothing else. *)
Lemma ref_setitem2_rel (σ : store) tmp t i j v :
  holds σ tmp t → NoDup tmp →
  rel_res (λ t' σ', holds σ' tmp t' ∧ ∀ l, l ∉ tmp → σ' !! l = σ !! l)
    (setitem2 t i j v) (ref_setitem2 σ tmp i j v).
Proof.
  intros Hh Hnd. pose proof (holds_lookup σ tmp t i Hh) as Hi.
  unfold setitem2, ref_setitem2.
  destruct (tmp !! i) as [l|] eqn:Hl, (t !! i) as [row|] eqn:Hrow; try done;
    [|by rewrite (getitem_None _ _ Hl), (getitem_None _ _ Hrow)].
  rewrite (getitem_Some _ _ _ Hl), (getitem_Some _ _ _ Hrow), !ret_bind.
  unfold deref. rewrite Hi. simpl.
  destruct (setitem row j v) as [row'| |]; simpl; [|done..].
  split.
  - apply Forall2_lookup. intros k.
    pose proof (holds_lookup σ tmp t k Hh) as Hk.
    destruct (decide (k = i)) as [->|Hne].
    + rewrite Hl, list_lookup_insert_eq by by eapply lookup_lt_Some.
      constructor. apply lookup_insert_eq.
    + rewrite list_lookup_insert_ne by done.
      destruct (tmp !! k) as [lk|] eqn:Hlk, (t !! k) as [rk|]; try done;
        constructor.
      rewrite lookup_insert_ne; [done|]. intros <-.
      apply Hne. by eapply NoDup_lookup.
  - intros x Hx. apply lookup_insert_ne. intros <-.
    apply Hx. by eapply list_elem_of_lookup_2.
Qed.

Lemma ref_swap_assign_rel (σ : store) tmp t i1 j1 i2 j2 :
  holds σ tmp t → NoDup tmp →
  rel_res (λ t' σ', holds σ' tmp t' ∧ ∀ l, l ∉ tmp → σ' !! l = σ !! l)
    (swap_assign t i1 j1 i2 j2) (ref_swap_assign σ tmp i1 j1 i2 j2).
Proof.
  intros Hh Hnd. unfold swap_assign, ref_swap_assign.
  rewrite !(holds_getitem2 σ tmp t) by done.
  destruct (getitem2 t i2 j2) as [a| |]; simpl; [|done..].
  destruct (getitem2 t i1 j1) as [b| |]; simpl; [|done..].
  eapply rel_res_bind; [by apply ref_setitem2_rel|].
  intros t1 σ1 [Hh1 Hframe1]. simpl.
  pose proof (ref_setitem2_rel σ1 tmp t1 i2 j2 b Hh1 Hnd) as Hrel.
  destruct (setitem2 t1 i2 j2 b), (ref_setitem2 σ1 tmp i2 j2 b);
    simpl in *; try done.
  destruct Hrel as [Hh2 Hframe2]. split; [done|].
  intros l Hl. by rewrite Hframe2, Hframe1.
Qed.

Section store_run.
Context (σ0 : store) (self : Board) (r : list nat).
Hypothesis self_holds : holds σ0 r (tiles self).
Hypothesis self_rows : NoDup r.

Lemma ref_append_swapped_rel i1 j1 i2 j2 act nbs st :
  children_in_store σ0 nbs st →
  rel_res (children_in_store σ0)
    (append_swapped self true i1 j1 i2 j2 act nbs)
    (ref_append_swapped r i1 j1 i2 j2 act st).
Proof.
  destruct st as [σa refs]. intros [Hsub Hrefs]. simpl in *.
  unfold ref_append_swapped, append_swapped. simpl.
  destruct (deepcopy σa r) as [σ1 tmp] eqn:Hcopy.
  destruct (deepcopy_spec σa r (tiles self) σ1 tmp) as (Hsub1 & Hh1 & Hnd1 & Hfresh);
    [by eapply holds_mono|done|done|].
  eapply rel_res_bind; [by apply ref_swap_assign_rel|].
  intros t' σ2 [Hh2 Hframe]. simpl.
  assert (σa ⊆ σ2) as Hsub2.
  { apply map_subseteq_spec. intros l x Hl. rewrite Hframe.
    - by eapply lookup_weaken.
    - intros Hin. apply Hfresh in Hin. congruence. }
  split; simpl.
  - by etrans.
  - apply Forall2_app.
    + eapply Forall2_impl; [exact Hrefs|]. intros nb ref [Hh Hact].
      split; [|done]. by eapply holds_mono.
    + constructor; [|constructor]. by split.
Qed.

Lemma ref_neighbors_cell_rel i j nbs st :
  children_in_store σ0 nbs st →
  rel_res (children_in_store σ0)
    (neighbors_cell self true i nbs j)
    (ref_neighbors_cell r (width self) i st j).
Proof.
  intros Hst. unfold neighbors_cell, ref_neighbors_cell.
  rewrite (holds_getitem2 st.1 r (tiles self))
    by (eapply holds_mono; [apply Hst|done]).
  destruct (getitem2 (tiles self) i j) as [v| |]; simpl; [|done..].
  case_decide; [|done].
  repeat (eapply rel_res_bind;
          [case_decide; [by apply ref_append_swapped_rel|done]|];
          clear nbs st Hst; intros nbs st Hst).
  case_decide; [by apply ref_append_swapped_rel|done].
Qed.

(** The run on the store computes the children of the value-level
    [neighbors], ends with the same exception when that one does, and
    changes no row object that was in the store before the call. *)
Lemma ref_neighbors_refines :
  rel_res (children_in_store σ0)
    (neighbors self true) (ref_neighbors σ0 r (width self)).
Proof.
  unfold neighbors, ref_neighbors.
  apply for_each_rel; [|by split; [|constructor]].
  intros nbs st i _ Hst. apply for_each_rel; [|done].
  intros nbs' st' j _ Hst'. by apply ref_neighbors_cell_rel.
Qed.
End store_run.




(** ** The heuristic *)

Lemma for_each_sum {A : Type} (xs : list A) (body : Z → A → res Z)
    (h : A → Z) (d : Z) :
  (∀ x d, x ∈ xs → body d x = Ret (d + h x)) →
  for_each xs body d = Ret (d + sumZ (h <$> xs)).
Proof.
  revert d. induction xs as [|x xs IH]; intros d Hbody; cbn [for_each].
  - f_equal. unfold sumZ. simpl. lia.
  - rewrite (Hbody x d) by left. rewrite ret_bind, IH.
    + f_equal. rewrite fmap_cons. unfold sumZ. cbn [foldr]. lia.
    + intros ?? Hin. apply Hbody. by right.
Qed.

Lemma manhattan_cell_add (b : Board) i j d :
  rows_ok b → (i < width b)%nat → (j < width b)%nat →
  manhattan_cell b i d j = Ret (d + cell_distance b (i, j)).
Proof.
  intros Hok Hi Hj. unfold manhattan_cell, cell_distance. simpl.
  destruct (rows_ok_cell b i j Hok Hi Hj) as [v Hv].
  rewrite (getitem2_of_cell _ _ _ _ Hv), ret_bind, Hv.
  destruct (decide (v ≠ 0)); [|f_equal; lia].
  unfold divmod. rewrite decide_False by lia. by rewrite ret_bind.
Qed.

Lemma manhattan_eq_sum (b : Board) :
  rows_ok b → manhattan b = Ret (manhattan_sum b).
Proof.
  intros Hok. rewrite manhattan_scan.
  rewrite (for_each_sum _ _ (cell_distance b)); [done|].
  intros [i j] d [Hi Hj]%elem_of_cells. simpl. by apply manhattan_cell_add.
Qed.

Lemma tile_distance_nonneg w c v : 0 ≤ tile_distance w c v.
Proof. unfold tile_distance. lia. Qed.

Lemma cell_distance_nonneg b c : 0 ≤ cell_distance b c.
Proof.
  unfold cell_distance. destruct (cell _ _ _); [|done].
  case_decide; [apply tile_distance_nonneg|done].
Qed.

Lemma sumZ_nonneg (l : list Z) : Forall (λ x, 0 ≤ x) l → 0 ≤ sumZ l.
Proof. unfold sumZ. induction 1; simpl; lia. Qed.

Lemma sumZ_zero (l : list Z) :
  Forall (λ x, 0 ≤ x) l → (sumZ l = 0 ↔ Forall (λ x, x = 0) l).
Proof.
  induction 1 as [|x l Hx Hl IH].
  - split; [constructor|done].
  - pose proof (sumZ_nonneg l Hl) as Hnn. rewrite Forall_cons, <-IH.
    unfold sumZ in *. cbn [foldr]. lia.
Qed.

Lemma manhattan_sum_nonneg b : 0 ≤ manhattan_sum b.
Proof.
  apply sumZ_nonneg, Forall_fmap, Forall_forall.
  intros c _. apply cell_distance_nonneg.
Qed.

Lemma manhattan_sum_zero b :
  manhattan_sum b = 0 ↔ ∀ c, c ∈ cells (width b) → cell_distance b c = 0.
Proof.
  unfold manhattan_sum. rewrite sumZ_zero.
  - rewrite Forall_fmap, Forall_forall. done.
  - apply Forall_fmap, Forall_forall. intros c _. apply cell_distance_nonneg.
Qed.

(** In a grid with rows of [w] tiles, the cell [(i, j)] is the element
    [i * w + j] of the flattened sequence. *)
Lemma cell_concat (t : grid) (w i j : nat) :
  Forall (λ row, length row = w) t → (j < w)%nat →
  concat t !! (i * w + j)%nat = cell t i j.
Proof.
  intros Hrows Hj. revert i. induction Hrows as [|row t Hrow Hrows IH];
    intros i.
  - unfold cell. by rewrite !lookup_nil.
  - destruct i as [|i]; simpl.
    + rewrite lookup_app_l by lia. done.
    + rewrite lookup_app_r by lia.
      replace (S i * w + j - length row)%nat with (i * w + j)%nat by lia.
      apply IH.
Qed.

Lemma length_concat_square (t : grid) (w : nat) :
  Forall (λ row, length row = w) t → length (concat t) = (length t * w)%nat.
Proof.
  induction 1 as [|row t Hrow Hrows IH]; simpl; [done|].
  rewrite length_app, IH. lia.
Qed.

Lemma tile_distance_zero (w i j : nat) (v : Z) :
  (j < w)%nat →
  tile_distance w (i, j) v = 0 ↔ v - 1 = Z.of_nat i * Z.of_nat w + Z.of_nat j.
Proof.
  intros Hj. unfold tile_distance. simpl.
  pose proof (Z.div_mod (v - 1) (Z.of_nat w) ltac:(lia)) as Hdm.
  pose proof (Z.mod_pos_bound (v - 1) (Z.of_nat w) ltac:(lia)) as Hr.
  split.
  - intros Hzero. nia.
  - intros Hv.
    assert ((v - 1) `div` Z.of_nat w = Z.of_nat i ∧
            (v - 1) `mod` Z.of_nat w = Z.of_nat j) as [-> ->]; [|lia].
    apply (Z.div_mod_unique (Z.of_nat w)); [lia|lia|]. lia.
Qed.

Lemma solved_layout_lookup (w k : nat) :
  (1 ≤ w)%nat →
  (range_1 (Z.of_nat w ^ 2) ++ [0]) !! k =
    if decide (k < w * w - 1)%nat then Some (Z.of_nat k + 1)
    else if decide (k = w * w - 1)%nat then Some 0 else None.
Proof.
  intros Hw. unfold range_1.
  assert (Z.to_nat (Z.of_nat w ^ 2 - 1) = (w * w - 1)%nat) as Hlen by nia.
  case_decide as Hk.
  - rewrite lookup_app_l by (rewrite length_seqZ; lia).
    rewrite lookup_seqZ_lt by nia. f_equal. lia.
  - rewrite lookup_app_r by (rewrite length_seqZ; lia).
    rewrite length_seqZ, Hlen. case_decide as Hk'.
    + by replace (k - (w * w - 1))%nat with 0%nat by lia.
    + destruct (k - (w * w - 1))%nat eqn:Hd; [lia|done].
Qed.

Section square_board.
Context (b : Board).
Hypothesis width_ok : width b = length (tiles b).
Hypothesis square : Forall (λ row, length row = width b) (tiles b).

Lemma square_rows_ok : rows_ok b.
Proof.
  apply rows_ok_Forall; [done|]. eapply Forall_impl; [exact square|].
  simpl. intros row ->. done.
Qed.

Lemma square_cell (i j : nat) :
  (j < width b)%nat → cell (tiles b) i j = iter b !! (i * width b + j)%nat.
Proof. intros Hj. symmetry. by apply cell_concat. Qed.

Lemma square_length : length (iter b) = (width b * width b)%nat.
Proof. unfold iter. rewrite (length_concat_square _ (width b)) by done. lia. Qed.

(** On a solved board every tile is at its goal position. *)
Lemma solved_distance_zero c :
  is_solved b = true → c ∈ cells (width b) → cell_distance b c = 0.
Proof.
  intros [Hw Hlayout]%is_solved_layout. destruct c as [i j].
  intros [Hi Hj]%elem_of_cells. unfold cell_distance. simpl.
  rewrite square_cell by done. unfold iter.
  rewrite Hlayout, solved_layout_lookup by lia.
  case_decide as Hk.
  - rewrite decide_True by lia. apply tile_distance_zero; [done|]. lia.
  - case_decide; [|done]. by case_decide.
Qed.

(** When every tile is at its goal position and the tiles are a
    permutation, the layout is 1, 2, ..., width²-1, 0. *)
Lemma distance_zero_layout :
  (1 ≤ width b)%nat → permutation_tiles b →
  (∀ c, c ∈ cells (width b) → cell_distance b c = 0) →
  iter b = range_1 (Z.of_nat (width b) ^ 2) ++ [0].
Proof.
  intros Hw Hperm Hzero. unfold permutation_tiles in Hperm.
  set (w := width b) in *.
  assert (NoDup (iter b)) as Hnodup.
  { unfold iter. rewrite Hperm. apply NoDup_seqZ. }
  assert (∀ k v, iter b !! k = Some v →
                 v = 0 ∨ (v = Z.of_nat k + 1 ∧ (k < w * w - 1)%nat)) as Hcases.
  { intros k v Hv.
    assert (k < w * w)%nat as Hk.
    { apply lookup_lt_Some in Hv. by rewrite square_length in Hv. }
    assert (0 ≤ v < Z.of_nat w ^ 2) as Hrange.
    { apply list_elem_of_lookup_2 in Hv. unfold iter in Hv.
      rewrite Hperm in Hv. apply elem_of_seqZ in Hv. lia. }
    pose proof (Nat.div_mod_eq k w) as Hdm.
    pose proof (Nat.mod_upper_bound k w ltac:(lia)) as Hmod.
    assert ((k `div` w) < w)%nat as Hdiv.
    { apply Nat.Div0.div_lt_upper_bound. lia. }
    specialize (Hzero (k `div` w, k `mod` w)%nat).
    rewrite elem_of_cells in Hzero. specialize (Hzero (conj Hdiv Hmod)).
    unfold cell_distance in Hzero. simpl in Hzero.
    rewrite square_cell in Hzero by done. fold w in Hzero.
    replace (k `div` w * w + k `mod` w)%nat with k in Hzero by lia.
    rewrite Hv in Hzero. destruct (decide (v ≠ 0)) as [Hne|Heq]; [|lia].
    right. apply tile_distance_zero in Hzero; [|done]. nia. }
  assert (iter b !! (w * w - 1)%nat = Some 0) as Hlast.
  { destruct (lookup_lt_is_Some_2 (iter b) (w * w - 1)) as [v Hv].
    { rewrite square_length. fold w. nia. }
    rewrite Hv. f_equal. destruct (Hcases _ _ Hv) as [?|[_ ?]]; [done|lia]. }
  apply list_eq. intros k. rewrite solved_layout_lookup by done. fold w.
  destruct (iter b !! k) as [v|] eqn:Hv.
  - destruct (Hcases k v Hv) as [->|[-> Hk]].
    + assert (k = (w * w - 1)%nat) as -> by by eapply NoDup_lookup.
      rewrite decide_False by lia. by rewrite decide_True.
    + by rewrite decide_True.
  - apply lookup_ge_None in Hv. rewrite square_length in Hv. fold w in Hv.
    rewrite !decide_False by nia. done.
Qed.

Lemma square_heuristic_correct :
  (2 ≤ width b)%nat → permutation_tiles b → heuristic_correct b.
Proof.
  intros Hw Hperm. split; [|split].
  - apply manhattan_eq_sum, square_rows_ok.
  - apply manhattan_sum_nonneg.
  - rewrite manhattan_sum_zero. split.
    + intros Hzero. apply is_solved_spec. unfold repr.
      rewrite distance_zero_layout by (done || lia).
      apply join_str_snoc, range_1_nonempty. nia.
    + intros Hsolved c Hc. by apply solved_distance_zero.
Qed.
End square_board.

(** C3 (amended): for every square board of width at least 2 whose tiles are
    a permutation of 0..width²-1, [manhattan] returns the sum over the
    non-blank tiles of the Manhattan distance between the tile's cell and
    the goal position ((v-1) div width, (v-1) mod width) of its value v; the
    value is at least 0, and it is 0 exactly when [is_solved] holds. *)
Theorem manhattan_is_heuristic (t : grid) (p : option Board)
    (a : option string) :
  (2 ≤ length t)%nat →
  Forall (λ row, length row = length t) t →
  permutation_tiles (Board_init t p a) →
  heuristic_correct (Board_init t p a).
Proof.
  intros Hw Hsquare Hperm.
  by apply (square_heuristic_correct (Board_init t p a)).
Qed.

Lemma manhattan_is_heuristic_witness :
  (2 ≤ length [[1;2;3];[4;0;6];[7;5;8]])%nat ∧
  Forall (λ row, length row = length [[1;2;3];[4;0;6];[7;5;8]])
         [[1;2;3];[4;0;6];[7;5;8]] ∧
  permutation_tiles (Board_init [[1;2;3];[4;0;6];[7;5;8]] None None) ∧
  manhattan (Board_init [[1;2;3];[4;0;6];[7;5;8]] None None) = Ret 2 ∧
  heuristic_correct (Board_init [[1;2;3];[4;0;6];[7;5;8]] None None).
Proof.
  assert (Forall (λ row, length row = length [[1;2;3];[4;0;6];[7;5;8]])
                 [[1;2;3];[4;0;6];[7;5;8]]) as Hsquare.
  { repeat constructor. }
  assert (permutation_tiles (Board_init [[1;2;3];[4;0;6];[7;5;8]] None None))
    as Hperm.
  { unfold permutation_tiles. apply (bool_decide_unpack _). by vm_compute. }
  split; [simpl; lia|]. split; [exact Hsquare|]. split; [exact Hperm|].
  split; [reflexivity|].
  apply (manhattan_is_heuristic [[1;2;3];[4;0;6];[7;5;8]] None None);
    [simpl; lia|exact Hsquare|exact Hperm].
Defined.

(** C3 as stated fails on the board of width 1: its only tile is the blank,
    so the heuristic is 0, but [is_solved] compares the key "0" with " 0". *)
Lemma heuristic_fails_at_width_1 :
  permutation_tiles (Board_init [[0]] None None) ∧
  ¬ heuristic_correct (Board_init [[0]] None None).
Proof.
  split.
  - unfold permutation_tiles. apply (bool_decide_unpack _). by vm_compute.
  - intros (_ & _ & Hiff). by specialize (proj1 Hiff eq_refl).
Qed.
(** * Further properties of the code *)

(** ** The goal board *)

Lemma rows_ok_init (t : grid) (p : option Board) (a : option string) :
  rows_ok (Board_init t p a) ↔ rows_long t.
Proof.
  split.
  - intros Hok. apply Forall_lookup_2. intros i row Hrow.
    destruct (Hok i) as (row' & Hrow' & Hlen).
    { simpl. by eapply lookup_lt_Some. }
    simpl in *. by simplify_eq.
  - intros Hrows. by apply rows_ok_Forall.
Qed.

Lemma rows_ok_rows_long (b : Board) :
  width b = length (tiles b) → rows_ok b ↔ rows_long (tiles b).
Proof.
  intros Hw. rewrite <-(rows_ok_init (tiles b) None None).
  unfold rows_ok. simpl. by rewrite Hw.
Qed.

Lemma make_goal_cell (s : Z) (i j : nat) :
  (i < Z.to_nat s)%nat → (j < Z.to_nat s)%nat →
  cell ((λ i, (λ j, goal_value s (i * s + j)) <$> rangeZ s) <$> rangeZ s) i j
  = Some (goal_value s (Z.of_nat i * s + Z.of_nat j)).
Proof.
  intros Hi Hj. unfold cell, rangeZ.
  rewrite list_lookup_fmap, lookup_seqZ_lt by lia. simpl.
  rewrite list_lookup_fmap, lookup_seqZ_lt by lia. simpl.
  done.
Qed.

Lemma solved_layout_perm (N : Z) : 1 ≤ N → range_1 N ++ [0] ≡ₚ seqZ 0 N.
Proof.
  intros HN. unfold range_1. rewrite (seqZ_cons 0 N) by lia.
  rewrite <-Permutation_cons_append. do 2 f_equiv; lia.
Qed.

(** X1: [make_goal s] never raises, whatever integer [s] is: it returns
    [s] rows of [s] tiles each (no row at all for [s <= 0]), the tile at
    row [i], column [j] is [i*s + j + 1], except for the last cell, which
    holds the blank; the tiles are a permutation of 0..s²-1, and the
    Manhattan distance of the board made from them is 0. *)
Theorem make_goal_square (s : Z) :
  ∃ goal,
    make_goal s = Ret goal ∧
    length goal = Z.to_nat s ∧
    Forall (λ row, length row = Z.to_nat s) goal ∧
    (∀ i j, (i < Z.to_nat s)%nat → (j < Z.to_nat s)%nat →
       cell goal i j =
         Some (if decide (i = Z.to_nat (s - 1) ∧ j = Z.to_nat (s - 1))
               then 0 else Z.of_nat i * s + Z.of_nat j + 1)) ∧
    permutation_tiles (Board_init goal None None) ∧
    manhattan (Board_init goal None None) = Ret 0.
Proof.
  pose proof (make_goal_Ret s) as Hgoal.
  pose proof (make_goal_cell s) as Hcell. revert Hgoal Hcell.
  generalize ((λ i, (λ j, goal_value s (i * s + j)) <$> rangeZ s) <$> rangeZ s).
  intros goal Hgoal Hcell. exists goal. split; [done|].
  assert (length goal = Z.to_nat s) as Hlen.
  { rewrite make_goal_Ret in Hgoal. injection Hgoal as <-.
    unfold rangeZ. by rewrite length_fmap, length_seqZ. }
  assert (Forall (λ row, length row = Z.to_nat s) goal) as Hrows.
  { rewrite make_goal_Ret in Hgoal. injection Hgoal as <-.
    apply Forall_fmap, Forall_forall. intros i _. simpl.
    unfold rangeZ. by rewrite length_fmap, length_seqZ. }
  split; [done|]. split; [done|]. split.
  { intros i j Hi Hj. rewrite Hcell by done. f_equal. unfold goal_value.
    repeat case_decide; nia. }
  destruct (decide (1 ≤ s)) as [Hs|Hs].
  - destruct (make_goal_concat s goal Hs Hgoal) as [Hcat _].
    assert (permutation_tiles (Board_init goal None None)) as Hperm.
    { unfold permutation_tiles. cbn [tiles Board_init width]. rewrite Hcat, Hlen.
      replace (Z.of_nat (Z.to_nat s) ^ 2) with (s * s) by lia.
      apply solved_layout_perm. nia. }
    split; [done|].
    assert (rows_ok (Board_init goal None None)) as Hok.
    { apply rows_ok_init. unfold rows_long. rewrite Hlen.
      eapply Forall_impl; [exact Hrows|]. simpl. intros row ->. done. }
    rewrite manhattan_eq_sum by done. f_equal.
    apply manhattan_sum_zero. intros [i j] [Hi Hj]%elem_of_cells.
    cbn [width Board_init] in Hi, Hj. rewrite Hlen in Hi, Hj.
    unfold cell_distance. cbn [tiles Board_init width fst snd].
    rewrite Hcell by done. case_decide as Hv; [|done].
    apply tile_distance_zero; [lia|]. unfold goal_value in *.
    case_decide; lia.
  - assert (goal = []) as ->.
    { apply nil_length_inv. lia. }
    split; [|reflexivity]. unfold permutation_tiles. simpl. reflexivity.
Qed.

(** ** Keys and goal detection *)

(** X2: two boards have the same key exactly when their tiles, read row by
    row, are the same sequence; for two boards whose rows have the same
    lengths, exactly when their tiles are equal. So the entries of [seen]
    stand for the tiles of the boards of one search. *)
Theorem repr_identifies_tiles (b1 b2 : Board) :
  (repr b1 = repr b2 ↔ iter b1 = iter b2) ∧
  (shape (tiles b1) = shape (tiles b2) →
   (repr b1 = repr b2 ↔ tiles b1 = tiles b2)).
Proof.
  split.
  - split; [apply join_str_inj|]. unfold repr. by intros ->.
  - intros Hshape. split; [by apply repr_inj_shape|].
    unfold repr, iter. by intros ->.
Qed.

(** X3: [is_solved] answers [True] exactly on the boards of width at least
    2 whose tiles, read row by row, are 1, 2, ..., width²-1, 0; on a board
    of width 0 or 1 it answers [False], whatever the tiles are. *)
Theorem is_solved_iff_layout (b : Board) :
  is_solved b = true ↔
  (2 ≤ width b)%nat ∧ iter b = range_1 (Z.of_nat (width b) ^ 2) ++ [0].
Proof.
  split; [apply is_solved_layout|].
  intros [Hw Hlayout]. apply is_solved_spec. unfold repr. rewrite Hlayout.
  apply join_str_snoc, range_1_nonempty. nia.
Qed.

(** ** Exceptions of the double loops *)

Lemma raises_only_bind {A B : Type} (m : res A) (k : A → res B) :
  raises_only_IndexError m → (∀ a, raises_only_IndexError (k a)) →
  raises_only_IndexError (m ≫= k).
Proof.
  intros Hm Hk e. destruct m as [a| |]; simpl; [apply Hk| |done].
  intros [= ->]. by apply Hm.
Qed.

Lemma raises_only_for_each {A S : Type} (xs : list A) (body : S → A → res S) s :
  (∀ s x, x ∈ xs → raises_only_IndexError (body s x)) →
  raises_only_IndexError (for_each xs body s).
Proof.
  revert s. induction xs as [|x xs IH]; intros s Hbody; simpl; [done|].
  apply raises_only_bind; [apply Hbody; by left|].
  intros s'. apply IH. intros ?? Hin. apply Hbody. by right.
Qed.

Lemma raises_only_Ret {A : Type} (a : A) : raises_only_IndexError (Ret a).
Proof. done. Qed.

Lemma raises_only_getitem {A : Type} (l : list A) i :
  raises_only_IndexError (getitem l i).
Proof. unfold getitem. intros e. destruct (l !! i); naive_solver. Qed.

Lemma raises_only_setitem {A : Type} (l : list A) i x :
  raises_only_IndexError (setitem l i x).
Proof. unfold setitem. intros e. case_decide; naive_solver. Qed.

Lemma raises_only_getitem2 (t : grid) i j :
  raises_only_IndexError (getitem2 t i j).
Proof.
  apply raises_only_bind; [apply raises_only_getitem|].
  intros row. apply raises_only_getitem.
Qed.

Lemma raises_only_setitem2 (t : grid) i j v :
  raises_only_IndexError (setitem2 t i j v).
Proof.
  apply raises_only_bind; [apply raises_only_getitem|]. intros row.
  apply raises_only_bind; [apply raises_only_setitem|]. intros row'.
  apply raises_only_Ret.
Qed.

Lemma raises_only_swap_assign (t : grid) i1 j1 i2 j2 :
  raises_only_IndexError (swap_assign t i1 j1 i2 j2).
Proof.
  repeat (apply raises_only_bind;
          [first [apply raises_only_getitem2|apply raises_only_setitem2]|];
          intros ?).
  apply raises_only_setitem2.
Qed.

Lemma raises_only_neighbors (b : Board) rp :
  raises_only_IndexError (neighbors b rp).
Proof.
  rewrite neighbors_scan. apply raises_only_for_each.
  intros nbs [i j] _. simpl. rewrite neighbors_cell_moves.
  apply raises_only_bind; [apply raises_only_getitem2|]. intros v.
  case_decide; [|apply raises_only_Ret].
  apply raises_only_for_each. intros s m _.
  apply raises_only_bind; [apply raises_only_swap_assign|].
  intros tmp. apply raises_only_Ret.
Qed.

Lemma raises_only_manhattan (b : Board) :
  raises_only_IndexError (manhattan b).
Proof.
  rewrite manhattan_scan. apply raises_only_for_each.
  intros d [i j] [Hi Hj]%elem_of_cells. simpl.
  apply raises_only_bind; [apply raises_only_getitem2|]. intros v.
  case_decide; [|apply raises_only_Ret].
  unfold divmod. rewrite decide_False by lia. simpl. apply raises_only_Ret.
Qed.

Lemma manhattan_Ret_rows_ok (b : Board) h :
  manhattan b = Ret h → rows_ok b.
Proof.
  rewrite manhattan_scan. intros Hrun i Hi.
  destruct (for_each_Ret_each _ _ _ _ Hrun (i, (width b - 1)%nat))
    as (s1 & s2 & Hcell).
  { apply elem_of_cells. lia. }
  simpl in Hcell. unfold manhattan_cell in Hcell. inv_bind Hcell.
  apply getitem2_Ret in Ha as (row & Hrow & Hj).
  exists row. split; [done|]. apply lookup_lt_Some in Hj. lia.
Qed.

(** A run that is known not to end in [Ret] and raises nothing but an
    [IndexError] raises it. *)
Lemma raises_IndexError {A : Type} (m : res A) :
  raises_only_IndexError m → m ≠ OutOfFuel → (∀ a, m ≠ Ret a) →
  m = Raise IndexError.
Proof.
  intros Honly Hfuel Hret. destruct m as [a|e|]; [by destruct (Hret a)| |done].
  by rewrite (Honly e).
Qed.

Lemma neighbors_rows_ok_iff (b : Board) rp :
  (rows_ok b ↔ ∃ nbs, neighbors b rp = Ret nbs) ∧
  (¬ rows_ok b ↔ neighbors b rp = Raise IndexError).
Proof.
  assert (rows_ok b ↔ ∃ nbs, neighbors b rp = Ret nbs) as Hiff.
  { split; [apply neighbors_total|]. intros [nbs Hnbs].
    by eapply neighbors_Ret_rows_ok. }
  split; [done|]. split.
  - intros Hno. apply raises_IndexError.
    + apply raises_only_neighbors.
    + apply neighbors_no_fuel.
    + intros nbs Hnbs. apply Hno, Hiff. eauto.
  - intros Hraise [nbs Hnbs]%Hiff. congruence.
Qed.

Lemma manhattan_rows_ok_iff (b : Board) :
  (rows_ok b ↔ manhattan b = Ret (manhattan_sum b)) ∧
  (¬ rows_ok b ↔ manhattan b = Raise IndexError).
Proof.
  assert (rows_ok b ↔ manhattan b = Ret (manhattan_sum b)) as Hiff.
  { split; [apply manhattan_eq_sum|]. apply manhattan_Ret_rows_ok. }
  split; [done|]. split.
  - intros Hno. apply raises_IndexError.
    + apply raises_only_manhattan.
    + apply manhattan_no_fuel.
    + intros h Hh. by apply Hno, (manhattan_Ret_rows_ok b h).
  - intros Hraise Hok%Hiff. congruence.
Qed.

(** X4: [neighbors] returns a list exactly when every row of the board has
    at least width tiles, and raises an [IndexError] exactly when some row
    is shorter than that, for either value of [record_parent]; it raises
    no other exception. *)
Theorem neighbors_raises_on_short_row (t : grid) (p : option Board)
    (a : option string) (rp : bool) :
  (rows_long t ↔ ∃ nbs, neighbors (Board_init t p a) rp = Ret nbs) ∧
  (¬ rows_long t ↔ neighbors (Board_init t p a) rp = Raise IndexError).
Proof. rewrite <-(rows_ok_init t p a). apply neighbors_rows_ok_iff. Qed.

(** X5: [manhattan] returns a number exactly when every row of the board
    has at least width tiles, and that number is not negative; it raises
    an [IndexError] exactly when some row is shorter. It never divides by
    zero: on a board without rows the loops do not run. The property [f]
    then is the depth plus that number, or raises the same exception. *)
Theorem manhattan_raises_on_short_row (t : grid) (p : option Board)
    (a : option string) :
  (rows_long t ↔
   ∃ h, manhattan (Board_init t p a) = Ret h ∧ 0 ≤ h ∧
        f (Board_init t p a) = Ret (g (Board_init t p a) + h)) ∧
  (¬ rows_long t ↔ manhattan (Board_init t p a) = Raise IndexError) ∧
  (¬ rows_long t ↔ f (Board_init t p a) = Raise IndexError).
Proof.
  rewrite <-(rows_ok_init t p a).
  destruct (manhattan_rows_ok_iff (Board_init t p a)) as [Hret Hraise].
  split; [|split; [done|]].
  - rewrite Hret. split.
    + intros Hh. exists (manhattan_sum (Board_init t p a)).
      split; [done|]. split; [apply manhattan_sum_nonneg|].
      unfold f. by rewrite Hh.
    + intros (h & Hh & _). apply Hret. by eapply manhattan_Ret_rows_ok.
  - rewrite Hraise. unfold f.
    destruct (manhattan (Board_init t p a)); simpl; naive_solver.
Qed.
(** ** Successor generation without parent links, and undoing a move *)

Lemma elem_of_blanks (t : grid) (c : nat * nat) :
  c ∈ blanks t ↔
  cell t c.1 c.2 = Some 0 ∧ (c.1 < length t)%nat ∧ (c.2 < length t)%nat.
Proof.
  unfold blanks. rewrite list_elem_of_filter. destruct c as [i j].
  by rewrite elem_of_cells.
Qed.

(** X6: [neighbors()] without [record_parent] ends as
    [neighbors(record_parent=True)] does, and its children are the same
    boards stripped of their links: the same tiles in the same order, but
    no parent, no action and depth 0. *)
Theorem neighbors_without_parent (b : Board) :
  rel_res
    (λ plain linked,
       plain = (λ c, Board_init (tiles c) None None) <$> linked)
    (neighbors b false) (neighbors b true).
Proof.
  rewrite !neighbors_scan. apply for_each_rel; [|done].
  intros s1 s2 [i j] _ ->. simpl. rewrite !neighbors_cell_moves.
  destruct (getitem2 (tiles b) i j) as [v| |]; simpl; [|done..].
  case_decide; [|done].
  apply for_each_rel; [|done].
  intros n1 n2 [[i' j'] act] _ ->. simpl. unfold append_swapped.
  destruct (swap_assign (tiles b) i' j' i j); simpl; [|done..].
  by rewrite fmap_app.
Qed.

(** The tiles of the children, for either value of the flag. *)
Lemma neighbors_tiles (b : Board) rp nbs :
  width b = length (tiles b) → neighbors b rp = Ret nbs →
  tiles <$> nbs =
  blanks (tiles b) ≫=
    λ c, (λ m : nat * nat * string, exchange (tiles b) (m.1.1, m.1.2) c)
           <$> moves_at (width b) c.1 c.2.
Proof.
  intros Hw Hnbs.
  pose proof (neighbors_Ret_rows_ok _ _ _ Hnbs) as Hok.
  pose proof (neighbors_tiles_ext b b rp true eq_refl eq_refl) as Hrel.
  rewrite Hnbs, neighbors_by_blanks in Hrel by done. simpl in Hrel.
  rewrite Hrel. generalize (blanks (tiles b)). intros cs.
  induction cs as [|c cs IH]; [done|].
  change (fmap tiles ((c :: cs) ≫= ?k)) with (tiles <$> (k c ++ (cs ≫= k))).
  rewrite fmap_app, IH, <-list_fmap_compose. done.
Qed.

Lemma elem_of_neighbors_tiles (b : Board) rp nbs (t' : grid) :
  width b = length (tiles b) → neighbors b rp = Ret nbs →
  t' ∈ tiles <$> nbs ↔
  ∃ c m, c ∈ blanks (tiles b) ∧ m ∈ moves_at (width b) c.1 c.2 ∧
         t' = exchange (tiles b) (m.1.1, m.1.2) c.
Proof.
  intros Hw Hnbs. rewrite (neighbors_tiles b rp nbs Hw Hnbs).
  rewrite list_elem_of_bind. split.
  - intros (c & (m & -> & Hm)%list_elem_of_fmap & Hc). eauto.
  - intros (c & m & Hc & Hm & ->). exists c. split; [|done].
    apply list_elem_of_fmap. eauto.
Qed.

(** The cell that a move comes from is a move away from its target. *)
Lemma moves_at_back (w i j i' j' : nat) act :
  (i', j', act) ∈ moves_at w i j → (i < w)%nat → (j < w)%nat →
  ∃ act', (i, j, act') ∈ moves_at w i' j'.
Proof.
  unfold moves_at. intros Hin Hi Hj.
  repeat (apply elem_of_app in Hin as [Hin|Hin]);
    case_decide; try (by apply elem_of_nil in Hin);
    apply list_elem_of_singleton in Hin; simplify_eq.
  - exists "Up". rewrite (decide_True (P := (i - 1 + 1 < w)%nat)) by lia.
    apply elem_of_app; right. apply elem_of_app; left.
    apply list_elem_of_singleton. repeat f_equal. lia.
  - exists "Down". rewrite (decide_True (P := (1 ≤ i + 1)%nat)) by lia.
    apply elem_of_app; left.
    apply list_elem_of_singleton. repeat f_equal. lia.
  - exists "Left". rewrite (decide_True (P := (j - 1 + 1 < w)%nat)) by lia.
    do 3 (apply elem_of_app; right).
    apply list_elem_of_singleton. repeat f_equal. lia.
  - exists "Right". rewrite (decide_True (P := (1 ≤ j + 1)%nat)) by lia.
    do 2 (apply elem_of_app; right). apply elem_of_app; left.
    apply list_elem_of_singleton. repeat f_equal. lia.
Qed.

Lemma moves_at_adjacent (w i j i' j' : nat) act :
  (i', j', act) ∈ moves_at w i j → adjacent (i', j') (i, j).
Proof.
  unfold moves_at, adjacent. intros Hin. simpl.
  repeat (apply elem_of_app in Hin as [Hin|Hin]);
    case_decide; try (by apply elem_of_nil in Hin);
    apply list_elem_of_singleton in Hin; simplify_eq; lia.
Qed.

Lemma moves_at_nonempty (w i j : nat) :
  (2 ≤ w)%nat → (i < w)%nat → moves_at w i j ≠ [].
Proof.
  intros Hw Hi. unfold moves_at.
  destruct (decide (1 ≤ i)%nat); [done|].
  rewrite decide_True by lia. done.
Qed.

Lemma exchange_back (t : grid) c1 c2 :
  is_Some (cell t c1.1 c1.2) → is_Some (cell t c2.1 c2.2) →
  exchange (exchange t c1 c2) c2 c1 = t.
Proof.
  intros H1 H2. apply grid_ext; [by rewrite !shape_exchange|].
  assert (∀ c, is_Some (cell t c.1 c.2) →
               is_Some (cell (exchange t c1 c2) c.1 c.2)) as Hsome.
  { intros c Hc. rewrite cell_exchange by done.
    repeat case_decide; done. }
  intros i j. rewrite cell_exchange by auto.
  rewrite !cell_exchange by done.
  destruct c1 as [i1 j1], c2 as [i2 j2]. simpl.
  repeat case_decide; simplify_eq/=; done.
Qed.

(** The board that a move leads to has the blank where the move came
    from, and the move back is among its moves. *)
Lemma child_tiles_facts (t : grid) (c : nat * nat) (m : nat * nat * string) :
  rows_long t → c ∈ blanks t → m ∈ moves_at (length t) c.1 c.2 →
  shape (exchange t (m.1.1, m.1.2) c) = shape t ∧
  (m.1.1, m.1.2) ∈ blanks (exchange t (m.1.1, m.1.2) c) ∧
  (∃ act', (c.1, c.2, act') ∈ moves_at (length t) m.1.1 m.1.2) ∧
  exchange (exchange t (m.1.1, m.1.2) c) c (m.1.1, m.1.2) = t.
Proof.
  intros Hrows (Hc & Hi & Hj)%elem_of_blanks Hm.
  destruct c as [i j], m as [[i' j'] act]. simpl in *.
  destruct (elem_of_moves_at _ _ _ _ _ _ Hm Hi Hj) as [Hi' Hj'].
  assert (rows_ok (Board_init t None None)) as Hok by by apply rows_ok_init.
  pose proof (rows_ok_cell _ i' j' Hok Hi' Hj') as Hsome. simpl in Hsome.
  split; [apply shape_exchange|]. split; [|split].
  - apply elem_of_blanks. rewrite length_exchange. simpl.
    split; [|done]. rewrite cell_exchange by (simpl; eauto).
    by rewrite decide_True.
  - by eapply moves_at_back.
  - apply exchange_back; simpl; eauto.
Qed.

Lemma rows_long_shape (t t' : grid) :
  shape t' = shape t → rows_long t → rows_long t'.
Proof.
  intros Hshape Hrows.
  apply (rows_ok_init t' None None).
  apply (rows_ok_shape (Board_init t None None)); [done| |by apply rows_ok_init].
  simpl. apply (f_equal length) in Hshape. unfold shape in Hshape.
  by rewrite !length_fmap in Hshape.
Qed.

Lemma shape_length (t t' : grid) : shape t' = shape t → length t' = length t.
Proof.
  intros Hshape. apply (f_equal length) in Hshape. unfold shape in Hshape.
  by rewrite !length_fmap in Hshape.
Qed.

Lemma undo_move (b nb x : Board) (rp rp' : bool) (nbs : list Board) :
  width b = length (tiles b) → neighbors b rp = Ret nbs → nb ∈ nbs →
  tiles x = tiles nb → width x = width nb →
  ∃ nbs' back,
    neighbors x rp' = Ret nbs' ∧ back ∈ nbs' ∧
    tiles back = tiles b ∧ width back = width b.
Proof.
  intros Hwb Hnbs Hnb Hx Hwx.
  pose proof (neighbors_Ret_rows_ok _ _ _ Hnbs) as Hok.
  assert (tiles nb ∈ tiles <$> nbs) as Hin by by apply list_elem_of_fmap_2.
  apply (elem_of_neighbors_tiles b _ _ _ Hwb Hnbs) in Hin
    as (c & m & Hc & Hm & Htiles).
  assert (rows_long (tiles b)) as Hrows.
  { by apply rows_ok_rows_long. }
  rewrite Hwb in Hm.
  destruct (child_tiles_facts (tiles b) c m)
    as (Hshape & Hblank & [act' Hback] & Hundo); [done..|].
  assert (is_child b rp nb) as Hchild.
  { pose proof (neighbors_children _ _ _ Hnbs) as Hall.
    by eapply Forall_forall in Hall. }
  apply is_child_tiles in Hchild as (Hw & Hlen & Hsh & _).
  assert (width x = length (tiles x)) as Hwx' by congruence.
  assert (rows_ok x) as Hokx.
  { apply (rows_ok_shape b); [congruence|congruence|done]. }
  destruct (neighbors_total x rp' Hokx) as [nbs' Hnbs'].
  assert (tiles b ∈ tiles <$> nbs') as (back & Hback' & Hin')%list_elem_of_fmap.
  { apply (elem_of_neighbors_tiles x _ _ _ Hwx' Hnbs').
    exists (m.1.1, m.1.2), (c.1, c.2, act').
    rewrite Hwx, Hw, Hlen, Hx. simpl.
    split; [by rewrite Htiles|]. split; [done|].
    rewrite Htiles. by destruct c. }
  exists nbs', back. split; [done|]. split; [done|]. split; [done|].
  assert (is_child x rp' back) as Hchild.
  { pose proof (neighbors_children _ _ _ Hnbs') as Hall.
    by eapply Forall_forall in Hall. }
  apply is_child_tiles in Hchild as (Hw' & Hlen' & _). congruence.
Qed.

(** X7: every move can be undone. If [nb] is one of the neighbors of a
    board, then [neighbors] of [nb] returns a list too, and one of its
    boards has the tiles of the board that [nb] came from. *)
Theorem moves_can_be_undone (t : grid) (p : option Board) (a : option string)
    (rp rp' : bool) (nbs : list Board) (nb : Board) :
  neighbors (Board_init t p a) rp = Ret nbs → nb ∈ nbs →
  ∃ nbs' back,
    neighbors nb rp' = Ret nbs' ∧ back ∈ nbs' ∧ tiles back = t.
Proof.
  intros Hnbs Hnb.
  destruct (undo_move (Board_init t p a) nb nb rp rp' nbs eq_refl Hnbs Hnb
              eq_refl eq_refl) as (nbs' & back & Hnbs' & Hback & Htiles & _).
  eauto.
Qed.

Lemma moves_can_be_undone_witness :
  ∃ nbs nb,
    neighbors (Board_init [[1;2];[0;3]] None None) true = Ret nbs ∧
    nb ∈ nbs ∧
    ∃ nbs' back,
      neighbors nb false = Ret nbs' ∧ back ∈ nbs' ∧
      tiles back = [[1;2];[0;3]].
Proof.
  set (root := Board_init [[1;2];[0;3]] None None).
  set (nb := Board_init [[0;2];[1;3]] (Some root) (Some "Down")).
  set (nb2 := Board_init [[1;2];[3;0]] (Some root) (Some "Left")).
  assert (neighbors root true = Ret [nb; nb2]) as Hrun by reflexivity.
  assert (nb ∈ [nb; nb2]) as Hin by (by left).
  exists [nb; nb2], nb. split; [exact Hrun|]. split; [exact Hin|].
  exact (moves_can_be_undone [[1;2];[0;3]] None None true false _ _ Hrun Hin).
Defined.
(** ** [shuffle] *)

Lemma choice_nil {A : Type} (r : nat) : choice r (@nil A) = Raise IndexError.
Proof. reflexivity. Qed.

Lemma choice_total {A : Type} (r : nat) (seq : list A) :
  seq ≠ [] → ∃ x, choice r seq = Ret x ∧ x ∈ seq.
Proof.
  intros Hne. unfold choice.
  assert (length seq ≠ 0%nat) as Hlen by by destruct seq.
  rewrite decide_False by done.
  destruct (lookup_lt_is_Some_2 seq (r `mod` length seq)) as [x Hx].
  { by apply Nat.mod_upper_bound. }
  exists x. split; [by apply getitem_Some|]. by eapply list_elem_of_lookup_2.
Qed.

Lemma bind_nonempty {A B : Type} (k : A → list B) (xs : list A) x :
  x ∈ xs → k x ≠ [] → xs ≫= k ≠ [].
Proof.
  intros Hx Hk Hnil. apply Hk. apply elem_of_nil_inv. intros y Hy.
  assert (y ∈ xs ≫= k) as Hin by (apply list_elem_of_bind; eauto).
  rewrite Hnil in Hin. by apply elem_of_nil in Hin.
Qed.

(** What [puzzle.neighbors()] returns on a board where the walk can go
    on. *)
Lemma walk_step (b : Board) :
  width b = length (tiles b) → walkable (tiles b) →
  ∃ nbs, neighbors b false = Ret nbs ∧ nbs ≠ [] ∧
    ∀ nb, nb ∈ nbs →
      nb = Board_init (tiles nb) None None ∧ walkable (tiles nb) ∧
      shape (tiles nb) = shape (tiles b) ∧
      concat (tiles nb) ≡ₚ concat (tiles b).
Proof.
  intros Hw (Hwide & Hrows & Hblank).
  destruct (neighbors_total b false) as [nbs Hnbs].
  { by apply rows_ok_rows_long. }
  exists nbs. split; [done|]. split.
  - intros ->. pose proof (neighbors_tiles b false [] Hw Hnbs) as Hnil.
    destruct (blanks (tiles b)) as [|c cs] eqn:Hcs; [done|].
    assert (c ∈ blanks (tiles b)) as (_ & Hi & _)%elem_of_blanks
      by (rewrite Hcs; by left).
    symmetry in Hnil. revert Hnil. apply (bind_nonempty _ _ c); [by left|].
    intros Hmoves%fmap_nil_inv. revert Hmoves.
    apply moves_at_nonempty; lia.
  - intros nb Hnb.
    assert (is_child b false nb) as Hchild.
    { pose proof (neighbors_children _ _ _ Hnbs) as Hall.
      by eapply Forall_forall in Hall. }
    pose proof (is_child_tiles _ _ _ Hchild) as (Hwnb & Hlen & Hshape & Hperm).
    split.
    { destruct Hchild as (i1 & j1 & i2 & j2 & tmp & act & _ & ->). done. }
    split; [|done].
    split; [lia|]. split; [by eapply rows_long_shape|].
    assert (tiles nb ∈ tiles <$> nbs) as Hin by by apply list_elem_of_fmap_2.
    apply (elem_of_neighbors_tiles b _ _ _ Hw Hnbs) in Hin
      as (c & m & Hc & Hm & Htiles).
    rewrite Hw in Hm.
    destruct (child_tiles_facts (tiles b) c m) as (_ & Hin & _); [done..|].
    rewrite Htiles. intros Hnil. rewrite Hnil in Hin.
    by apply elem_of_nil in Hin.
Qed.

(** The loop of [shuffle], from a board where the walk can go on: each
    iteration takes one step of successor generation. *)
Lemma shuffle_loop (rand : nat → nat) (ks : list Z) (b : Board) :
  width b = length (tiles b) → walkable (tiles b) →
  ∃ puzzle,
    for_each ks
      (λ puzzle k,
         nbs ← neighbors puzzle false; choice (rand (Z.to_nat k)) nbs) b
    = Ret puzzle ∧
    nsteps successor (length ks) b puzzle ∧
    width puzzle = length (tiles puzzle) ∧ walkable (tiles puzzle) ∧
    shape (tiles puzzle) = shape (tiles b) ∧
    concat (tiles puzzle) ≡ₚ concat (tiles b) ∧
    (ks ≠ [] → puzzle = Board_init (tiles puzzle) None None).
Proof.
  revert b. induction ks as [|k ks IH]; intros b Hw Hwalk.
  - exists b. split; [done|]. split; [constructor|]. done.
  - destruct (walk_step b Hw Hwalk) as (nbs & Hnbs & Hne & Hall).
    destruct (choice_total (rand (Z.to_nat k)) nbs Hne) as (nb & Hnb & Hin).
    destruct (Hall nb Hin) as (Hplain & Hwalk' & Hshape & Hperm).
    assert (width nb = length (tiles nb)) as Hw' by by rewrite Hplain.
    destruct (IH nb Hw' Hwalk')
      as (puzzle & Hrun & Hsteps & Hwp & Hwalkp & Hshp & Hpp & Hplainp).
    exists puzzle. cbn [for_each]. rewrite Hnbs, ret_bind, Hnb, ret_bind.
    split; [done|]. split.
    { eapply nsteps_l; [|done]. by exists false, nbs. }
    split; [done|]. split; [done|]. split; [congruence|].
    split; [by rewrite Hpp|].
    intros _. destruct ks as [|k' ks]; [|by apply Hplainp].
    simpl in Hrun. by simplify_eq.
Qed.

Lemma rangeZ_nil (num : Z) : num ≤ 0 → rangeZ num = [].
Proof. intros Hnum. unfold rangeZ. by apply seqZ_nil. Qed.

Lemma rangeZ_cons (num : Z) : 0 < num → rangeZ num = 0 :: seqZ 1 (num - 1).
Proof.
  intros Hnum. unfold rangeZ. rewrite seqZ_cons by done.
  do 2 f_equal. 
Qed.

Lemma shuffle_from_walkable (rand : nat → nat) (b : Board) (num : Z) :
  width b = length (tiles b) → walkable (tiles b) →
  ∃ puzzle,
    shuffle rand b num = Ret puzzle ∧
    nsteps successor (Z.to_nat num) b puzzle ∧
    width puzzle = length (tiles puzzle) ∧ walkable (tiles puzzle) ∧
    shape (tiles puzzle) = shape (tiles b) ∧
    concat (tiles puzzle) ≡ₚ concat (tiles b) ∧
    puzzle = (if decide (0 < num) then Board_init (tiles puzzle) None None
              else b).
Proof.
  intros Hw Hwalk. unfold shuffle.
  destruct (shuffle_loop rand (rangeZ num) b Hw Hwalk)
    as (puzzle & Hrun & Hsteps & Hwp & Hwalkp & Hshp & Hpp & Hplain).
  exists puzzle. split; [done|]. split.
  { unfold rangeZ in Hsteps. by rewrite length_seqZ in Hsteps. }
  split; [done|]. split; [done|]. split; [done|]. split; [done|].
  case_decide as Hnum.
  - apply Hplain. by rewrite rangeZ_cons.
  - rewrite rangeZ_nil in Hrun by lia. simpl in Hrun. by simplify_eq.
Qed.



(** The first iteration of the loop, when there is one. *)
Lemma shuffle_first (rand : nat → nat) (b : Board) (num : Z) :
  0 < num →
  shuffle rand b num =
  (nbs ← neighbors b false; choice (rand 0%nat) nbs) ≫=
    for_each (seqZ 1 (num - 1))
      (λ puzzle k,
         nbs ← neighbors puzzle false; choice (rand (Z.to_nat k)) nbs).
Proof. intros Hnum. unfold shuffle. by rewrite rangeZ_cons. Qed.

Lemma neighbors_none (b : Board) rp nbs :
  width b = length (tiles b) → neighbors b rp = Ret nbs →
  (length (tiles b) ≤ 1)%nat ∨ blanks (tiles b) = [] → nbs = [].
Proof.
  intros Hw Hnbs Hcase. apply (fmap_nil_inv tiles).
  rewrite (neighbors_tiles b rp nbs Hw Hnbs).
  apply elem_of_nil_inv. intros t' (c & Hin & Hc)%list_elem_of_bind.
  destruct Hcase as [Hlen|Hnil]; [|rewrite Hnil in Hc; by apply elem_of_nil in Hc].
  apply list_elem_of_fmap in Hin as (m & _ & Hm).
  apply elem_of_blanks in Hc as (_ & Hi & Hj).
  assert (c.1 = 0 ∧ c.2 = 0)%nat as [H1 H2] by lia.
  assert (width b = 1%nat) as Hw1 by lia. rewrite Hw1, H1, H2 in Hm.
  by apply elem_of_nil in Hm.
Qed.

(** X9: for [num > 0], [shuffle(num)] returns a board exactly when the
    board is at least 2 wide, has rows of at least width tiles and a blank
    inside the scanned window. Otherwise it raises an [IndexError]: from
    [neighbors] when a row is too short, from [random.choice] when
    [neighbors] returns the empty list (a board of width 1, or a board
    without a blank). *)
Theorem shuffle_raises_iff (rand : nat → nat) (t : grid) (p : option Board)
    (a : option string) (num : Z) :
  0 < num →
  (walkable t ↔ ∃ puzzle, shuffle rand (Board_init t p a) num = Ret puzzle) ∧
  (¬ walkable t ↔ shuffle rand (Board_init t p a) num = Raise IndexError).
Proof.
  intros Hnum.
  assert (walkable t →
          ∃ puzzle, shuffle rand (Board_init t p a) num = Ret puzzle) as Hwalk.
  { intros Hwalk.
    destruct (shuffle_from_walkable rand (Board_init t p a) num eq_refl Hwalk)
      as (puzzle & Hrun & _). eauto. }
  assert (¬ walkable t →
          shuffle rand (Board_init t p a) num = Raise IndexError) as Hno.
  { intros Hnot. rewrite shuffle_first by done.
    destruct (neighbors_rows_ok_iff (Board_init t p a) false) as [Hret Hraise].
    destruct (neighbors (Board_init t p a) false) as [nbs|e|] eqn:Hnbs.
    - assert (rows_long t) as Hrows.
      { apply (rows_ok_init t p a), Hret. eauto. }
      assert (nbs = []) as ->; [|done].
      apply (neighbors_none (Board_init t p a) false nbs eq_refl Hnbs). simpl.
      destruct (decide (length t ≤ 1)%nat); [by left|right].
      destruct (blanks t) eqn:Hb; [done|]. destruct Hnot.
      split; [lia|]. split; [done|]. by rewrite Hb.
    - simpl. f_equal. by apply (raises_only_neighbors (Board_init t p a) false).
    - by destruct (neighbors_no_fuel (Board_init t p a) false). }
  split.
  - split; [done|]. intros [puzzle Hrun].
    destruct (decide (2 ≤ length t)%nat) as [Hwide|Hwide];
      [destruct (decide (blanks t = [])) as [Hb|Hb]|].
    + rewrite Hno in Hrun; [done|]. intros (_ & _ & Hne). by apply Hne.
    + split; [done|]. split; [|done].
      destruct (neighbors_rows_ok_iff (Board_init t p a) false) as [Hret Hraise].
      apply (rows_ok_init t p a), Hret.
      rewrite shuffle_first in Hrun by done. inv_bind Hrun. inv_bind Ha. eauto.
    + rewrite Hno in Hrun; [done|]. intros (Hw & _ & _). by apply Hwide.
  - split; [done|]. intros Hrun Hw. apply Hwalk in Hw as [puzzle Hp].
    congruence.
Qed.

Lemma shuffle_raises_iff_witness :
  0 < 1 ∧ ¬ walkable [[0]] ∧
  shuffle (λ k, k) (Board_init [[0]] None None) 1 = Raise IndexError.
Proof.
  split; [lia|].
  assert (¬ walkable [[0]]) as Hno by (intros [Hw _]; simpl in Hw; lia).
  split; [exact Hno|].
  exact (proj1 (proj2
    (shuffle_raises_iff (λ k, k) [[0]] None None 1 ltac:(lia))) Hno).
Defined.
(** ** A shuffled goal board is solved by the search *)

(** Walking back: from a board with the tiles of the end of a walk, the
    search moves lead to a board with the tiles of its start. *)
Lemma successors_undo (b b' : Board) :
  rtc successor b b' → width b = length (tiles b) →
  ∀ x, tiles x = tiles b' → width x = width b' →
       ∃ y, rtc step x y ∧ tiles y = tiles b ∧ width y = width b.
Proof.
  induction 1 as [b|b b1 b' Hstep _ IH]; intros Hw x Hx Hwx.
  - exists x. split; [apply rtc_refl|done].
  -
    pose proof Hstep as (rp & nbs & Hnbs & Hin).
    apply successor_child in Hstep as [rp0 Hchild].
    apply is_child_tiles in Hchild as (Hw1 & _).
    destruct (IH Hw1 x Hx Hwx) as (y1 & Hreach & Hy1 & Hwy1).
    destruct (undo_move b b1 y1 rp true nbs Hw Hnbs Hin Hy1 Hwy1)
      as (nbs' & back & Hnbs' & Hback & Htiles & Hwidth).
    exists back. split; [|done]. eapply rtc_r; [done|]. by exists nbs'.
Qed.

Lemma make_goal_facts (s : Z) :
  2 ≤ s →
  ∃ goal, make_goal s = Ret goal ∧ length goal = Z.to_nat s ∧
    walkable goal ∧ is_solved (Board_init goal None None) = true ∧
    permutation_tiles (Board_init goal None None).
Proof.
  intros Hs. pose proof (make_goal_Ret s) as Hgoal.
  pose proof (make_goal_cell s) as Hcell. revert Hgoal Hcell.
  generalize ((λ i, (λ j, goal_value s (i * s + j)) <$> rangeZ s) <$> rangeZ s).
  intros goal Hgoal Hcell. exists goal. split; [done|].
  destruct (make_goal_concat s goal ltac:(lia) Hgoal) as [Hcat Hlen].
  assert (length goal = Z.to_nat s) as Hlen' by lia.
  split; [done|].
  assert (Forall (λ row, length row = Z.to_nat s) goal) as Hrows.
  { rewrite make_goal_Ret in Hgoal. injection Hgoal as <-.
    apply Forall_fmap, Forall_forall. intros i _. simpl.
    unfold rangeZ. by rewrite length_fmap, length_seqZ. }
  split; [|split].
  - split; [lia|]. split.
    + unfold rows_long. rewrite Hlen'.
      eapply Forall_impl; [exact Hrows|]. simpl. intros row ->. done.
    + intros Hnil.
      assert ((Z.to_nat (s - 1), Z.to_nat (s - 1)) ∈ blanks goal) as Hin.
      { apply elem_of_blanks. simpl. rewrite Hcell by lia.
        split; [|lia]. f_equal. unfold goal_value. case_decide; nia. }
      rewrite Hnil in Hin. by apply elem_of_nil in Hin.
  - apply is_solved_spec. unfold repr, iter. cbn [tiles width Board_init].
    rewrite Hcat, Hlen'. replace (Z.of_nat (Z.to_nat s) ^ 2) with (s * s) by lia.
    apply join_str_snoc, range_1_nonempty. nia.
  - unfold permutation_tiles. cbn [tiles width Board_init].
    rewrite Hcat, Hlen'. replace (Z.of_nat (Z.to_nat s) ^ 2) with (s * s) by lia.
    apply solved_layout_perm. nia.
Qed.

Lemma shuffled_goal (rand : nat → nat) (s num : Z) :
  2 ≤ s →
  ∃ goal puzzle,
    make_goal s = Ret goal ∧
    shuffle rand (Board_init goal None None) num = Ret puzzle ∧
    Z.of_nat (width puzzle) = s ∧ parent puzzle = None ∧
    permutation_tiles puzzle ∧
    ∃ N, ∀ n, (N ≤ n)%nat →
      ∃ p solved,
        solve n puzzle = Ret (Some p) ∧ head p = Some puzzle ∧
        last p = Some solved ∧ is_solved solved = true ∧
        Z.of_nat (length p) = g solved + 1.
Proof.
  intros Hs.
  destruct (make_goal_facts s Hs)
    as (goal & Hgoal & Hlen & Hwalk & Hsolved & Hperm).
  destruct (shuffle_from_walkable rand (Board_init goal None None) num
              eq_refl Hwalk)
    as (puzzle & Hrun & Hsteps & Hw & _ & Hshape & Hpp & Hplain).
  cbn [tiles Board_init] in *.
  exists goal, puzzle. split; [done|]. split; [done|].
  assert (length (tiles puzzle) = length goal) as Hlenp
    by by apply shape_length.
  assert (parent puzzle = None ∧ g puzzle = 0) as [Hparent Hg].
  { rewrite Hplain. by case_decide. }
  split; [lia|]. split; [done|]. split.
  { unfold permutation_tiles in *. cbn [tiles width Board_init] in Hperm.
    by rewrite Hpp, Hw, Hlenp. }
  assert (solvable puzzle) as Hsolvable.
  { destruct (successors_undo (Board_init goal None None) puzzle)
      with (x := puzzle) as (y & Hreach & Hy & Hwy); try done.
    { by eapply rtc_nsteps_2. }
    exists y. split; [done|]. rewrite <-Hsolved.
    apply is_solved_ext; [done|]. unfold repr, iter. by rewrite Hy. }
  exists (2 * size (key_universe (tiles puzzle)) + 2)%nat. intros n Hn.
  destruct (solve_complete puzzle n Hw Hsolvable)
    as (solved & Hsolve & Hreach & Hs'); [lia|].
  exists (path solved), solved. split; [done|].
  destruct (reachable_path puzzle solved Hparent Hreach)
    as (Hhead & Hlast & Hlength & _).
  split; [done|]. split; [done|]. split; [done|]. lia.
Qed.

(** X10: for every width [s >= 2], every number of steps and whatever
    numbers are drawn, the board [Board(make_goal(s)).shuffle(num)] has no
    parent, its tiles are a permutation of 0..s²-1, and [solve] on it
    returns (given enough loop iterations) a path that starts at that board
    and ends at a solved board, with one board more than the depth of the
    solved board. *)
Theorem shuffled_goal_is_solved (rand : nat → nat) (s num : Z) :
  2 ≤ s →
  ∃ goal puzzle,
    make_goal s = Ret goal ∧
    shuffle rand (Board_init goal None None) num = Ret puzzle ∧
    Z.of_nat (width puzzle) = s ∧ parent puzzle = None ∧
    permutation_tiles puzzle ∧
    ∃ N, ∀ n, (N ≤ n)%nat →
      ∃ p solved,
        solve n puzzle = Ret (Some p) ∧ head p = Some puzzle ∧
        last p = Some solved ∧ is_solved solved = true ∧
        Z.of_nat (length p) = g solved + 1.
Proof. apply shuffled_goal. Qed.

Lemma shuffled_goal_is_solved_witness :
  2 ≤ 2 ∧
  ∃ goal puzzle,
    make_goal 2 = Ret goal ∧
    shuffle (λ k, k) (Board_init goal None None) 3 = Ret puzzle ∧
    Z.of_nat (width puzzle) = 2 ∧ parent puzzle = None ∧
    permutation_tiles puzzle ∧
    ∃ N, ∀ n, (N ≤ n)%nat →
      ∃ p solved,
        solve n puzzle = Ret (Some p) ∧ head p = Some puzzle ∧
        last p = Some solved ∧ is_solved solved = true ∧
        Z.of_nat (length p) = g solved + 1.
Proof.
  split; [lia|]. apply (shuffled_goal_is_solved (λ k, k) 2 3). lia.
Defined.

(** ** The heap invariant of the priority queue *)

Lemma par_bounds (k : nat) :
  (2 * ((k - 1) `div` 2) ≤ k - 1 ∧ k - 1 ≤ 2 * ((k - 1) `div` 2) + 1)%nat.
Proof.
  pose proof (Nat.div_mod_eq (k - 1) 2) as Hdm.
  pose proof (Nat.mod_upper_bound (k - 1) 2 ltac:(lia)) as Hr. lia.
Qed.

Section heap_order.
Context {A : Type} (less : A → A → res bool) (key : A → Z) (P : A → Prop).
Hypothesis less_key :
  ∀ a b, P a → P b → less a b = Ret (bool_decide (key a < key b)).

Lemma heap_ordered_nil : heap_ordered key [].
Proof. intros k x y _ Hx. by rewrite lookup_nil in Hx. Qed.

Lemma heap_ordered_prefix (l : list A) (x : A) :
  heap_ordered key (l ++ [x]) → heap_ordered key l.
Proof.
  intros Hord k a b Hk Ha Hb.
  apply (Hord k a b Hk); by apply lookup_app_l_Some.
Qed.

(** The first element of a heap has the smallest key. *)
Lemma heap_ordered_min (heap : list A) (top : A) :
  heap_ordered key heap → heap !! 0%nat = Some top →
  ∀ x, x ∈ heap → key top ≤ key x.
Proof.
  intros Hord Htop x [k Hk]%list_elem_of_lookup_1. revert x Hk.
  induction (lt_wf k) as [k _ IH]. intros x Hk.
  destruct (decide (k = 0%nat)) as [->|Hne]; [by simplify_eq|].
  pose proof (par_bounds k) as Hpar.
  destruct (lookup_lt_is_Some_2 heap ((k - 1) `div` 2)) as [y Hy].
  { apply lookup_lt_Some in Hk. lia. }
  pose proof (IH ((k - 1) `div` 2)%nat ltac:(lia) y Hy) as Hy'.
  pose proof (Hord k x y ltac:(lia) Hk Hy). lia.
Qed.

(** Filling the hole with [newitem], once its parent is not larger. *)
Lemma hole_up_fill (heap : list A) (pos : nat) (newitem : A) :
  hole_up key heap pos newitem →
  ((0 < pos)%nat →
   ∀ y, heap !! ((pos - 1) `div` 2)%nat = Some y → key y ≤ key newitem) →
  heap_ordered key (<[pos:=newitem]> heap).
Proof.
  intros (Ha & Hb & Hc) Hparent k x y Hk Hx Hy.
  pose proof (par_bounds k) as Hpar.
  apply list_lookup_insert_Some in Hx as [(Hkp & Hxn & _)|[Hkp Hx]];
    apply list_lookup_insert_Some in Hy as [(Hpp & Hyn & _)|[Hpp Hy]].
  - lia.
  - subst. apply Hparent; [lia|done].
  - subst. by eapply (Hc k).
  - by eapply (Ha k).
Qed.

(** One step of the loop of [_siftdown]: the parent moves into the hole. *)
Lemma hole_up_step (heap : list A) (pos : nat) (newitem parent : A) :
  hole_up key heap pos newitem → (0 < pos)%nat → (pos < length heap)%nat →
  heap !! ((pos - 1) `div` 2)%nat = Some parent →
  key newitem < key parent →
  hole_up key (<[pos:=parent]> heap) ((pos - 1) `div` 2)%nat newitem.
Proof.
  intros (Ha & Hb & Hnew) Hpos Hlen Hparent Hless.
  pose proof (par_bounds pos) as Hpp.
  pose proof (par_bounds ((pos - 1) `div` 2)) as Hppp.
  assert ((0 < (pos - 1) `div` 2)%nat →
          ∀ y, heap !! (((pos - 1) `div` 2 - 1) `div` 2)%nat = Some y →
               key y ≤ key parent) as Hgrand.
  { intros Hp y Hy. apply (Ha ((pos - 1) `div` 2)%nat); try done; lia. }
  assert (∀ c x, c ≠ pos → (0 < c)%nat →
                 ((c - 1) `div` 2)%nat = ((pos - 1) `div` 2)%nat →
                 heap !! c = Some x → key parent ≤ key x) as Hsibling.
  { intros c x Hc0 Hc1 Hc2 Hx. apply (Ha c); try done; [lia|congruence]. }
  split; [|split].
  - intros k x y Hk Hk1 Hk2 Hx Hy. pose proof (par_bounds k) as Hpk.
    apply list_lookup_insert_Some in Hx as [(Hkp & _)|[Hkp Hx]]; [congruence|].
    apply list_lookup_insert_Some in Hy as [(Hkpp & Hyn & _)|[Hkpp Hy]].
    + subst y. by apply (Hb k x parent).
    + by apply (Ha k).
  - intros c x y Hp' Hc Hc0 Hx Hy.
    apply list_lookup_insert_Some in Hy as [(Hyp & _)|[_ Hy]]; [lia|].
    apply list_lookup_insert_Some in Hx as [(Hcp & Hxn & _)|[Hcp Hx]].
    + subst x. by apply Hgrand.
    + pose proof (Hsibling c x ltac:(done) Hc0 Hc Hx).
      pose proof (Hgrand Hp' y Hy). lia.
  - intros c x Hc Hc0 Hx.
    apply list_lookup_insert_Some in Hx as [(Hcp & Hxn & _)|[Hcp Hx]].
    + subst x. lia.
    + pose proof (Hsibling c x ltac:(done) Hc0 Hc Hx). lia.
Qed.

Lemma siftdown_loop_ordered n (heap : list A) (pos : nat) (newitem : A)
    (heap' : list A) :
  (pos < length heap)%nat → P newitem → Forall P heap →
  hole_up key heap pos newitem →
  siftdown_loop less n heap 0 pos newitem = Ret heap' →
  heap_ordered key heap'.
Proof.
  revert heap pos. induction n as [|n IH];
    intros heap pos Hlen Hnew HP Hhole; simpl.
  - case_decide as Hpos; [done|]. intros [_ ->]%setitem_Ret.
    apply hole_up_fill; [done|]. intros ?. lia.
  - case_decide as Hpos.
    + intros Hrun. inv_bind Hrun. apply getitem_Ret in Ha.
      assert (P a) as HPa by by eapply (Forall_lookup_1 P heap).
      rewrite less_key in Ha0 by done. injection Ha0 as <-.
      case_bool_decide as Hless.
      * inv_bind Hrun. apply setitem_Ret in Ha0 as [_ ->].
        pose proof (par_bounds pos) as Hpp.
        apply IH in Hrun; [done|rewrite length_insert; lia|done| |].
        -- by apply Forall_insert.
        -- by apply hole_up_step.
      * apply setitem_Ret in Hrun as [_ ->].
        apply hole_up_fill; [done|]. intros _ y Hy. simplify_eq. lia.
    + intros [_ ->]%setitem_Ret.
      apply hole_up_fill; [done|]. intros ?. lia.
Qed.

Lemma hole_up_last (heap : list A) (item : A) :
  heap_ordered key heap → hole_up key (heap ++ [item]) (length heap) item.
Proof.
  intros Hord. split; [|split].
  - intros k x y Hk Hk1 Hk2 Hx Hy. pose proof (par_bounds k) as Hpk.
    assert (k < length heap)%nat as Hlt.
    { apply lookup_lt_Some in Hx. rewrite length_app in Hx. simpl in Hx. lia. }
    rewrite lookup_app_l in Hx, Hy by lia. by apply (Hord k).
  - intros c x y _ Hc Hc0 Hx. pose proof (par_bounds c) as Hpc.
    apply lookup_lt_Some in Hx. rewrite length_app in Hx. simpl in Hx. lia.
  - intros c x Hc Hc0 Hx. pose proof (par_bounds c) as Hpc.
    apply lookup_lt_Some in Hx. rewrite length_app in Hx. simpl in Hx. lia.
Qed.

Lemma heappush_ordered (heap : list A) (item : A) (heap' : list A) :
  heap_ordered key heap → Forall P heap → P item →
  heappush less heap item = Ret heap' → heap_ordered key heap'.
Proof.
  unfold heappush, siftdown. intros Hord HP Hitem Hrun. inv_bind Hrun.
  rewrite length_app in Ha, Hrun. simpl in Ha, Hrun.
  replace (length heap + 1 - 1)%nat with (length heap) in Ha, Hrun by lia.
  apply getitem_Ret in Ha.
  rewrite lookup_app_r, Nat.sub_diag in Ha by lia. simpl in Ha.
  injection Ha as <-.
  eapply siftdown_loop_ordered; [| | | |exact Hrun].
  - rewrite length_app. simpl. lia.
  - done.
  - apply Forall_app. split; [done|]. by apply Forall_singleton.
  - by apply hole_up_last.
Qed.

(** One step of the loop of [_siftup]: the smaller child moves into the
    hole. *)
Lemma hole_down_step (heap : list A) (pos child : nat) (x : A) :
  hole_down key heap pos → (pos < length heap)%nat →
  (0 < child)%nat → ((child - 1) `div` 2)%nat = pos →
  heap !! child = Some x →
  (∀ c z, (0 < c)%nat → ((c - 1) `div` 2)%nat = pos → heap !! c = Some z →
          key x ≤ key z) →
  hole_down key (<[pos:=x]> heap) child.
Proof.
  intros (Ha & Hb) Hlen Hchild Hpar Hx Hsmall.
  pose proof (par_bounds child) as Hpc.
  split.
  - intros k a b Hk Hk1 Hk2 Hka Hkb. pose proof (par_bounds k) as Hpk.
    apply list_lookup_insert_Some in Hka as [(Hkp & Han & _)|[Hkp Hka]];
      apply list_lookup_insert_Some in Hkb as [(Hpp & Hbn & _)|[Hpp Hkb]].
    + lia.
    + subst a k. apply (Hb child x b); try done; lia.
    + subst b. by apply (Hsmall k).
    + by apply (Ha k).
  - intros c a b _ Hc Hc0 Hca Hcb. pose proof (par_bounds c) as Hpk.
    apply list_lookup_insert_Some in Hcb as [(_ & Hbn & _)|[Hne _]];
      [|congruence].
    apply list_lookup_insert_Some in Hca as [(Hcp & _)|[Hcp Hca]]; [lia|].
    subst b. apply (Ha c); [done|lia|lia|done|by rewrite Hc].
Qed.

Lemma siftup_loop_ordered n (heap : list A) (pos : nat) (heap' : list A)
    (pos' : nat) :
  (pos < length heap)%nat → Forall P heap → hole_down key heap pos →
  siftup_loop less n heap (length heap) pos = Ret (heap', pos') →
  hole_down key heap' pos' ∧ Forall P heap' ∧
  (pos' < length heap')%nat ∧ (length heap' ≤ 2 * pos' + 1)%nat.
Proof.
  revert heap pos. induction n as [|n IH]; intros heap pos Hlen HP Hhole;
    simpl.
  - case_decide; [done|]. intros [= -> ->].
    split; [done|]. split; [done|]. split; [done|lia].
  - case_decide as Hchild;
      [|intros [= -> ->]; split; [done|]; split; [done|]; split; [done|lia]].
    intros Hrun. inv_bind Hrun.
    apply getitem_Ret in Ha0. apply setitem_Ret in Ha1 as [_ ->].
    rewrite <-(length_insert heap pos a0) in Hrun.
    assert (P a0) as HPa0 by by eapply (Forall_lookup_1 P heap).
    apply IH in Hrun; [done| | |].
    + rewrite length_insert. by eapply lookup_lt_Some.
    + by apply Forall_insert.
    + assert (∀ c, (0 < c)%nat → ((c - 1) `div` 2)%nat = pos →
                   c = (2 * pos + 1)%nat ∨ c = (2 * pos + 1 + 1)%nat) as Hkids.
      { intros c Hc Hc'. pose proof (par_bounds c). lia. }
      assert (∀ c, c = (2 * pos + 1)%nat ∨ c = (2 * pos + 1 + 1)%nat →
                   ((c - 1) `div` 2)%nat = pos) as Hkids'.
      { intros c Hc. pose proof (par_bounds c). lia. }
      case_decide as Hright.
      * inv_bind Ha. apply getitem_Ret in Ha1, Ha2.
        assert (P a1 ∧ P a2) as [HP1 HP2].
        { split; by eapply (Forall_lookup_1 P heap). }
        rewrite less_key in Ha3 by done. injection Ha3 as <-.
        injection Ha as <-.
        case_bool_decide as Hless; simpl in *.
        -- apply hole_down_step; try done; [lia|by apply Hkids'; left|].
           intros c z Hc Hc' Hz. destruct (Hkids c Hc Hc'); simplify_eq; lia.
        -- apply hole_down_step; try done; [lia|by apply Hkids'; right|].
           intros c z Hc Hc' Hz. destruct (Hkids c Hc Hc'); simplify_eq; lia.
      * injection Ha as <-. simpl in *.
        apply hole_down_step; try done; [lia|by apply Hkids'; left|].
        intros c z Hc Hc' Hz. destruct (Hkids c Hc Hc') as [->| ->].
        -- simplify_eq. lia.
        -- apply lookup_lt_Some in Hz. lia.
Qed.

Lemma siftup_ordered (heap heap' : list A) :
  heap ≠ [] → Forall P heap → hole_down key heap 0 →
  siftup less heap 0 = Ret heap' → heap_ordered key heap'.
Proof.
  unfold siftup, siftdown. intros Hne HP Hhole Hrun. inv_bind Hrun.
  destruct a0 as [heap1 pos1]. inv_bind Hrun.
  apply getitem_Ret in Ha.
  assert (P a) as HPa by by eapply (Forall_lookup_1 P heap).
  apply siftup_loop_ordered in Ha0
    as ((Hda & Hdb) & HP1 & Hpos1 & Hleaf); [|by eapply lookup_lt_Some|done..].
  apply setitem_Ret in Ha1 as [_ ->]. apply getitem_Ret in Ha2.
  rewrite list_lookup_insert_eq in Ha2 by done. injection Ha2 as <-.
  eapply siftdown_loop_ordered; [| | | |exact Hrun].
  - by rewrite length_insert.
  - done.
  - by apply Forall_insert.
  - split; [|split].
    + intros k x y Hk Hk1 Hk2 Hx Hy.
      rewrite list_lookup_insert_ne in Hx, Hy by done. by apply (Hda k).
    + intros c x y Hp Hc Hc0 Hx Hy. pose proof (par_bounds c).
      pose proof (par_bounds pos1).
      rewrite list_lookup_insert_ne in Hx, Hy by lia. by apply (Hdb c).
    + intros c x Hc Hc0 Hx. pose proof (par_bounds c).
      apply lookup_lt_Some in Hx. rewrite length_insert in Hx. lia.
Qed.

(** [heappop] returns an element with the smallest key and leaves a heap. *)
Lemma heappop_ordered (heap : list A) (item : A) (heap' : list A) :
  heap_ordered key heap → Forall P heap →
  heappop less heap = Ret (item, heap') →
  heap_ordered key heap' ∧ ∀ x, x ∈ heap → key item ≤ key x.
Proof.
  intros Hord HP. unfold heappop.
  destruct (reverse heap) as [|lastelt rest] eqn:Hrev; [done|].
  assert (heap = reverse rest ++ [lastelt]) as Hheap.
  { by rewrite <-(reverse_involutive heap), Hrev, reverse_cons. }
  destruct (reverse rest) as [|returnitem tl] eqn:Hrest.
  - intros [= <- <-]. split; [apply heap_ordered_nil|].
    subst heap. simpl. intros x ->%list_elem_of_singleton. lia.
  - intros Hrun. inv_bind Hrun. simplify_eq.
    apply setitem_Ret in Ha as [_ ->]. split.
    + apply siftup_ordered in Ha0; [done|done| |].
      * apply Forall_app in HP as [HP Hlast].
        apply Forall_cons in Hlast as [Hlast _].
        apply Forall_cons in HP as [_ HP]. simpl. by constructor.
      * apply heap_ordered_prefix in Hord. split.
        -- intros k x y Hk Hk1 Hk2 Hx Hy.
           rewrite list_lookup_insert_ne in Hx, Hy by done. by apply (Hord k).
        -- intros c x y Hp. lia.
    + by apply (heap_ordered_min ((item :: tl) ++ [lastelt]) item).
Qed.
End heap_order.
(** ** The heuristic along a move *)

Lemma NoDup_cells (w : nat) : NoDup (cells w).
Proof.
  unfold cells, range. apply NoDup_bind; [| |apply NoDup_seq].
  - intros i1 i2 c _ _ (j1 & Hc1 & _)%list_elem_of_bind
      (j2 & Hc2 & _)%list_elem_of_bind.
    apply list_elem_of_singleton in Hc1, Hc2. congruence.
  - intros i _. apply NoDup_bind; [| |apply NoDup_seq].
    + intros j1 j2 c _ _ Hc1 Hc2.
      apply list_elem_of_singleton in Hc1, Hc2. congruence.
    + intros j _. apply NoDup_singleton.
Qed.

Lemma sumZ_cons (x : Z) (l : list Z) : sumZ (x :: l) = x + sumZ l.
Proof. reflexivity. Qed.

Lemma sumZ_ext {C : Type} (F G : C → Z) (L : list C) :
  (∀ x, x ∈ L → F x = G x) → sumZ (F <$> L) = sumZ (G <$> L).
Proof.
  induction L as [|x L IH]; intros Heq; [done|].
  rewrite !fmap_cons, !sumZ_cons, IH, (Heq x) by (try left; set_solver).
  done.
Qed.

(** Two sums over the same list whose terms differ at one element. *)
Lemma sumZ_one_change {C : Type} (F G : C → Z) (L : list C) (c : C) :
  NoDup L → c ∈ L → (∀ x, x ∈ L → x ≠ c → F x = G x) →
  sumZ (F <$> L) = sumZ (G <$> L) + (F c - G c).
Proof.
  induction 1 as [|x L Hx Hnodup IH]; intros Hc Heq.
  - by apply elem_of_nil in Hc.
  - rewrite !fmap_cons, !sumZ_cons.
    apply elem_of_cons in Hc as [->|Hc].
    + rewrite (sumZ_ext F G L); [lia|].
      intros y Hy. apply Heq; [by right|]. by intros ->.
    + rewrite IH, (Heq x); [lia|by left|by intros ->|done|].
      intros y Hy. apply Heq. by right.
Qed.

Lemma sumZ_two_changes {C : Type} `{EqDecision C} (F G : C → Z) (L : list C)
    (c1 c2 : C) :
  NoDup L → c1 ∈ L → c2 ∈ L → c1 ≠ c2 →
  (∀ x, x ∈ L → x ≠ c1 → x ≠ c2 → F x = G x) →
  sumZ (F <$> L) = sumZ (G <$> L) + (F c1 - G c1) + (F c2 - G c2).
Proof.
  intros Hnodup H1 H2 Hne Heq.
  set (H := λ x, if decide (x = c1) then F x else G x).
  assert (sumZ (F <$> L) = sumZ (H <$> L) + (F c2 - H c2)) as ->.
  { apply sumZ_one_change; [done..|]. intros x Hx Hx2. unfold H.
    case_decide; [done|]. by apply Heq. }
  assert (sumZ (H <$> L) = sumZ (G <$> L) + (H c1 - G c1)) as ->.
  { apply sumZ_one_change; [done..|]. intros x Hx Hx1. unfold H.
    by rewrite decide_False. }
  unfold H. rewrite decide_True by done. rewrite decide_False by done. lia.
Qed.

(** Moving the hole one cell changes the distance of a tile by one. *)
Lemma tile_distance_adjacent (w : nat) (c c' : nat * nat) (v : Z) :
  adjacent c' c → Z.abs (tile_distance w c v - tile_distance w c' v) = 1.
Proof. unfold adjacent, tile_distance. intros Hadj. lia. Qed.

Lemma exchange_blanks (t : grid) (c c' : nat * nat) :
  cell t c.1 c.2 = Some 0 → cell t c'.1 c'.2 = Some 0 →
  exchange t c' c = t.
Proof.
  intros Hc Hc'. apply grid_ext; [apply shape_exchange|].
  intros i j. rewrite cell_exchange by (rewrite ?Hc, ?Hc'; eauto).
  repeat case_decide; simplify_eq/=; congruence.
Qed.

(** The heuristic of a board and of one of its neighbors. *)
Lemma move_distance (b nb : Board) (rp : bool) (nbs : list Board) :
  width b = length (tiles b) → neighbors b rp = Ret nbs → nb ∈ nbs →
  rows_ok b ∧ rows_ok nb ∧ width nb = width b ∧
  (Z.abs (manhattan_sum nb - manhattan_sum b) = 1 ∨
   (manhattan_sum nb = manhattan_sum b ∧ tiles nb = tiles b)).
Proof.
  intros Hw Hnbs Hnb.
  pose proof (neighbors_Ret_rows_ok _ _ _ Hnbs) as Hok.
  assert (is_child b rp nb) as Hchild.
  { pose proof (neighbors_children _ _ _ Hnbs) as Hall.
    by eapply Forall_forall in Hall. }
  apply is_child_tiles in Hchild as (Hwnb & Hlen & Hshape & _).
  assert (width nb = width b) as Hww by congruence.
  assert (rows_ok nb) as Hoknb by by apply (rows_ok_shape b).
  split; [done|]. split; [done|]. split; [done|].
  assert (tiles nb ∈ tiles <$> nbs) as Hin by by apply list_elem_of_fmap_2.
  apply (elem_of_neighbors_tiles b _ _ _ Hw Hnbs) in Hin
    as ([i j] & [[i' j'] act] & Hc & Hm & Htiles).
  simpl in *.
  pose proof Hc as (Hblank & Hi & Hj)%elem_of_blanks. simpl in *.
  rewrite <-Hw in Hi, Hj.
  destruct (elem_of_moves_at _ _ _ _ _ _ Hm Hi Hj) as [Hi' Hj'].
  pose proof (moves_at_adjacent _ _ _ _ _ _ Hm) as Hadj.
  destruct (rows_ok_cell b i' j' Hok Hi' Hj') as [v Hv].
  assert ((i', j') ≠ (i, j)) as Hne.
  { unfold adjacent in Hadj. simpl in Hadj. intros [= -> ->]. lia. }
  assert (∀ x, cell (tiles nb) x.1 x.2 =
               if decide (x = (i', j')) then Some 0
               else if decide (x = (i, j)) then Some v
               else cell (tiles b) x.1 x.2) as Hcells.
  { intros [xi xj]. rewrite Htiles, cell_exchange by (simpl; eauto).
    simpl. repeat case_decide; congruence. }
  destruct (decide (v = 0)) as [->|Hv0].
  { right. assert (tiles nb = tiles b) as Heq.
    { rewrite Htiles. apply exchange_blanks; simpl; done. }
    split; [|done]. unfold manhattan_sum, cell_distance. by rewrite Heq, Hww. }
  left.
  assert (cell_distance nb (i', j') = 0) as E1.
  { pose proof (Hcells (i', j')) as H1. simpl in H1.
    rewrite decide_True in H1 by done.
    unfold cell_distance. simpl. rewrite H1. by rewrite decide_False by lia. }
  assert (cell_distance nb (i, j) = tile_distance (width b) (i, j) v) as E2.
  { pose proof (Hcells (i, j)) as H1. simpl in H1.
    rewrite decide_False in H1 by congruence.
    rewrite decide_True in H1 by done.
    unfold cell_distance. simpl. rewrite H1, Hww. by rewrite decide_True. }
  assert (cell_distance b (i', j') = tile_distance (width b) (i', j') v) as E3.
  { unfold cell_distance. simpl. rewrite Hv. by rewrite decide_True. }
  assert (cell_distance b (i, j) = 0) as E4.
  { unfold cell_distance. simpl. rewrite Hblank. by rewrite decide_False by lia. }
  unfold manhattan_sum. rewrite Hww.
  rewrite (sumZ_two_changes (cell_distance nb) (cell_distance b)
             (cells (width b)) (i', j') (i, j)).
  - rewrite E1, E2, E3, E4.
    pose proof (tile_distance_adjacent (width b) (i, j) (i', j') v Hadj). lia.
  - apply NoDup_cells.
  - by apply elem_of_cells.
  - by apply elem_of_cells.
  - done.
  - intros x _ Hx1 Hx2. unfold cell_distance. rewrite Hcells, Hww.
    by rewrite !decide_False by done.
Qed.


(** ** The heuristic never overestimates *)

Lemma square_shape (t t' : grid) (n : nat) :
  shape t' = shape t → Forall (λ row, length row = n) t →
  Forall (λ row, length row = n) t'.
Proof.
  intros Hshape Hsq.
  assert (Forall (λ k, k = n) (shape t')) as Hall.
  { rewrite Hshape. unfold shape. by apply Forall_fmap. }
  unfold shape in Hall. by apply Forall_fmap in Hall.
Qed.

Lemma square_rows_long (t : grid) :
  Forall (λ row, length row = length t) t → rows_long t.
Proof.
  intros Hsq. eapply Forall_impl; [exact Hsq|]. simpl. by intros row ->.
Qed.

(** The heuristic of a solved board with rows of width tiles is 0. *)
Lemma solved_manhattan_sum (b : Board) :
  width b = length (tiles b) →
  Forall (λ row, length row = width b) (tiles b) →
  is_solved b = true → manhattan_sum b = 0.
Proof.
  intros Hw Hsq Hsolved. apply manhattan_sum_zero. intros c Hc.
  by apply solved_distance_zero.
Qed.

(** Along [n] moves the heuristic falls by at most [n]. *)
Lemma moves_distance (n : nat) (b b' : Board) :
  nsteps step n b b' → width b = length (tiles b) →
  manhattan_sum b ≤ manhattan_sum b' + Z.of_nat n ∧
  g b' = g b + Z.of_nat n.
Proof.
  induction 1 as [b|n b b1 b' Hstep _ IH]; intros Hw; [lia|].
  pose proof Hstep as (nbs & Hnbs & Hin).
  destruct (move_distance b b1 true nbs Hw Hnbs Hin)
    as (_ & _ & _ & Hdist).
  apply step_child, is_child_true in Hstep as (_ & Hg & Hw1 & _).
  destruct (IH Hw1) as [Hle Hg']. lia.
Qed.

Lemma square_distance_bound (t : grid) (p : option Board) (a : option string)
    (n : nat) (goal : Board) :
  Forall (λ row, length row = length t) t →
  nsteps step n (Board_init t p a) goal → is_solved goal = true →
  manhattan (Board_init t p a) = Ret (manhattan_sum (Board_init t p a)) ∧
  0 ≤ manhattan_sum (Board_init t p a) ≤ Z.of_nat n ∧
  g goal = g (Board_init t p a) + Z.of_nat n.
Proof.
  intros Hsq Hsteps Hsolved.
  destruct (moves_distance n _ _ Hsteps eq_refl) as [Hle Hg].
  destruct (reachable_tiles (Board_init t p a) goal) as (Hw & Hww & Hshape & _);
    [unfold reachable; by eapply rtc_nsteps_2|done|].
  cbn [tiles width Board_init] in *.
  rewrite (solved_manhattan_sum goal) in Hle; [|done| |done].
  - split; [|split; [|done]].
    + apply manhattan_eq_sum, rows_ok_init. by apply square_rows_long.
    + pose proof (manhattan_sum_nonneg (Board_init t p a)). lia.
  - rewrite Hww. by eapply square_shape.
Qed.

(** X13: the heuristic is admissible. On a board with width rows of width
    tiles each, [manhattan] is at most the number of moves of any sequence
    of moves that leads from the board to a solved board. *)
Theorem manhattan_admissible (t : grid) (p : option Board)
    (a : option string) (n : nat) (goal : Board) :
  Forall (λ row, length row = length t) t →
  nsteps step n (Board_init t p a) goal → is_solved goal = true →
  ∃ h, manhattan (Board_init t p a) = Ret h ∧ 0 ≤ h ≤ Z.of_nat n.
Proof.
  intros Hsq Hsteps Hsolved.
  destruct (square_distance_bound t p a n goal Hsq Hsteps Hsolved)
    as (Hh & Hle & _).
  eauto.
Qed.

Lemma manhattan_admissible_witness :
  ∃ goal,
    Forall (λ row, length row = length [[1;2];[0;3]]) [[1;2];[0;3]] ∧
    nsteps step 1 (Board_init [[1;2];[0;3]] None None) goal ∧
    is_solved goal = true ∧
    ∃ h, manhattan (Board_init [[1;2];[0;3]] None None) = Ret h ∧
         0 ≤ h ≤ Z.of_nat 1.
Proof.
  set (root := Board_init [[1;2];[0;3]] None None).
  set (nb := Board_init [[0;2];[1;3]] (Some root) (Some "Down")).
  set (goal := Board_init [[1;2];[3;0]] (Some root) (Some "Left")).
  assert (Forall (λ row, length row = length [[1;2];[0;3]]) [[1;2];[0;3]])
    as Hsq by (repeat constructor).
  assert (nsteps step 1 root goal) as Hsteps.
  { apply nsteps_once. exists [nb; goal]. split; [reflexivity|].
    right. left. }
  assert (is_solved goal = true) as Hsolved by reflexivity.
  exists goal. split; [exact Hsq|]. split; [exact Hsteps|].
  split; [exact Hsolved|].
  exact (manhattan_admissible [[1;2];[0;3]] None None 1 goal Hsq Hsteps Hsolved).
Defined.

(** The moves that lead to a board that the search reaches, counted by its
    depth. *)
Lemma reachable_nsteps (root b : Board) :
  reachable root b → ∃ n, nsteps step n root b ∧ g b = g root + Z.of_nat n.
Proof.
  intros [n Hn]%rtc_nsteps_1. exists n. split; [done|].
  clear -Hn. induction Hn as [b|n b b1 b' Hstep _ IH]; [lia|].
  apply step_child, is_child_true in Hstep as (_ & Hg & _). lia.
Qed.

(** X14: the path that [solve] returns for a board with width rows of
    width tiles each has at least one board more than the Manhattan
    distance of the board: the search cannot undercut the heuristic. *)
Theorem solve_path_not_shorter_than_heuristic (t : grid) (n : nat)
    (p : list Board) :
  Forall (λ row, length row = length t) t →
  solve n (Board_init t None None) = Ret (Some p) →
  ∃ h, manhattan (Board_init t None None) = Ret h ∧
       h + 1 ≤ Z.of_nat (length p).
Proof.
  intros Hsq (goal & Hreach & Hsolved & ->)%solve_sound.
  destruct (reachable_nsteps _ _ Hreach) as (k & Hsteps & Hg).
  destruct (square_distance_bound t None None k goal Hsq Hsteps Hsolved)
    as (Hh & Hle & _).
  destruct (reachable_path (Board_init t None None) goal eq_refl Hreach)
    as (_ & _ & Hlen & _).
  exists (manhattan_sum (Board_init t None None)). split; [done|]. lia.
Qed.

Lemma solve_path_not_shorter_than_heuristic_witness :
  ∃ p,
    Forall (λ row, length row = length [[1;2;3];[4;0;6];[7;5;8]])
           [[1;2;3];[4;0;6];[7;5;8]] ∧
    solve 10 (Board_init [[1;2;3];[4;0;6];[7;5;8]] None None) = Ret (Some p) ∧
    ∃ h, manhattan (Board_init [[1;2;3];[4;0;6];[7;5;8]] None None) = Ret h ∧
         h + 1 ≤ Z.of_nat (length p).
Proof.
  assert (Forall (λ row, length row = length [[1;2;3];[4;0;6];[7;5;8]])
                 [[1;2;3];[4;0;6];[7;5;8]]) as Hsq by (repeat constructor).
  eexists.
  assert (solve 10 (Board_init [[1;2;3];[4;0;6];[7;5;8]] None None)
          = Ret (Some _)) as Hrun by (vm_compute; reflexivity).
  split; [exact Hsq|]. split; [exact Hrun|].
  exact (solve_path_not_shorter_than_heuristic _ _ _ Hsq Hrun).
Defined.

(** ** The returned path is a sequence of moves *)

Lemma chain_snoc {B : Type} (R : B → B → Prop) (p : list B) (b b' : B) :
  (∀ i x y, p !! i = Some x → p !! S i = Some y → R x y) →
  last p = Some b → R b b' →
  ∀ i x y, (p ++ [b']) !! i = Some x → (p ++ [b']) !! S i = Some y → R x y.
Proof.
  intros Hchain Hlast HR i x y Hx Hy.
  rewrite last_lookup in Hlast.
  destruct (decide (S i < length p)%nat) as [Hlt|Hge].
  - rewrite lookup_app_l in Hx by lia. rewrite lookup_app_l in Hy by lia.
    by eapply Hchain.
  - assert (S i = length p) as Hi.
    { apply lookup_lt_Some in Hy. rewrite length_app in Hy. simpl in Hy. lia. }
    rewrite lookup_app_l in Hx by lia.
    rewrite lookup_app_r, Hi, Nat.sub_diag in Hy by lia. simpl in Hy.
    replace (pred (length p)) with i in Hlast by lia. by simplify_eq.
Qed.

Lemma reachable_path_steps (root b : Board) :
  parent root = None → reachable root b →
  ∀ i x y, path b !! i = Some x → path b !! S i = Some y → step x y.
Proof.
  intros Hroot. unfold reachable. revert b.
  apply (rtc_ind_r (λ b, ∀ i x y, path b !! i = Some x →
                                  path b !! S i = Some y → step x y)).
  - rewrite path_root by done. intros i x y _ Hy. by destruct i.
  - intros b b' Hreach Hstep IH.
    pose proof Hstep as (Hp & _)%step_child%is_child_true.
    rewrite (path_child b b') by done.
    apply (chain_snoc step (path b) b b'); [done| |done].
    by apply (reachable_path root b).
Qed.

(** X15: the path that [solve] returns is a sequence of moves: each board
    [y] on it after the first is one of the boards that
    [neighbors(record_parent=True)] returns for the board [x] before it. It
    is the child for one of the moves of a blank of [x]: its tiles are
    those of [x] with the blank and the cell of the move exchanged, its
    action is the label of the move, its parent is [x] and its depth is one
    more than the depth of [x]. *)
Theorem solve_path_is_move_sequence (t : grid) (n : nat) (p : list Board)
    (i : nat) (x y : Board) :
  solve n (Board_init t None None) = Ret (Some p) →
  p !! i = Some x → p !! S i = Some y →
  (∃ nbs, neighbors x true = Ret nbs ∧ y ∈ nbs) ∧
  ∃ c m, cell (tiles x) c.1 c.2 = Some 0 ∧
         m ∈ moves_at (width x) c.1 c.2 ∧ y = child_of x c m.
Proof.
  intros (goal & Hreach & Hsolved & ->)%solve_sound Hx Hy.
  pose proof (reachable_path_steps (Board_init t None None) goal eq_refl
                Hreach i x y Hx Hy)
    as (nbs & Hnbs & Hin).
  split; [eauto|].
  assert (reachable (Board_init t None None) x) as Hrx.
  { assert (x ∈ path goal) as Hxin by by eapply list_elem_of_lookup_2.
    clear -Hreach Hxin. revert goal Hreach Hxin. apply (rtc_ind_r
      (λ goal, x ∈ path goal → reachable (Board_init t None None) x)).
    - rewrite path_root by done. intros ->%list_elem_of_singleton.
      apply rtc_refl.
    - intros b b' Hreach Hstep IH.
      pose proof Hstep as (Hp & _)%step_child%is_child_true.
      rewrite (path_child b b') by done.
      intros [Hin|Hin]%elem_of_app; [by apply IH|].
      apply list_elem_of_singleton in Hin as ->. by eapply rtc_r. }
  destruct (reachable_tiles (Board_init t None None) x Hrx eq_refl)
    as (Hw & _).
  pose proof (neighbors_Ret_rows_ok _ _ _ Hnbs) as Hok.
  rewrite neighbors_by_blanks in Hnbs by done. injection Hnbs as <-.
  apply list_elem_of_bind in Hin as (c & Hin & (Hc & _)%elem_of_blanks).
  apply list_elem_of_fmap in Hin as (m & -> & Hm).
  by exists c, m.
Qed.

Lemma solve_path_is_move_sequence_witness :
  ∃ p x y,
    solve 10 (Board_init [[1;2;3];[4;0;6];[7;5;8]] None None) = Ret (Some p) ∧
    p !! 0%nat = Some x ∧ p !! 1%nat = Some y ∧
    (∃ nbs, neighbors x true = Ret nbs ∧ y ∈ nbs) ∧
    ∃ c m, cell (tiles x) c.1 c.2 = Some 0 ∧
           m ∈ moves_at (width x) c.1 c.2 ∧ y = child_of x c m.
Proof.
  eexists _, _, _.
  assert (solve 10 (Board_init [[1;2;3];[4;0;6];[7;5;8]] None None)
          = Ret (Some _)) as Hrun by (vm_compute; reflexivity).
  split; [exact Hrun|].
  assert (∀ A (a : A), Some a = Some a) as Hsome by reflexivity.
  split; [apply Hsome|]. split; [apply Hsome|].
  exact (solve_path_is_move_sequence _ _ _ 0 _ _ Hrun (Hsome _ _) (Hsome _ _)).
Defined.
(** ** The frontier is a heap ordered by [f] *)

Lemma f_cost (b : Board) : rows_ok b → f b = Ret (cost b).
Proof. intros Hok. unfold f, cost. by rewrite manhattan_eq_sum. Qed.

Lemma Board_lt_cost (a b : Board) :
  rows_ok a → rows_ok b →
  Board_lt a b = Ret (bool_decide (cost a < cost b)).
Proof. intros Ha Hb. unfold Board_lt. by rewrite !f_cost. Qed.

Section frontier.
Context (root : Board).
Hypothesis root_width : width root = length (tiles root).
Hypothesis root_rows : rows_ok root.

Lemma reach_all_rows (q : list Board) :
  Forall (reachable root) q → Forall rows_ok q.
Proof.
  intros Hq. eapply Forall_impl; [done|]. intros b. by apply reach_rows.
Qed.

Lemma q_get_ordered (q q1 : list Board) (node : Board) :
  Forall (reachable root) q → heap_ordered cost q →
  q_get q = Ret (node, q1) →
  Forall (reachable root) q1 ∧ heap_ordered cost q1 ∧
  reachable root node ∧ ∀ b, b ∈ q → cost node ≤ cost b.
Proof.
  intros Hreach Hord Hget.
  pose proof (heappop_perm _ _ _ _ Hget) as Hperm.
  rewrite Hperm in Hreach. apply Forall_cons in Hreach as [Hnode Hq1].
  destruct (heappop_ordered Board_lt cost rows_ok Board_lt_cost q node q1)
    as [Hord1 Hmin]; try done.
  rewrite Hperm. apply reach_all_rows. by constructor.
Qed.

Lemma visit_ordered (q q' : list Board) (seen seen' : gset string)
    (nb : Board) :
  Forall (reachable root) q → heap_ordered cost q → reachable root nb →
  visit (q, seen) nb = Ret (q', seen') →
  Forall (reachable root) q' ∧ heap_ordered cost q' ∧
  ∀ b, b ∈ q' → b ∈ q ∨ b = nb.
Proof.
  intros Hreach Hord Hnb. unfold visit. case_decide.
  - intros Hrun. inv_bind Hrun. simplify_eq.
    pose proof (heappush_perm _ _ _ _ Ha) as Hperm.
    split; [rewrite Hperm; by constructor|]. split.
    + apply (heappush_ordered Board_lt cost rows_ok Board_lt_cost q nb);
        [done|by apply reach_all_rows|by apply (reach_rows root)|done].
    + intros b. rewrite Hperm. intros [->|Hb]%elem_of_cons; auto.
  - intros [= <- <-]. split; [done|]. split; [done|]. auto.
Qed.

(** One iteration of the [while] loop keeps the heap order, and every
    board of the new frontier was in the old one or is a child of the
    expanded board. *)
Lemma loop_step_ordered (st st' : list Board * gset string) :
  Forall (reachable root) st.1 → heap_ordered cost st.1 →
  loop_step st st' →
  Forall (reachable root) st'.1 ∧ heap_ordered cost st'.1 ∧
  ∃ node q1 nbs,
    q_get st.1 = Ret (node, q1) ∧ neighbors node true = Ret nbs ∧
    ∀ b, b ∈ st'.1 → b ∈ q1 ∨ b ∈ nbs.
Proof.
  destruct st as [q seen], st' as [q' seen']. simpl.
  intros Hreach Hord [_ Hbody]. simpl in Hbody.
  apply loop_body_Ret in Hbody
    as (node & q1 & Hget & Hperm &
        [[_ ?]|(_ & nbs & q2 & seen2 & Hnbs & Hrun & Heq)]); [done|].
  injection Heq as <- <-.
  destruct (q_get_ordered q q1 node Hreach Hord Hget)
    as (Hreach1 & Hord1 & Hnode & _).
  pose proof (children_reachable root node nbs Hnode Hnbs) as Hchildren.
  assert (Forall (reachable root) q' ∧ heap_ordered cost q' ∧
          ∀ b, b ∈ q' → b ∈ q1 ∨ b ∈ nbs) as (? & ? & ?).
  { revert Hrun.
    apply (for_each_inv
             (λ s, Forall (reachable root) s.1 ∧ heap_ordered cost s.1 ∧
                   ∀ b, b ∈ s.1 → b ∈ q1 ∨ b ∈ nbs)).
    - intros [qa sa] nb [qb sb] Hin (Hra & Hoa & Hfrom) Hvisit. simpl in *.
      destruct (visit_ordered qa qb sa sb nb Hra Hoa) as (Hrb & Hob & Hnew);
        [by eapply (Forall_forall (reachable root) nbs)|done|].
      split; [done|]. split; [done|].
      intros b Hb. destruct (Hnew b Hb) as [Hold| ->]; auto.
    - simpl. split; [done|]. split; [done|]. auto. }
  split; [done|]. split; [done|]. exists node, q1, nbs. done.
Qed.

Lemma loop_steps_ordered (st0 st : list Board * gset string) :
  loop_init root st0 → rtc loop_step st0 st →
  Forall (reachable root) st.1 ∧ heap_ordered cost st.1.
Proof.
  intros (q0 & Hput & ->) Hsteps. rewrite q_put_first in Hput.
  injection Hput as <-. revert st Hsteps.
  apply (rtc_ind_r (λ st, Forall (reachable root) st.1 ∧
                          heap_ordered cost st.1)).
  - simpl. split; [apply Forall_singleton, rtc_refl|].
    intros k x y Hk Hx. destruct k; [lia|done].
  - intros st1 st2 _ Hstep [Hreach Hord].
    destruct (loop_step_ordered st1 st2 Hreach Hord Hstep) as (? & ? & _).
    done.
Qed.

Lemma pop_minimum (st0 st : list Board * gset string) (node : Board)
    (q1 : list Board) :
  loop_init root st0 → rtc loop_step st0 st →
  q_get st.1 = Ret (node, q1) →
  rows_ok node ∧ ∀ b, b ∈ st.1 → rows_ok b ∧ cost node ≤ cost b.
Proof.
  intros Hinit Hsteps Hget.
  destruct (loop_steps_ordered st0 st Hinit Hsteps) as [Hreach Hord].
  destruct (q_get_ordered st.1 q1 node Hreach Hord Hget)
    as (_ & _ & Hnode & Hmin).
  split; [by apply (reach_rows root)|]. intros b Hb. split; [|by apply Hmin].
  apply (reach_rows root); [done..|]. by eapply (Forall_forall (reachable root) st.1).
Qed.

(** A child costs at least as much as the board it comes from. *)
Lemma child_cost (node nb : Board) (nbs : list Board) :
  reachable root node → neighbors node true = Ret nbs → nb ∈ nbs →
  cost node ≤ cost nb.
Proof.
  intros Hnode Hnbs Hin.
  destruct (reachable_tiles root node Hnode root_width) as (Hw & _).
  destruct (move_distance node nb true nbs Hw Hnbs Hin) as (_ & _ & _ & Hd).
  assert (g nb = g node + 1) as Hg.
  { apply (is_child_true node nb).
    pose proof (neighbors_children _ _ _ Hnbs) as Hall.
    by eapply Forall_forall in Hall. }
  unfold cost. lia.
Qed.

Lemma pop_order_step (st0 st st' : list Board * gset string)
    (node node' : Board) (q1 q1' : list Board) :
  loop_init root st0 → rtc loop_step st0 st → loop_step st st' →
  q_get st.1 = Ret (node, q1) → q_get st'.1 = Ret (node', q1') →
  cost node ≤ cost node'.
Proof.
  intros Hinit Hsteps Hstep Hget Hget'.
  destruct (loop_steps_ordered st0 st Hinit Hsteps) as [Hreach Hord].
  destruct (loop_step_ordered st st' Hreach Hord Hstep)
    as (_ & _ & node0 & q0 & nbs & Hget0 & Hnbs & Hfrom).
  rewrite Hget in Hget0. injection Hget0 as <- <-.
  destruct (q_get_ordered st.1 q1 node Hreach Hord Hget)
    as (_ & _ & Hnode & Hmin).
  assert (node' ∈ st'.1) as Hin.
  { rewrite (heappop_perm _ _ _ _ Hget'). by left. }
  destruct (Hfrom node' Hin) as [Hold|Hnew].
  - apply Hmin. rewrite (heappop_perm _ _ _ _ Hget). by right.
  - by eapply child_cost.
Qed.

Lemma pop_order (st0 st st' : list Board * gset string)
    (node node' : Board) (q1 q1' : list Board) :
  loop_init root st0 → rtc loop_step st0 st → rtc loop_step st st' →
  q_get st.1 = Ret (node, q1) → q_get st'.1 = Ret (node', q1') →
  cost node ≤ cost node'.
Proof.
  intros Hinit Hsteps Hsteps' Hget. revert st' Hsteps' node' q1'.
  apply (rtc_ind_r (λ st', ∀ node' q1', q_get st'.1 = Ret (node', q1') →
                                        cost node ≤ cost node')).
  - intros node' q1' Hget'. rewrite Hget in Hget'. by simplify_eq.
  - intros st1 st2 Hsteps1 Hstep IH node' q1' Hget'.
    pose proof Hstep as [_ Hbody].
    apply loop_body_Ret in Hbody as (node1 & q11 & Hget1 & _).
    pose proof (IH node1 q11 Hget1).
    pose proof (pop_order_step st0 st1 st2 node1 node' q11 q1' Hinit
                  ltac:(by etrans) Hstep Hget1 Hget').
    lia.
Qed.
End frontier.

(** X16: the board that the search takes from the queue has the smallest
    [f] of the frontier. At each iteration of the [while] loop the queue is
    a heap ordered by [f] (no board has a smaller [f] than its parent in
    the heap), it is one again after [q.get()], and for the board [node]
    that [q.get()] returns and every board [b] of the queue, both values of
    [f] exist and [node.f <= b.f]. *)
Theorem frontier_pops_minimum (t : grid) (p : option Board)
    (a : option string) (st0 st : list Board * gset string) (node : Board)
    (q1 : list Board) :
  rows_long t →
  loop_init (Board_init t p a) st0 → rtc loop_step st0 st →
  q_get st.1 = Ret (node, q1) →
  heap_ordered cost st.1 ∧ heap_ordered cost q1 ∧
  ∀ b, b ∈ st.1 → ∃ x y, f node = Ret x ∧ f b = Ret y ∧ x ≤ y.
Proof.
  intros Hrows%(rows_ok_init t p a) Hinit Hsteps Hget.
  destruct (loop_steps_ordered (Board_init t p a) eq_refl Hrows st0 st
              Hinit Hsteps) as [Hreach Hord].
  destruct (q_get_ordered (Board_init t p a) eq_refl Hrows st.1 q1 node
              Hreach Hord Hget) as (_ & Hord1 & _).
  split; [done|]. split; [done|]. intros b Hb.
  destruct (pop_minimum (Board_init t p a) eq_refl Hrows st0 st node q1
              Hinit Hsteps Hget) as [Hnode Hmin].
  destruct (Hmin b Hb) as [Hokb Hle].
  exists (cost node), (cost b). by rewrite !f_cost.
Qed.

Lemma frontier_pops_minimum_witness :
  ∃ st0 st node q1,
    rows_long [[1;2;3];[4;0;6];[7;5;8]] ∧
    loop_init (Board_init [[1;2;3];[4;0;6];[7;5;8]] None None) st0 ∧
    rtc loop_step st0 st ∧ length st.1 = 4%nat ∧
    q_get st.1 = Ret (node, q1) ∧
    heap_ordered cost st.1 ∧ heap_ordered cost q1 ∧
    ∀ b, b ∈ st.1 → ∃ x y, f node = Ret x ∧ f b = Ret y ∧ x ≤ y.
Proof.
  set (root := Board_init [[1;2;3];[4;0;6];[7;5;8]] None None).
  assert (∃ q seen, loop_body [root] (∅ ∪ {[repr root]})
                    = Ret (Continue q seen) ∧ length q = 4%nat ∧
                    ∃ node q1, q_get q = Ret (node, q1))
    as (q & seen & Hbody & Hlen & node & q1 & Hget).
  { eexists _, _. split; [vm_compute; reflexivity|].
    split; [reflexivity|]. eexists _, _. vm_compute. reflexivity. }
  assert (rows_long [[1;2;3];[4;0;6];[7;5;8]]) as Hrows
    by (repeat constructor).
  assert (loop_init root ([root], ∅ ∪ {[repr root]})) as Hinit.
  { by exists [root]. }
  assert (rtc loop_step ([root], ∅ ∪ {[repr root]}) (q, seen)) as Hrun.
  { apply rtc_once. by split. }
  exists ([root], ∅ ∪ {[repr root]}), (q, seen), node, q1.
  split; [exact Hrows|]. split; [exact Hinit|]. split; [exact Hrun|].
  split; [exact Hlen|]. split; [exact Hget|].
  exact (frontier_pops_minimum [[1;2;3];[4;0;6];[7;5;8]] None None _ _ _ _
           Hrows Hinit Hrun Hget).
Defined.



(** ** No configuration is queued twice *)

Lemma loop_step_distinct (st st' : list Board * gset string) :
  NoDup (repr <$> st.1) → (∀ b, b ∈ st.1 → repr b ∈ st.2) →
  loop_step st st' →
  NoDup (repr <$> st'.1) ∧ (∀ b, b ∈ st'.1 → repr b ∈ st'.2).
Proof.
  destruct st as [q seen], st' as [q' seen']. simpl.
  intros Hnodup Hkeys [_ Hbody]. simpl in Hbody.
  apply loop_body_Ret in Hbody
    as (node & q1 & _ & Hperm &
        [[_ ?]|(_ & nbs & q2 & seen2 & _ & Hrun & Heq)]); [done|].
  simplify_eq. revert Hrun.
  apply (for_each_inv
           (λ s, NoDup (repr <$> s.1) ∧ ∀ b, b ∈ s.1 → repr b ∈ s.2)).
  - intros [qa sa] nb [qb sb] _ [Hna Hka] Hvisit. simpl in *.
    apply visit_Ret in Hvisit as [(_ & -> & ->)|(Hnew & Hp & ->)]; [done|].
    split.
    + rewrite Hp, fmap_cons. apply NoDup_cons. split; [|done].
      intros (b & Hb & Hin)%list_elem_of_fmap. apply Hnew. rewrite Hb.
      by apply Hka.
    + intros b. rewrite Hp. intros [->|Hb]%elem_of_cons; [set_solver|].
      apply elem_of_union. left. by apply Hka.
  - simpl. rewrite Hperm, fmap_cons in Hnodup.
    apply NoDup_cons in Hnodup as [_ Hnodup]. split; [done|].
    intros b Hb. apply Hkeys. rewrite Hperm. by right.
Qed.

Lemma loop_steps_distinct (root : Board) (st0 st : list Board * gset string) :
  loop_init root st0 → rtc loop_step st0 st →
  NoDup (repr <$> st.1) ∧ (∀ b, b ∈ st.1 → repr b ∈ st.2).
Proof.
  intros (q0 & Hput & ->) Hsteps. rewrite q_put_first in Hput.
  injection Hput as <-. revert st Hsteps.
  apply (rtc_ind_r (λ st, NoDup (repr <$> st.1) ∧
                          ∀ b, b ∈ st.1 → repr b ∈ st.2)).
  - simpl. split; [apply NoDup_singleton|].
    intros b ->%list_elem_of_singleton. set_solver.
  - intros st1 st2 _ Hstep [Hnodup Hkeys].
    by apply (loop_step_distinct st1 st2).
Qed.

(** X18: the queue never holds a configuration twice. At each iteration of
    the [while] loop the keys of the boards in the queue are pairwise
    different, and so are their tiles, whatever board the search started
    from. *)
Theorem frontier_keys_distinct (root : Board)
    (st0 st : list Board * gset string) :
  loop_init root st0 → rtc loop_step st0 st →
  NoDup (repr <$> st.1) ∧ NoDup (tiles <$> st.1).
Proof.
  intros Hinit Hsteps.
  destruct (loop_steps_distinct root st0 st Hinit Hsteps) as [Hnodup _].
  split; [done|].
  apply (NoDup_fmap_1 (λ t, join_str (concat t))).
  by rewrite <-list_fmap_compose.
Qed.

Lemma frontier_keys_distinct_witness :
  ∃ st0 st,
    loop_init (Board_init [[1;2;3];[4;0;6];[7;5;8]] None None) st0 ∧
    rtc loop_step st0 st ∧ length st.1 = 4%nat ∧
    NoDup (repr <$> st.1) ∧ NoDup (tiles <$> st.1).
Proof.
  set (root := Board_init [[1;2;3];[4;0;6];[7;5;8]] None None).
  assert (∃ q seen, loop_body [root] (∅ ∪ {[repr root]})
                    = Ret (Continue q seen) ∧ length q = 4%nat)
    as (q & seen & Hbody & Hlen).
  { eexists _, _. vm_compute. split; reflexivity. }
  assert (loop_init root ([root], ∅ ∪ {[repr root]})) as Hinit.
  { by exists [root]. }
  assert (rtc loop_step ([root], ∅ ∪ {[repr root]}) (q, seen)) as Hrun.
  { apply rtc_once. by split. }
  exists ([root], ∅ ∪ {[repr root]}), (q, seen).
  split; [exact Hinit|]. split; [exact Hrun|]. split; [exact Hlen|].
  exact (frontier_keys_distinct root _ _ Hinit Hrun).
Defined.

(** ** No configuration is expanded twice *)

Lemma visits_closed (k : string) (nbs q q' : list Board)
    (seen seen' : gset string) :
  k ∈ seen → k ∉ repr <$> q →
  for_each nbs visit (q, seen) = Ret (q', seen') →
  k ∈ seen' ∧ k ∉ repr <$> q'.
Proof.
  intros Hk Hq.
  apply (for_each_inv (λ s, k ∈ s.2 ∧ k ∉ repr <$> s.1)); [|done].
  intros [qa sa] nb [qb sb] _ [Hka Hqa] Hvisit. simpl in *.
  apply visit_Ret in Hvisit as [(_ & -> & ->)|(Hnew & Hp & ->)]; [done|].
  split; [set_solver|]. rewrite Hp, fmap_cons.
  intros [Heq|Hin]%elem_of_cons; [|done]. by rewrite Heq in Hka.
Qed.

Lemma loop_step_closed (k : string) (st st' : list Board * gset string) :
  k ∈ st.2 → k ∉ repr <$> st.1 → loop_step st st' →
  k ∈ st'.2 ∧ k ∉ repr <$> st'.1.
Proof.
  destruct st as [q seen], st' as [q' seen']. simpl.
  intros Hk Hq [_ Hbody]. simpl in Hbody.
  apply loop_body_Ret in Hbody
    as (node & q1 & _ & Hperm &
        [[_ ?]|(_ & nbs & q2 & seen2 & _ & Hrun & Heq)]); [done|].
  injection Heq as <- <-. apply (visits_closed k nbs q1 q' seen seen' Hk);
    [|done].
  rewrite Hperm, fmap_cons in Hq. intros Hin. apply Hq. by right.
Qed.

Lemma pop_closed (st st' : list Board * gset string) (node : Board)
    (q1 : list Board) :
  NoDup (repr <$> st.1) → (∀ b, b ∈ st.1 → repr b ∈ st.2) →
  q_get st.1 = Ret (node, q1) → loop_step st st' →
  repr node ∈ st'.2 ∧ repr node ∉ repr <$> st'.1.
Proof.
  destruct st as [q seen], st' as [q' seen']. simpl.
  intros Hnodup Hkeys Hget [_ Hbody]. simpl in Hbody.
  apply loop_body_Ret in Hbody
    as (node0 & q0 & Hget0 & Hperm &
        [[_ ?]|(_ & nbs & q2 & seen2 & _ & Hrun & Heq)]); [done|].
  injection Heq as <- <-. rewrite Hget in Hget0. injection Hget0 as <- <-.
  apply (visits_closed (repr node) nbs q1 q' seen seen'); [| |done].
  - apply Hkeys. rewrite Hperm. by left.
  - rewrite Hperm, fmap_cons in Hnodup. by apply NoDup_cons in Hnodup as [? _].
Qed.

(** X25: no configuration is expanded twice. The boards that the search
    takes from the queue at two different iterations of the [while] loop
    have different keys, and so different tiles. *)
Theorem expansion_never_repeats (root : Board)
    (st0 st st1 st' : list Board * gset string) (node node' : Board)
    (q1 q1' : list Board) :
  loop_init root st0 → rtc loop_step st0 st →
  loop_step st st1 → rtc loop_step st1 st' →
  q_get st.1 = Ret (node, q1) → q_get st'.1 = Ret (node', q1') →
  repr node ≠ repr node' ∧ tiles node ≠ tiles node'.
Proof.
  intros Hinit Hsteps Hstep Hsteps' Hget Hget'.
  destruct (loop_steps_distinct root st0 st Hinit Hsteps) as [Hnodup Hkeys].
  pose proof (pop_closed st st1 node q1 Hnodup Hkeys Hget Hstep) as Hclosed.
  assert (repr node ∈ st'.2 ∧ repr node ∉ repr <$> st'.1) as [_ Hnot].
  { clear Hget'. revert st' Hsteps'.
    apply (rtc_ind_r (λ st', repr node ∈ st'.2 ∧
                             repr node ∉ repr <$> st'.1)); [done|].
    intros sa sb _ Hab [Hk Hq]. by apply (loop_step_closed _ sa sb). }
  assert (repr node ≠ repr node') as Hne.
  { intros Heq. apply Hnot. rewrite Heq. apply list_elem_of_fmap_2.
    rewrite (heappop_perm _ _ _ _ Hget'). by left. }
  split; [done|]. intros Heq. apply Hne. unfold repr, iter. by rewrite Heq.
Qed.

Lemma expansion_never_repeats_witness :
  ∃ st0 st1 node q1 node' q1',
    loop_init (Board_init [[1;2;3];[4;0;6];[7;5;8]] None None) st0 ∧
    rtc loop_step st0 st0 ∧ loop_step st0 st1 ∧ rtc loop_step st1 st1 ∧
    q_get st0.1 = Ret (node, q1) ∧ q_get st1.1 = Ret (node', q1') ∧
    repr node ≠ repr node' ∧ tiles node ≠ tiles node'.
Proof.
  set (root := Board_init [[1;2;3];[4;0;6];[7;5;8]] None None).
  assert (∃ q seen, loop_body [root] (∅ ∪ {[repr root]})
                    = Ret (Continue q seen) ∧
                    ∃ node q1, q_get q = Ret (node, q1))
    as (q & seen & Hbody & node' & q1' & Hget').
  { eexists _, _. split; [vm_compute; reflexivity|].
    eexists _, _. vm_compute. reflexivity. }
  assert (loop_init root ([root], ∅ ∪ {[repr root]})) as Hinit.
  { by exists [root]. }
  assert (loop_step ([root], ∅ ∪ {[repr root]}) (q, seen)) as Hstep.
  { by split. }
  assert (q_get [root] = Ret (root, [])) as Hget by reflexivity.
  exists ([root], ∅ ∪ {[repr root]}), (q, seen), root, [], node', q1'.
  split; [exact Hinit|]. split; [apply rtc_refl|]. split; [exact Hstep|].
  split; [apply rtc_refl|]. split; [exact Hget|]. split; [exact Hget'|].
  exact (expansion_never_repeats root _ _ _ _ _ _ _ _ Hinit (rtc_refl _ _)
           Hstep (rtc_refl _ _) Hget Hget').
Defined.
(** ** Exceptions and edge cases of [solve] *)

Lemma raises_only_OutOfFuel {A : Type} : raises_only_IndexError (@OutOfFuel A).
Proof. done. Qed.

Section heap_raises.
Context {A : Type} (less : A → A → res bool).
Hypothesis less_raises : ∀ a b, raises_only_IndexError (less a b).

Lemma raises_only_siftdown_loop n (heap : list A) startpos pos newitem :
  raises_only_IndexError (siftdown_loop less n heap startpos pos newitem).
Proof.
  revert heap pos. induction n as [|n IH]; intros heap pos; simpl.
  - case_decide; [apply raises_only_OutOfFuel|apply raises_only_setitem].
  - case_decide; [|apply raises_only_setitem].
    apply raises_only_bind; [apply raises_only_getitem|]. intros parent.
    apply raises_only_bind; [apply less_raises|]. intros [|].
    + apply raises_only_bind; [apply raises_only_setitem|]. intros heap1.
      apply IH.
    + apply raises_only_setitem.
Qed.

Lemma raises_only_siftdown (heap : list A) startpos pos :
  raises_only_IndexError (siftdown less heap startpos pos).
Proof.
  apply raises_only_bind; [apply raises_only_getitem|]. intros newitem.
  apply raises_only_siftdown_loop.
Qed.

Lemma raises_only_siftup_loop n (heap : list A) endpos pos :
  raises_only_IndexError (siftup_loop less n heap endpos pos).
Proof.
  revert heap pos. induction n as [|n IH]; intros heap pos; simpl.
  - case_decide; [apply raises_only_OutOfFuel|apply raises_only_Ret].
  - case_decide; [|apply raises_only_Ret].
    apply raises_only_bind.
    { case_decide; [|apply raises_only_Ret].
      apply raises_only_bind; [apply raises_only_getitem|]. intros a.
      apply raises_only_bind; [apply raises_only_getitem|]. intros b.
      apply raises_only_bind; [apply less_raises|]. intros c.
      apply raises_only_Ret. }
    intros right_wins.
    apply raises_only_bind; [apply raises_only_getitem|]. intros x.
    apply raises_only_bind; [apply raises_only_setitem|]. intros heap1.
    apply IH.
Qed.

Lemma raises_only_siftup (heap : list A) pos :
  raises_only_IndexError (siftup less heap pos).
Proof.
  apply raises_only_bind; [apply raises_only_getitem|]. intros newitem.
  apply raises_only_bind; [apply raises_only_siftup_loop|].
  intros [heap1 pos1].
  apply raises_only_bind; [apply raises_only_setitem|]. intros heap2.
  apply raises_only_siftdown.
Qed.

Lemma raises_only_heappush (heap : list A) item :
  raises_only_IndexError (heappush less heap item).
Proof. apply raises_only_siftdown. Qed.

Lemma raises_only_heappop (heap : list A) :
  raises_only_IndexError (heappop less heap).
Proof.
  unfold heappop. destruct (reverse heap) as [|lastelt rest]; [by intros ? [= <-]|].
  destruct (reverse rest) as [|returnitem tl]; [apply raises_only_Ret|].
  apply raises_only_bind; [apply raises_only_setitem|]. intros heap1.
  apply raises_only_bind; [apply raises_only_siftup|]. intros heap2.
  apply raises_only_Ret.
Qed.
End heap_raises.

Lemma raises_only_Board_lt (a b : Board) :
  raises_only_IndexError (Board_lt a b).
Proof.
  assert (∀ c, raises_only_IndexError (f c)) as Hf.
  { intros c. apply raises_only_bind; [apply raises_only_manhattan|].
    intros h. apply raises_only_Ret. }
  apply raises_only_bind; [apply Hf|]. intros x.
  apply raises_only_bind; [apply Hf|]. intros y. apply raises_only_Ret.
Qed.

Lemma raises_only_loop_body (q : list Board) (seen : gset string) :
  raises_only_IndexError (loop_body q seen).
Proof.
  apply raises_only_bind.
  { apply raises_only_heappop, raises_only_Board_lt. }
  intros [node q1]. destruct (is_solved node); [apply raises_only_Ret|].
  apply raises_only_bind; [apply raises_only_neighbors|]. intros nbs.
  apply raises_only_bind.
  { apply raises_only_for_each. intros [q2 seen2] nb _. unfold visit.
    case_decide; [|apply raises_only_Ret].
    apply raises_only_bind.
    { apply raises_only_heappush, raises_only_Board_lt. }
    intros q3. apply raises_only_Ret. }
  intros [q2 seen2]. apply raises_only_Ret.
Qed.

Lemma raises_only_solve (n : nat) (puzzle : Board) :
  raises_only_IndexError (solve n puzzle).
Proof.
  unfold solve. rewrite q_put_first, ret_bind.
  generalize (∅ ∪ {[repr puzzle]} : gset string). generalize [puzzle].
  induction n as [|n IH]; intros q seen; simpl.
  - destruct (q_empty q); [apply raises_only_Ret|apply raises_only_OutOfFuel].
  - destruct (q_empty q); [apply raises_only_Ret|].
    apply raises_only_bind; [apply raises_only_loop_body|].
    intros [p|q' seen']; [apply raises_only_Ret|apply IH].
Qed.

Lemma solve_mono (n m : nat) (puzzle : Board) (r : res (option (list Board))) :
  (n ≤ m)%nat → r ≠ OutOfFuel → solve n puzzle = r → solve m puzzle = r.
Proof.
  unfold solve. rewrite q_put_first, !ret_bind. apply solve_loop_mono.
Qed.

(** The first iteration of the loop on a board that is not solved. *)
Lemma solve_first (n : nat) (puzzle : Board) :
  is_solved puzzle = false →
  solve (S n) puzzle =
  nbs ← neighbors puzzle true;
  '(q, seen) ← for_each nbs visit ([], ∅ ∪ {[repr puzzle]});
  solve_loop n q seen.
Proof.
  intros Hno. unfold solve. rewrite q_put_first, ret_bind.
  cbn [solve_loop]. unfold q_empty, loop_body.
  rewrite bool_decide_eq_false_2 by done.
  rewrite q_get_single, ret_bind, Hno.
  destruct (neighbors puzzle true) as [nbs| |]; simpl; [|done..].
  destruct (for_each nbs visit _) as [[q seen]| |]; simpl; done.
Qed.

Lemma solve_loop_empty (n : nat) (seen : gset string) :
  solve_loop n [] seen = Ret None.
Proof. by destruct n. Qed.

(** X19: [solve] raises no exception other than [IndexError]. It raises
    one exactly when the board is not solved and has a row with fewer than
    width tiles; then the first call of [neighbors] fails. *)
Theorem solve_raises_on_short_row (t : grid) (p : option Board)
    (a : option string) :
  (∀ n e, solve n (Board_init t p a) = Raise e → e = IndexError) ∧
  ((∃ n, solve n (Board_init t p a) = Raise IndexError) ↔
   is_solved (Board_init t p a) = false ∧ ¬ rows_long t) ∧
  (is_solved (Board_init t p a) = false → ¬ rows_long t →
   ∀ n, solve (S n) (Board_init t p a) = Raise IndexError).
Proof.
  assert (is_solved (Board_init t p a) = false → ¬ rows_long t →
          ∀ n, solve (S n) (Board_init t p a) = Raise IndexError) as Hraise.
  { intros Hno Hshort n. rewrite solve_first by done.
    rewrite <-(rows_ok_init t p a) in Hshort.
    apply (proj2 (neighbors_rows_ok_iff (Board_init t p a) true)) in Hshort.
    by rewrite Hshort. }
  split; [intros n; apply raises_only_solve|]. split; [|done]. split.
  - intros [n Hn].
    destruct (is_solved (Board_init t p a)) eqn:Hsolved.
    { destruct n as [|n]; [done|]. by rewrite solve_root_solved in Hn. }
    split; [done|]. intros Hrows%(rows_ok_init t p a).
    assert (solve (n + 2 * size (key_universe t) + 2) (Board_init t p a)
            = Raise IndexError) as HN.
    { apply (solve_mono n); [lia|done|done]. }
    destruct (solve_total (Board_init t p a)
                (n + 2 * size (key_universe t) + 2) eq_refl Hrows)
      as [(goal & Hrun & _)|[Hrun _]]; [simpl; lia|congruence..].
  - intros [Hno Hshort]. exists 1%nat. by apply Hraise.
Qed.

(** X20: when [neighbors] has nothing to return for the puzzle (a board of
    width 0 or 1, or a board without a blank inside the scanned window),
    [solve] ends after one iteration: with the path of the puzzle if the
    puzzle is solved, and with [None] otherwise. In particular it returns
    [None] on every board of width 0 or 1, also on [[0]], the board made
    from [make_goal(1)]. *)
Theorem solve_without_moves (t : grid) (p : option Board)
    (a : option string) (n : nat) :
  rows_long t → (length t ≤ 1)%nat ∨ blanks t = [] →
  solve (S n) (Board_init t p a) =
    (if is_solved (Board_init t p a)
     then Ret (Some (path (Board_init t p a))) else Ret None) ∧
  ((length t ≤ 1)%nat → solve (S n) (Board_init t p a) = Ret None).
Proof.
  intros Hrows Hcase.
  assert (is_solved (Board_init t p a) = false →
          solve (S n) (Board_init t p a) = Ret None) as Hnone.
  { intros Hno. rewrite solve_first by done.
    destruct (neighbors_total (Board_init t p a) true) as [nbs Hnbs].
    { by apply rows_ok_init. }
    rewrite Hnbs, ret_bind.
    rewrite (neighbors_none (Board_init t p a) true nbs eq_refl Hnbs Hcase).
    simpl. apply solve_loop_empty. }
  split.
  - destruct (is_solved (Board_init t p a)) eqn:Hsolved; [|by apply Hnone].
    by apply solve_root_solved.
  - intros Hlen. apply Hnone.
    destruct (is_solved (Board_init t p a)) eqn:Hsolved; [|done].
    apply is_solved_layout in Hsolved as [Hw _]. simpl in Hw. lia.
Qed.

Lemma solve_without_moves_witness :
  rows_long [[0]] ∧ ((length [[0]] ≤ 1)%nat ∨ blanks [[0]] = []) ∧
  solve 1 (Board_init [[0]] None None) = Ret None.
Proof.
  assert (rows_long [[0]]) as Hrows by (repeat constructor).
  assert ((length [[0]] ≤ 1)%nat ∨ blanks [[0]] = []) as Hcase
    by (left; simpl; lia).
  split; [exact Hrows|]. split; [exact Hcase|].
  exact (proj1 (solve_without_moves [[0]] None None 0 Hrows Hcase)).
Defined.

(** ** The path of a puzzle that has ancestors *)

Lemma reachable_path_prefix (root b : Board) :
  reachable root b →
  ∃ rest, path b = path root ++ rest ∧
          Z.of_nat (length rest) = g b - g root ∧
          Forall (reachable root) rest ∧
          (rest = [] → b = root).
Proof.
  unfold reachable. revert b.
  apply (rtc_ind_r (λ b, ∃ rest, path b = path root ++ rest ∧
                           Z.of_nat (length rest) = g b - g root ∧
                           Forall (rtc step root) rest ∧
                           (rest = [] → b = root))).
  - exists []. rewrite app_nil_r. split; [done|]. split; [simpl; lia|done].
  - intros b b' Hreach Hstep (rest & Hpath & Hlen & Hall & _).
    pose proof Hstep as (Hp & Hg & _)%step_child%is_child_true.
    exists (rest ++ [b']). rewrite (path_child b b'), Hpath by done.
    split; [by rewrite app_assoc|]. split.
    { rewrite length_app. simpl. lia. }
    split.
    { apply Forall_app. split; [done|]. apply Forall_singleton.
      by eapply rtc_r. }
    intros Hnil. by destruct rest.
Qed.

(** X21: [Solver] accepts a puzzle that has a parent, for instance a board
    taken from [neighbors(record_parent=True)]. The path that [solve]
    returns then does not start at the puzzle: it is the path of the puzzle
    (its ancestors, oldest first, and the puzzle) followed by the boards of
    the moves that the search found, as many as the solved board lies
    deeper than the puzzle. *)
Theorem solve_path_starts_at_oldest_ancestor (puzzle : Board) (n : nat)
    (p : list Board) :
  solve n puzzle = Ret (Some p) →
  ∃ rest solved,
    p = path puzzle ++ rest ∧ last p = Some solved ∧
    is_solved solved = true ∧
    Z.of_nat (length rest) = g solved - g puzzle ∧
    head p = head (path puzzle).
Proof.
  intros (goal & Hreach & Hsolved & ->)%solve_sound.
  destruct (reachable_path_prefix puzzle goal Hreach)
    as (rest & Hpath & Hlen & _).
  exists rest, goal. split; [done|]. split.
  { unfold path. destruct goal. simpl. by rewrite last_snoc. }
  split; [done|]. split; [done|]. rewrite Hpath.
  unfold path. destruct puzzle as [t w [pp|] act gg]; simpl.
  - by destruct (rev (path_collect pp)).
  - done.
Qed.

Lemma solve_path_starts_at_oldest_ancestor_witness :
  ∃ p rest solved,
    let root := Board_init [[1;2];[0;3]] None None in
    let puzzle := Board_init [[0;2];[1;3]] (Some root) (Some "Down") in
    solve 10 puzzle = Ret (Some p) ∧ head p = Some root ∧
    p = path puzzle ++ rest ∧ last p = Some solved ∧
    is_solved solved = true ∧
    Z.of_nat (length rest) = g solved - g puzzle ∧
    head p = head (path puzzle).
Proof.
  set (root := Board_init [[1;2];[0;3]] None None).
  set (puzzle := Board_init [[0;2];[1;3]] (Some root) (Some "Down")).
  assert (∃ p, solve 10 puzzle = Ret (Some p) ∧ head p = Some root)
    as (p & Hrun & Hhead).
  { eexists. split; [vm_compute; reflexivity|reflexivity]. }
  destruct (solve_path_starts_at_oldest_ancestor puzzle 10 p Hrun)
    as (rest & solved & Hrest).
  exists p, rest, solved. simpl. split; [exact Hrun|]. split; [exact Hhead|].
  exact Hrest.
Defined.
(** ** [path] on boards built by [__init__] *)

(** Induction along the [parent] links. *)
Lemma board_parent_ind (P : Board → Prop) :
  (∀ b, parent b = None → P b) →
  (∀ b p, parent b = Some p → P p → P b) →
  ∀ b, P b.
Proof.
  intros Hroot Hchild b.
  remember (length (path_collect b)) as n eqn:Hn. revert b Hn.
  induction n as [|n IH]; intros b Hn.
  - by destruct b.
  - destruct (parent b) as [p|] eqn:Hp.
    + apply (Hchild b p Hp). apply IH.
      destruct b; simpl in *. subst. by injection Hn.
    + by apply Hroot.
Qed.

Lemma path_nonempty (b : Board) : path b ≠ [].
Proof.
  unfold path. destruct b. simpl. intros Hnil.
  by apply app_eq_nil in Hnil as [_ ?].
Qed.

(** X22: [path()] of a board that was built by [__init__], as all its
    ancestors were, ends with the board and starts with the ancestor that
    has no parent, at depth 0; it has one board more than the depth of the
    board, and each board on it is the parent of the next one, one level
    deeper. *)
Theorem path_of_built_board (b : Board) :
  init_built b →
  last (path b) = Some b ∧
  (∃ first, head (path b) = Some first ∧ parent first = None ∧
            g first = 0) ∧
  Z.of_nat (length (path b)) = g b + 1 ∧
  depth_chain (path b).
Proof.
  induction b as [b Hp|b p Hp IH] using board_parent_ind; intros Hbuilt.
  - rewrite path_root by done.
    assert (g b = 0) as Hg.
    { destruct b; simpl in *. subst. by destruct Hbuilt. }
    split; [done|]. split; [by exists b|]. split; [simpl; lia|].
    intros i x y _ Hy. by destruct i.
  - assert (g b = g p + 1 ∧ init_built p) as [Hg Hbp].
    { destruct b; simpl in *. subst. by destruct Hbuilt. }
    destruct (IH Hbp) as (Hlast & (first & Hhead & Hfirst) & Hlen & Hchain).
    rewrite (path_child p b) by done.
    split; [apply last_snoc|]. split; [|split].
    + exists first. split; [|done].
      destruct (path p); simplify_eq/=; done.
    + rewrite length_app. simpl. lia.
    + by eapply depth_chain_snoc.
Qed.

Lemma path_of_built_board_witness :
  let root := Board_init [[1;2];[0;3]] None None in
  let b := Board_init [[1;2];[3;0]] (Some root) (Some "Left") in
  init_built b ∧ path b = [root; b] ∧
  last (path b) = Some b ∧
  (∃ first, head (path b) = Some first ∧ parent first = None ∧
            g first = 0) ∧
  Z.of_nat (length (path b)) = g b + 1 ∧
  depth_chain (path b).
Proof.
  intros root b.
  assert (init_built b) as Hbuilt by (simpl; done).
  split; [exact Hbuilt|]. split; [reflexivity|].
  exact (path_of_built_board b Hbuilt).
Defined.

(** ** [__lt__] and [__eq__] order the boards by [f] *)

Lemma manhattan_sum_ext (a b : Board) :
  tiles a = tiles b → width a = width b → manhattan_sum a = manhattan_sum b.
Proof.
  intros Ht Hw. unfold manhattan_sum, cell_distance. by rewrite Ht, Hw.
Qed.

(** X23: [__lt__] and [__eq__] fit together as the priority queue needs
    it. [__lt__] is transitive and never holds of a board and itself;
    [__eq__] is transitive; and for two boards whose [f] can be computed,
    exactly one of [a < b], [a == b], [b < a] is [True]. But [__eq__] is
    not equality of configurations: two boards with the same tiles are
    equal exactly when they have the same depth. *)
Theorem Board_lt_is_strict_weak_order :
  (∀ a b c, Board_lt a b = Ret true → Board_lt b c = Ret true →
            Board_lt a c = Ret true) ∧
  (∀ a, Board_lt a a ≠ Ret true) ∧
  (∀ a b c, Board_eq a b = Ret true → Board_eq b c = Ret true →
            Board_eq a c = Ret true) ∧
  (∀ a b x y, f a = Ret x → f b = Ret y →
     ∃ l e r, Board_lt a b = Ret l ∧ Board_eq a b = Ret e ∧
              Board_lt b a = Ret r ∧
              (l = true ∧ e = false ∧ r = false ∨
               l = false ∧ e = true ∧ r = false ∨
               l = false ∧ e = false ∧ r = true)) ∧
  (∀ a b h, tiles a = tiles b → width a = width b → manhattan a = Ret h →
            Board_eq a b = Ret (bool_decide (g a = g b))).
Proof.
  split; [|split; [|split; [|split]]].
  - intros a b c (x & y & Hx & Hy & Hxy)%Board_lt_Ret
      (y' & z & Hy' & Hz & Hyz)%Board_lt_Ret.
    apply Board_lt_Ret. exists x, z. split; [done|]. split; [done|].
    rewrite Hy in Hy'. injection Hy' as <-.
    symmetry in Hxy, Hyz. apply bool_decide_eq_true in Hxy, Hyz.
    symmetry. apply bool_decide_eq_true. lia.
  - intros a (x & y & Hx & Hy & Hxy)%Board_lt_Ret.
    rewrite Hx in Hy. injection Hy as <-.
    symmetry in Hxy. apply bool_decide_eq_true in Hxy. lia.
  - intros a b c (x & y & Hx & Hy & Hxy)%Board_eq_Ret
      (y' & z & Hy' & Hz & Hyz)%Board_eq_Ret.
    apply Board_eq_Ret. exists x, z. split; [done|]. split; [done|].
    rewrite Hy in Hy'. injection Hy' as <-.
    symmetry in Hxy, Hyz. apply bool_decide_eq_true in Hxy, Hyz.
    symmetry. apply bool_decide_eq_true. lia.
  - intros a b x y Hx Hy.
    exists (bool_decide (x < y)), (bool_decide (x = y)), (bool_decide (y < x)).
    unfold Board_lt, Board_eq. rewrite Hx, Hy. simpl.
    split; [done|]. split; [done|]. split; [done|].
    repeat case_bool_decide; try lia; auto.
  - intros a b h Ht Hw Hh.
    pose proof (manhattan_Ret_rows_ok a h Hh) as Hoka.
    assert (rows_ok b) as Hokb.
    { unfold rows_ok in *. by rewrite <-Ht, <-Hw. }
    unfold Board_eq, f. rewrite !manhattan_eq_sum by done. simpl.
    rewrite (manhattan_sum_ext a b Ht Hw). f_equal.
    apply bool_decide_ext. lia.
Qed.

(** ** [print_tiles] *)

Lemma unbracket_app (s1 s2 : string) :
  unbracket (s1 +:+ s2) = unbracket s1 +:+ unbracket s2.
Proof.
  induction s1 as [|c s1 IH]; [done|].
  rewrite string_app_cons. simpl. case_decide; [done|].
  by rewrite string_app_cons, IH.
Qed.

Lemma unbracket_digit (x : N) (s : string) :
  unbracket (String (pretty_N_char x) s) = String (pretty_N_char x) (unbracket s).
Proof.
  simpl. rewrite decide_False; [done|].
  unfold pretty_N_char. repeat case_match; intros [?|[?|?]]; discriminate.
Qed.

Lemma unbracket_pretty_N_go (x : N) (s : string) :
  unbracket (pretty_N_go x s) = pretty_N_go x (unbracket s).
Proof.
  revert s. induction (N.lt_wf_0 x) as [x _ IH]; intros s.
  destruct (decide (x = 0)%N) as [->|Hx].
  - by rewrite !pretty_N_go_0.
  - rewrite (pretty_N_go_step x s), (pretty_N_go_step x (unbracket s)) by lia.
    rewrite IH by (apply N.div_lt; lia).
    by rewrite unbracket_digit.
Qed.

Lemma unbracket_pretty_positive (p : positive) :
  unbracket (pretty (Npos p)) = pretty (Npos p).
Proof.
  unfold pretty, pretty_N. case_decide; [done|].
  by rewrite unbracket_pretty_N_go.
Qed.

Lemma unbracket_pretty (z : Z) : unbracket (pretty z) = pretty z.
Proof.
  destruct z as [|p|p]; unfold pretty, pretty_Z.
  - done.
  - apply unbracket_pretty_positive.
  - rewrite unbracket_app. simpl. f_equal. apply unbracket_pretty_positive.
Qed.

Lemma unbracket_concat (ws : list string) :
  Forall (λ w, unbracket w = w) ws →
  unbracket (String.concat ", " ws) = String.concat " " ws.
Proof.
  induction 1 as [|w ws Hw Hws IH]; [done|].
  rewrite !concat_cons_tail, unbracket_app, Hw. f_equal.
  destruct ws as [|w' ws]; [done|].
  rewrite unbracket_app, IH. done.
Qed.

(** Taking the punctuation away from a printed row leaves the key of the
    row. *)
Lemma unbracket_str_list (row : list Z) :
  unbracket (str_list row) = join_str row.
Proof.
  unfold str_list, join_str. rewrite !unbracket_app, unbracket_concat.
  - simpl. by rewrite string_app_nil_r.
  - apply Forall_fmap, Forall_forall. intros z _. apply unbracket_pretty.
Qed.

Lemma str_list_inj (r1 r2 : list Z) : str_list r1 = str_list r2 → r1 = r2.
Proof.
  intros Heq. apply join_str_inj. by rewrite <-!unbracket_str_list, Heq.
Qed.

(** X24: [print_tiles] writes one line for each row, and the lines show
    the tiles without loss: two boards print the same lines exactly when
    their tiles are equal, and a printed row without its brackets and
    commas is the rendering of the row that the key of the board uses. *)
Theorem print_tiles_shows_tiles (b1 b2 : Board) :
  length (print_tiles b1) = length (tiles b1) ∧
  (print_tiles b1 = print_tiles b2 ↔ tiles b1 = tiles b2) ∧
  (∀ i line, print_tiles b1 !! i = Some line →
     ∃ row, tiles b1 !! i = Some row ∧ unbracket line = join_str row) ∧
  print_tiles (Board_init [[1;2;3];[4;5;6];[7;8;0]] None None)
  = ["[1, 2, 3]"; "[4, 5, 6]"; "[7, 8, 0]"].
Proof.
  unfold print_tiles. split; [apply length_fmap|]. split; [|split].
  - split; [|by intros ->].
    generalize (tiles b2). induction (tiles b1) as [|r1 t1 IH];
      intros [|r2 t2] Heq; try discriminate; [done|].
    rewrite !fmap_cons in Heq.
    assert (str_list r1 = str_list r2 ∧ str_list <$> t1 = str_list <$> t2)
      as [H1 H2] by (split; congruence).
    f_equal; [by apply str_list_inj|by apply IH].
  - intros i line Hline. rewrite list_lookup_fmap in Hline.
    destruct (tiles b1 !! i) as [row|]; simplify_eq/=.
    exists row. split; [done|]. apply unbracket_str_list.
  - reflexivity.
Qed.
(** ** The search can miss the shortest solution *)

(** One move: to the child with the index [k] in the list that
    [neighbors(record_parent=True)] returns. *)
Tactic Notation "take_child" integer(k) :=
  eapply nsteps_l;
  [ eexists; split; [reflexivity|];
    do k (apply list_elem_of_further); apply list_elem_of_here
  | ].

(** X26: [solve] does not always return a shortest solution. For the board
    [[1,2,3],[7,0,8],[5,6,4]] it returns a path of 13 boards, that is of 12
    moves, although a solved board is 10 moves away from it (10 is also the
    Manhattan distance of the board). A configuration is marked as seen
    when it is first pushed, with the depth it has on that way; a shorter
    way to it that turns up later is dropped. *)
Theorem solve_can_miss_shortest_path :
  ∃ (p : list Board) (solved : Board),
    (∀ n, (50 ≤ n)%nat →
          solve n (Board_init [[1;2;3];[7;0;8];[5;6;4]] None None)
          = Ret (Some p)) ∧
    length p = 13%nat ∧
    nsteps step 10 (Board_init [[1;2;3];[7;0;8];[5;6;4]] None None) solved ∧
    is_solved solved = true ∧
    manhattan (Board_init [[1;2;3];[7;0;8];[5;6;4]] None None) = Ret 10.
Proof.
  assert (∃ p, solve 50 (Board_init [[1;2;3];[7;0;8];[5;6;4]] None None)
               = Ret (Some p) ∧ length p = 13%nat) as (p & Hrun & Hlen).
  { eexists. split; [vm_compute; reflexivity|reflexivity]. }
  exists p. eexists. split; [|split; [exact Hlen|split; [|split]]].
  - intros n Hn. by apply (solve_mono 50).
  - take_child 1. take_child 2. take_child 0. take_child 2. take_child 1.
    take_child 1. take_child 0. take_child 2. take_child 1. take_child 2.
    apply nsteps_O.
  - reflexivity.
  - reflexivity.
Qed.
